(** * The credential vault of MAK3R-HUB (src/mcp/credentials/manager.js)

    A shallow embedding of the [CredentialManager] class: the XOR stream
    cipher, the machine-bound wrapping of the master key, the per-service
    validation rules, the sealing and opening of sensitive fields, and the
    public operations on the in-memory cache and the credentials file,
    with the loading, the export and the import of the store, the
    connection test, and the configuration command of the command-line
    client that drives the manager.

    Conventions of the embedding.
    - A JavaScript string is a [string] that holds the bytes of its UTF-8
      encoding, so that [Buffer.from(s, 'utf8')] lists its bytes and
      [buf.toString('utf8')] reads them back.  [JS.units] gives the UTF-16
      code units of the JavaScript string a [string] stands for, with
      U+FFFD where Node puts it, and [JS.text] the [string] of a list of
      code units; the two are inverse on well-formed text, and the
      statements about strings that a caller passes are made on code
      units.
    - A [Buffer] is a [list Z] of bytes; a store into a Buffer keeps the low
      eight bits ([to_uint8]).
    - A plain object is an association list in own-property order; a missing
      property reads as [None] ([undefined]).
    - [Date.now()] and [crypto.randomBytes] are inputs of the operations that
      call them.  File writes are taken to succeed.
    - [JSON.parse], the answers of the network and of the prompts, the
      options of a command and the environment variables are parameters of
      the operations that read them. *)

From Stdlib Require Import ZArith List String Ascii Bool Lia DecimalString DecimalPos.
From Stdlib Require Import Sorted Permutation.
Import ListNotations.

Local Open Scope string_scope.
Local Open Scope Z_scope.

(** ** The JavaScript runtime used by the vault *)

Module JS.

(** *** Strings *)

Definition quote_char : ascii := "034"%char.
Definition newline_char : ascii := "010"%char.

Fixpoint drop (n : nat) (s : string) : string :=
  match n, s with
  | O, _ => s
  | S _, EmptyString => EmptyString
  | S n', String _ s' => drop n' s'
  end.

(** [s.includes(pat)] *)
Fixpoint includes (pat s : string) : bool :=
  if prefix pat s then true
  else match s with
       | EmptyString => false
       | String _ s' => includes pat s'
       end.

(** [s.endsWith(suffix)] *)
Fixpoint endsWith (suffix s : string) : bool :=
  if String.eqb s suffix then true
  else match s with
       | EmptyString => false
       | String _ s' => endsWith suffix s'
       end.

(** [s.replace(pat, rep)] with a string pattern: the first occurrence only. *)
Fixpoint replace (pat rep s : string) : string :=
  if prefix pat s then rep ++ drop (String.length pat) s
  else match s with
       | EmptyString => EmptyString
       | String c s' => String c (replace pat rep s')
       end.

(** The text after the first occurrence of [pat], if there is one. *)
Fixpoint after_first (pat s : string) : option string :=
  if prefix pat s then Some (drop (String.length pat) s)
  else match s with
       | EmptyString => None
       | String _ s' => after_first pat s'
       end.

(** The text before the first occurrence of [pat] (all of [s] if none). *)
Fixpoint before_first (pat s : string) : string :=
  if prefix pat s then EmptyString
  else match s with
       | EmptyString => EmptyString
       | String c s' => String c (before_first pat s')
       end.

(** [s.split(pat)[1]] for a non-empty [pat]: the piece between the first
    and the second occurrence of [pat]; [undefined] without an occurrence. *)
Definition split_at_1 (pat s : string) : option string :=
  match after_first pat s with
  | Some rest => Some (before_first pat rest)
  | None => None
  end.

(** The decimal text of an integer, as a template literal prints it. *)
Definition string_of_Z (z : Z) : string := NilZero.string_of_int (Z.to_int z).

Definition digit_value (c : ascii) : option Z :=
  let n := Z.of_N (N_of_ascii c) in
  if (48 <=? n) && (n <=? 57) then Some (n - 48) else None.

(** White space that takes one byte: TAB, LF, VT, FF, CR and the space. *)
Definition is_space (c : ascii) : bool :=
  let n := N_of_ascii c in
  ((9 <=? n) && (n <=? 13) || (n =? 32))%N.

(** The first byte of the white space that takes more: U+00A0, U+1680,
    U+2000 to U+200A, U+2028, U+2029, U+202F, U+205F, U+3000 and U+FEFF. *)
Definition wide_lead (c : ascii) : bool :=
  let n := N_of_ascii c in
  ((n =? 194) || (n =? 225) || (n =? 226) || (n =? 227) || (n =? 239))%N.

Definition wide_space2 (c1 c2 : ascii) : bool :=
  ((N_of_ascii c1 =? 194) && (N_of_ascii c2 =? 160))%N.

Definition wide_space3 (c1 c2 c3 : ascii) : bool :=
  let a := N_of_ascii c1 in
  let b := N_of_ascii c2 in
  let c := N_of_ascii c3 in
  ((a =? 225) && (b =? 154) && (c =? 128)
   || (a =? 226) && (b =? 128)
      && ((128 <=? c) && (c <=? 138) || (c =? 168) || (c =? 169) || (c =? 175))
   || (a =? 226) && (b =? 129) && (c =? 159)
   || (a =? 227) && (b =? 128) && (c =? 128)
   || (a =? 239) && (b =? 187) && (c =? 191))%N.

(** The text after the leading white space, as [parseInt] skips it. *)
Fixpoint skip_spaces (s : string) : string :=
  match s with
  | EmptyString => EmptyString
  | String c1 s1 =>
      if is_space c1 then skip_spaces s1
      else if negb (wide_lead c1) then s
      else
        match s1 with
        | EmptyString => s
        | String c2 s2 =>
            if wide_space2 c1 c2 then skip_spaces s2
            else
              match s2 with
              | EmptyString => s
              | String c3 s3 => if wide_space3 c1 c2 c3 then skip_spaces s3 else s
              end
        end
  end.

Fixpoint parse_digits (acc : option Z) (s : string) : option Z :=
  match s with
  | EmptyString => acc
  | String c s' =>
      match digit_value c with
      | Some d => parse_digits (Some (match acc with Some a => 10 * a + d | None => d end)) s'
      | None => acc
      end
  end.

(** [parseInt(s, 10)]; [None] is [NaN].  An absent argument prints as the
    text [undefined], which has no digits. *)
Definition parseInt (s : option string) : option Z :=
  match s with
  | None => None
  | Some s =>
      match skip_spaces s with
      | String "-" s' => option_map Z.opp (parse_digits None s')
      | String "+" s' => parse_digits None s'
      | s' => parse_digits None s'
      end
  end.

(** *** Buffers *)

Definition to_uint8 (v : Z) : Z := Z.land v 255.

Definition is_byte (v : Z) : Prop := 0 <= v < 256.

Definition byte_of_ascii (c : ascii) : Z := Z.of_N (N_of_ascii c).
Definition ascii_of_byte (v : Z) : ascii := ascii_of_N (Z.to_N v).

(** [Buffer.from(s, 'utf8')]: a [string] of the model holds the text by
    the bytes of its UTF-8 encoding, which this lists.  [units] below
    gives the JavaScript string such a [string] stands for, and [text] the
    [string] of a JavaScript string. *)
Fixpoint Buffer_from_utf8 (s : string) : list Z :=
  match s with
  | EmptyString => []
  | String c s' => byte_of_ascii c :: Buffer_from_utf8 s'
  end.

(** [buf.toString('utf8')]: the [string] that holds the bytes; the
    JavaScript string it stands for is [utf8_decode b], in which Node has
    put U+FFFD for what is not well-formed. *)
Fixpoint Buffer_toString_utf8 (b : list Z) : string :=
  match b with
  | [] => EmptyString
  | v :: b' => String (ascii_of_byte v) (Buffer_toString_utf8 b')
  end.

(** *** JavaScript strings and their UTF-8 bytes

    A JavaScript string is a list of UTF-16 code units.  [utf8_encode] is
    the encoding [Buffer.from(s, 'utf8')] makes: a surrogate pair gives the
    four bytes of its code point, a surrogate without its partner the
    three bytes of U+FFFD.  [utf8_decode] is the decoding of
    [buf.toString('utf8')]: every maximal part of an ill-formed sequence
    gives U+FFFD. *)

Definition is_high (u : Z) : bool := (55296 <=? u) && (u <=? 56319).
Definition is_low (u : Z) : bool := (56320 <=? u) && (u <=? 57343).

Definition replacement : list Z := [239; 191; 189].

Definition utf8_of_code_point (c : Z) : list Z :=
  if c <? 128 then [c]
  else if c <? 2048 then [192 + c / 64; 128 + c mod 64]
  else if c <? 65536 then [224 + c / 4096; 128 + (c / 64) mod 64; 128 + c mod 64]
  else [240 + c / 262144; 128 + (c / 4096) mod 64; 128 + (c / 64) mod 64; 128 + c mod 64].

Definition code_point (high low : Z) : Z :=
  65536 + (high - 55296) * 1024 + (low - 56320).

Fixpoint utf8_encode (p : list Z) : list Z :=
  match p with
  | [] => []
  | u :: p' =>
      if is_high u then
        match p' with
        | l :: p'' =>
            if is_low l then utf8_of_code_point (code_point u l) ++ utf8_encode p''
            else replacement ++ utf8_encode p'
        | [] => replacement
        end
      else if is_low u then replacement ++ utf8_encode p'
      else utf8_of_code_point u ++ utf8_encode p'
  end.

Definition units_of_code_point (c : Z) : list Z :=
  if c <? 65536 then [c]
  else [55296 + (c - 65536) / 1024; 56320 + (c - 65536) mod 1024].

(** The state of the decoder: the bytes still to come for the character
    begun, the bits read of it, and the range the next byte must be in. *)
Record decoder : Type := mkDecoder {
  pending : nat;
  bits : Z;
  least : Z;
  most : Z
}.

Definition decoder_start : decoder := mkDecoder 0 0 128 191.

(** What a byte gives that is read when no character is begun. *)
Definition lead_out (b : Z) : list Z :=
  if (0 <=? b) && (b <=? 127) then [b]
  else if (194 <=? b) && (b <=? 244) then []
  else [65533].

Definition lead_state (b : Z) : decoder :=
  if (194 <=? b) && (b <=? 223) then mkDecoder 1 (b - 192) 128 191
  else if (224 <=? b) && (b <=? 239) then
    mkDecoder 2 (b - 224) (if b =? 224 then 160 else 128) (if b =? 237 then 159 else 191)
  else if (240 <=? b) && (b <=? 244) then
    mkDecoder 3 (b - 240) (if b =? 240 then 144 else 128) (if b =? 244 then 143 else 191)
  else decoder_start.

Fixpoint utf8_decode_from (d : decoder) (bs : list Z) : list Z :=
  match bs with
  | [] => match pending d with O => [] | S _ => [65533] end
  | b :: bs' =>
      match pending d with
      | O => lead_out b ++ utf8_decode_from (lead_state b) bs'
      | S n =>
          if (least d <=? b) && (b <=? most d) then
            let c := bits d * 64 + (b - 128) in
            match n with
            | O => units_of_code_point c ++ utf8_decode_from decoder_start bs'
            | S _ => utf8_decode_from (mkDecoder n c 128 191) bs'
            end
          else 65533 :: lead_out b ++ utf8_decode_from (lead_state b) bs'
      end
  end.

Definition utf8_decode (bs : list Z) : list Z := utf8_decode_from decoder_start bs.

(** Code units in which every surrogate has its partner. *)
Fixpoint well_formed (p : list Z) : bool :=
  match p with
  | [] => true
  | u :: p' =>
      if is_high u then
        match p' with
        | l :: p'' => is_low l && well_formed p''
        | [] => false
        end
      else (0 <=? u) && (u <? 65536) && negb (is_low u) && well_formed p'
  end.

(** The [string] of the model for the JavaScript string [p], and the
    JavaScript string a [string] of the model stands for. *)
Definition text (p : list Z) : string := Buffer_toString_utf8 (utf8_encode p).

Definition units (s : string) : list Z := utf8_decode (Buffer_from_utf8 s).

(** [a <= b] for two strings as [Array.prototype.sort()] compares them
    without a comparator: by their code units. *)
Fixpoint units_leb (a b : list Z) : bool :=
  match a, b with
  | [], _ => true
  | _ :: _, [] => false
  | x :: a', y :: b' =>
      if x <? y then true else if y <? x then false else units_leb a' b'
  end.

Definition code_units_leb (a b : string) : bool := units_leb (units a) (units b).

(** *** Base64 *)

Definition b64_alphabet : string :=
  "ABCDEFGHIJKLMNOPQRSTUVWXYZabcdefghijklmnopqrstuvwxyz0123456789+/".

Definition b64_char (n : Z) : ascii :=
  match get (Z.to_nat n) b64_alphabet with
  | Some c => c
  | None => "="%char
  end.

(** [buf.toString('base64')]: three bytes give four characters, the last
    group is padded with [=]. *)
Fixpoint Buffer_toString_base64 (b : list Z) : string :=
  match b with
  | [] => EmptyString
  | [x] =>
      String (b64_char (x / 4)) (String (b64_char ((x mod 4) * 16)) "==")
  | [x; y] =>
      String (b64_char (x / 4))
        (String (b64_char ((x mod 4) * 16 + y / 16))
           (String (b64_char ((y mod 16) * 4)) "="))
  | x :: y :: z :: rest =>
      String (b64_char (x / 4))
        (String (b64_char ((x mod 4) * 16 + y / 16))
           (String (b64_char ((y mod 16) * 4 + z / 64))
              (String (b64_char (z mod 64)) (Buffer_toString_base64 rest))))
  end.

(** The value of a base64 character; the URL-safe [-] and [_] are accepted. *)
Definition unbase64 (c : ascii) : option Z :=
  let n := byte_of_ascii c in
  if (65 <=? n) && (n <=? 90) then Some (n - 65)
  else if (97 <=? n) && (n <=? 122) then Some (n - 71)
  else if (48 <=? n) && (n <=? 57) then Some (n + 4)
  else if (n =? 43) || (n =? 45) then Some 62
  else if (n =? 47) || (n =? 95) then Some 63
  else None.

(** The decoder is forgiving: characters outside the alphabet are skipped
    and decoding stops at the first [=]. *)
Fixpoint b64_sextets (s : string) : list Z :=
  match s with
  | EmptyString => []
  | String c s' =>
      if Ascii.eqb c "=" then []
      else match unbase64 c with
           | Some v => v :: b64_sextets s'
           | None => b64_sextets s'
           end
  end.

Fixpoint b64_pack (s : list Z) : list Z :=
  match s with
  | s0 :: s1 :: s2 :: s3 :: rest =>
      (s0 * 4 + s1 / 16) :: ((s1 mod 16) * 16 + s2 / 4)
        :: ((s2 mod 4) * 64 + s3) :: b64_pack rest
  | [s0; s1; s2] => [s0 * 4 + s1 / 16; (s1 mod 16) * 16 + s2 / 4]
  | [s0; s1] => [s0 * 4 + s1 / 16]
  | _ => []
  end.

(** [Buffer.from(s, 'base64')] *)
Definition Buffer_from_base64 (s : string) : list Z := b64_pack (b64_sextets s).

(** *** Values and plain objects *)

(** The values a credential field holds: a string, or a boolean such as the
    [<field>_encrypted] marker. *)
Inductive value : Type :=
  | VStr (s : string)
  | VBool (b : bool).

(** A field value and a record as JavaScript holds them: the strings by
    their code units. *)
Inductive js_value : Type :=
  | JStr (p : list Z)
  | JBool (b : bool).

Definition text_value (v : js_value) : value :=
  match v with
  | JStr p => VStr (text p)
  | JBool b => VBool b
  end.

Definition units_value (v : value) : js_value :=
  match v with
  | VStr s => JStr (units s)
  | VBool b => JBool b
  end.

Definition text_record (R : list (list Z * js_value)) : list (string * value) :=
  map (fun e => (text (fst e), text_value (snd e))) R.

Definition units_record (r : list (string * value)) : list (list Z * js_value) :=
  map (fun e => (units (fst e), units_value (snd e))) r.

Definition well_formed_record (R : list (list Z * js_value)) : bool :=
  forallb (fun e => well_formed (fst e)
                    && match snd e with JStr p => well_formed p | JBool _ => true end) R.

Definition value_eqb (a b : value) : bool :=
  match a, b with
  | VStr x, VStr y => String.eqb x y
  | VBool x, VBool y => Bool.eqb x y
  | _, _ => false
  end.

(** A plain object: its own enumerable properties, in property order. *)
Definition object (A : Type) : Type := list (string * A).

Definition record : Type := object value.

(** [o[k]] for an own property. *)
Fixpoint obj_get {A} (k : string) (o : object A) : option A :=
  match o with
  | [] => None
  | (k', v) :: o' => if String.eqb k k' then Some v else obj_get k o'
  end.

Definition obj_has {A} (k : string) (o : object A) : bool :=
  match obj_get k o with Some _ => true | None => false end.

(** [o[k] = v]: an existing property keeps its place, a new one goes last. *)
Fixpoint obj_set {A} (k : string) (v : A) (o : object A) : object A :=
  match o with
  | [] => [(k, v)]
  | (k', v') :: o' =>
      if String.eqb k k' then (k, v) :: o' else (k', v') :: obj_set k v o'
  end.

(** [delete o[k]] *)
Fixpoint obj_delete {A} (k : string) (o : object A) : object A :=
  match o with
  | [] => []
  | (k', v') :: o' =>
      if String.eqb k k' then o' else (k', v') :: obj_delete k o'
  end.

Definition keys {A} (o : object A) : list string := map fst o.

(** Truthiness of [o[k]]: [undefined], the empty string and [false] are
    falsy. *)
Definition truthy (v : option value) : bool :=
  match v with
  | None => false
  | Some (VStr s) => negb (String.eqb s "")
  | Some (VBool b) => b
  end.

(** The names every object literal inherits from [Object.prototype]; a
    lookup [table[name]] of one of them finds the inherited member. *)
Definition object_prototype_names : list string :=
  [ "constructor"; "__defineGetter__"; "__defineSetter__"; "hasOwnProperty";
    "__lookupGetter__"; "__lookupSetter__"; "isPrototypeOf";
    "propertyIsEnumerable"; "toString"; "valueOf"; "__proto__";
    "toLocaleString" ].

Definition inherited (k : string) : bool :=
  existsb (String.eqb k) object_prototype_names.

(** The result of [table[k]] on an object literal [table]. *)
Inductive lookup (A : Type) : Type :=
  | Own (a : A)
  | Inherited
  | Undefined.
Arguments Own {A} a.
Arguments Inherited {A}.
Arguments Undefined {A}.

Definition table_get {A} (k : string) (table : object A) : lookup A :=
  match obj_get k table with
  | Some a => Own a
  | None => if inherited k then Inherited else Undefined
  end.

(** *** Property order of an object filled by assignment

    Keys that are array indices (canonical decimal text below 2^32 - 1) come
    first, in increasing order; the other keys follow in the order of their
    creation.  Assigning to [__proto__] creates no own property. *)

Definition array_index (k : string) : option Z :=
  match parse_digits None k with
  | Some n =>
      if String.eqb (string_of_Z n) k && (n <? 4294967295) then Some n else None
  | None => None
  end.

Fixpoint insert_index {A} (n : Z) (k : string) (v : A) (o : object A) : object A :=
  match o with
  | [] => [(k, v)]
  | (k', v') :: o' =>
      match array_index k' with
      | Some n' =>
          if n' <? n then (k', v') :: insert_index n k v o'
          else if n' =? n then (k, v) :: o'
          else (k, v) :: o
      | None => (k, v) :: o
      end
  end.

Definition obj_assign {A} (k : string) (v : A) (o : object A) : object A :=
  if String.eqb k "__proto__" then o
  else match array_index k with
       | Some n => insert_index n k v o
       | None => obj_set k v o
       end.

(** *** JSON.stringify(value, null, 2) *)

Definition hex_digit (n : Z) : ascii :=
  match get (Z.to_nat n) "0123456789abcdef" with
  | Some c => c
  | None => "0"%char
  end.

Definition json_escape (c : ascii) : string :=
  let n := byte_of_ascii c in
  if n =? 34 then String "\" (String quote_char "")
  else if n =? 92 then "\\"
  else if n =? 8 then "\b"
  else if n =? 9 then "\t"
  else if n =? 10 then "\n"
  else if n =? 12 then "\f"
  else if n =? 13 then "\r"
  else if n <? 32 then "\u00" ++ String (hex_digit (n / 16)) (String (hex_digit (n mod 16)) "")
  else String c "".

Fixpoint json_escape_all (s : string) : string :=
  match s with
  | EmptyString => EmptyString
  | String c s' => json_escape c ++ json_escape_all s'
  end.

Definition json_quote (s : string) : string :=
  String quote_char (json_escape_all s ++ String quote_char "").

Definition json_value (v : value) : string :=
  match v with
  | VStr s => json_quote s
  | VBool true => "true"
  | VBool false => "false"
  end.

Definition nl : string := String newline_char "".

Fixpoint json_join (sep : string) (items : list string) : string :=
  match items with
  | [] => ""
  | [x] => x
  | x :: rest => x ++ sep ++ json_join sep rest
  end.

(** An object at nesting depth [indent] (in spaces); [{}] when it has no
    property to print. *)
Definition json_object (indent : string) (members : list string) : string :=
  match members with
  | [] => "{}"
  | _ =>
      "{" ++ nl ++ indent ++ "  "
        ++ json_join ("," ++ nl ++ indent ++ "  ") members
        ++ nl ++ indent ++ "}"
  end.

Definition json_member (k : string) (text : string) : string :=
  json_quote k ++ ": " ++ text.

Definition json_record (indent : string) (r : record) : string :=
  json_object indent (map (fun kv => json_member (fst kv) (json_value (snd kv))) r).

(** A property whose value is [undefined] is left out. *)
Fixpoint json_members (o : object (option record)) : list string :=
  match o with
  | [] => []
  | (k, Some r) :: o' => json_member k (json_record "  " r) :: json_members o'
  | (_, None) :: o' => json_members o'
  end.

Definition JSON_stringify (o : object (option record)) : string :=
  json_object "" (json_members o).

End JS.

(** ** The credential manager *)

Module Vault.

Import JS.

(** A call either returns or throws an [Error] with a message. *)
Inductive result (A : Type) : Type :=
  | Ok (a : A)
  | Err (msg : string).
Arguments Ok {A} a.
Arguments Err {A} msg.

(** The fields of a [CredentialManager] that change, and the two files it
    owns ([None]: the file does not exist).  [cache] is a [Map], which keeps
    its keys in insertion order; a key may be bound to [undefined] ([None]). *)
Record state : Type := mkState {
  cache : object (option record);
  masterKey : option (list Z);
  credentialsFile : option (list Z);
  keyFile : option (list Z)
}.

Definition set_cache (c : object (option record)) (st : state) : state :=
  mkState c (masterKey st) (credentialsFile st) (keyFile st).

Definition set_masterKey (k : option (list Z)) (st : state) : state :=
  mkState (cache st) k (credentialsFile st) (keyFile st).

Definition set_credentialsFile (f : option (list Z)) (st : state) : state :=
  mkState (cache st) (masterKey st) f (keyFile st).

Definition set_keyFile (f : option (list Z)) (st : state) : state :=
  mkState (cache st) (masterKey st) (credentialsFile st) f.

(** [this.cache.get(k)]: [undefined] for an absent key too. *)
Definition cache_get (k : string) (c : object (option record)) : option record :=
  match obj_get k c with
  | Some v => v
  | None => None
  end.

(** *** Methods run in a state and may throw; a throw keeps the changes
    made before it. *)

Definition M (A : Type) : Type := state -> result A * state.

Definition ret {A} (a : A) : M A := fun st => (Ok a, st).

Definition throw {A} (msg : string) : M A := fun st => (Err msg, st).

Definition bind {A B} (m : M A) (f : A -> M B) : M B :=
  fun st =>
    match m st with
    | (Ok a, st') => f a st'
    | (Err e, st') => (Err e, st')
    end.

Definition try_catch {A} (m : M A) (handler : string -> M A) : M A :=
  fun st =>
    match m st with
    | (Ok a, st') => (Ok a, st')
    | (Err e, st') => handler e st'
    end.

Definition lift {A} (r : result A) : M A := fun st => (r, st).

Definition gets {A} (f : state -> A) : M A := fun st => (Ok (f st), st).

Definition modify (f : state -> state) : M unit := fun st => (Ok tt, f st).

Notation "x <- m ;; k" := (bind m (fun x => k))
  (at level 61, m at next level, right associativity).
Notation "m ;;; k" := (bind m (fun _ => k))
  (at level 61, right associativity).

(** *** The XOR stream *)

(** [key[i % key.length]] as the operand of [^]: with an empty key the index
    is [NaN], the read is [undefined], and [x ^ undefined] is [x]. *)
Definition key_byte (key : list Z) (i : nat) : Z :=
  match key with
  | [] => 0
  | _ => nth (Nat.modulo i (List.length key)) key 0
  end.

(** [for (i = ...; i < data.length; i++) result[i] = data[i] ^ key[i % key.length]] *)
Fixpoint xor_from (key : list Z) (i : nat) (data : list Z) : list Z :=
  match data with
  | [] => []
  | d :: rest => to_uint8 (Z.lxor d (key_byte key i)) :: xor_from key (S i) rest
  end.

Definition xor_stream (key data : list Z) : list Z := xor_from key 0 data.

Definition not_initialized : string := "Master key not initialized".

Definition buffer_type_error (b : bool) : string :=
  "The first argument must be of type string or an instance of Buffer, ArrayBuffer, or Array or an Array-like Object. Received type boolean ("
  ++ (if b then "true" else "false") ++ ")".

(** [encrypt(data)]; [Buffer.from] refuses a boolean. *)
Definition encrypt (key : option (list Z)) (data : value) : result (list Z) :=
  match key with
  | None => Err not_initialized
  | Some k =>
      match data with
      | VStr s => Ok (xor_stream k (Buffer_from_utf8 s))
      | VBool b => Err (buffer_type_error b)
      end
  end.

(** [decrypt(encryptedData)] *)
Definition decrypt (key : option (list Z)) (encryptedData : list Z) : result string :=
  match key with
  | None => Err not_initialized
  | Some k => Ok (Buffer_toString_utf8 (xor_stream k encryptedData))
  end.

(** *** The master key and its file *)

Definition keyLength : nat := 32.
Definition saltLength : nat := 32.

Definition combinedKey (machineId salt : list Z) : list Z :=
  (firstn 16 machineId ++ firstn 16 salt)%list.

(** [encryptMasterKey(key)], with the machine identifier and the random
    salt it draws as arguments. *)
Definition encryptMasterKey (machineId salt key : list Z) : list Z :=
  (salt ++ xor_from (combinedKey machineId salt) 0 key)%list.

(** [decryptMasterKey(encryptedData)] *)
Definition decryptMasterKey (machineId encryptedData : list Z) : list Z :=
  let salt := firstn saltLength encryptedData in
  let encrypted := skipn saltLength encryptedData in
  xor_from (combinedKey machineId salt) 0 encrypted.

(** [loadOrCreateMasterKey()]: [machineId] is [getMachineId()], [freshKey]
    and [salt] are what [crypto.randomBytes] returns when it is called. *)
Definition loadOrCreateMasterKey (machineId freshKey salt : list Z) : M unit :=
  file <- gets keyFile ;;
  match file with
  | Some keyData => modify (set_masterKey (Some (decryptMasterKey machineId keyData)))
  | None =>
      modify (set_masterKey (Some freshKey)) ;;;
      modify (set_keyFile (Some (encryptMasterKey machineId salt freshKey)))
  end.

(** *** Validation *)

Record rules : Type := mkRules {
  required : list string;
  optional : list string
}.

Definition validationRules : object rules :=
  [ ("stripe", mkRules ["api_key"] ["webhook_secret"; "environment"]);
    ("openai", mkRules ["api_key"] ["organization"; "model_preference"]);
    ("github", mkRules ["token"] ["username"; "email"]);
    ("aws", mkRules ["access_key_id"; "secret_access_key"]
                    ["region"; "role_arn"; "session_token"]);
    ("vercel", mkRules ["token"] ["team_id"; "project_id"]);
    ("netlify", mkRules ["token"] ["site_id"]);
    ("digitalocean", mkRules ["token"] ["spaces_key"; "spaces_secret"]) ].

Definition sensitiveFields : object (list string) :=
  [ ("stripe", ["api_key"; "webhook_secret"]);
    ("openai", ["api_key"]);
    ("github", ["token"]);
    ("aws", ["secret_access_key"; "session_token"]);
    ("vercel", ["token"]);
    ("netlify", ["token"]);
    ("digitalocean", ["token"; "spaces_secret"]) ].

Definition missing_field (field service : string) : string :=
  "Missing required field '" ++ field ++ "' for " ++ service.

Fixpoint check_required (service : string) (fields : list string)
    (credentials : record) : result unit :=
  match fields with
  | [] => Ok tt
  | field :: rest =>
      if truthy (obj_get field credentials)
      then check_required service rest credentials
      else Err (missing_field field service)
  end.

Definition allowed (r : rules) : list string := (required r ++ optional r)%list.

Definition unknown_fields (r : rules) (credentials : record) : list string :=
  filter (fun field => negb (existsb (String.eqb field) (allowed r))) (keys credentials).

(** [validateCredentials(service, credentials)]: the lines it prints with
    [console.warn], and whether it returns or throws.  A service name that
    an object literal inherits finds a member without a [required] list,
    and iterating over it throws. *)
Definition validateCredentials (service : string) (credentials : record)
  : list string * result unit :=
  match table_get service validationRules with
  | Undefined => (["No validation rules defined for service: " ++ service], Ok tt)
  | Inherited => ([], Err "rules.required is not iterable")
  | Own r =>
      match check_required service (required r) credentials with
      | Err m => ([], Err m)
      | Ok _ =>
          (map (fun field => "Unknown field '" ++ field ++ "' for service " ++ service)
               (unknown_fields r credentials), Ok tt)
      end
  end.

(** *** Sealing and opening the sensitive fields *)

Definition marker (field : string) : string := field ++ "_encrypted".

Fixpoint seal_fields (key : option (list Z)) (sensitive : list string)
    (res : record) : result record :=
  match sensitive with
  | [] => Ok res
  | field :: rest =>
      match obj_get field res with
      | Some v =>
          if truthy (Some v) then
            match encrypt key v with
            | Ok buf =>
                seal_fields key rest
                  (obj_set (marker field) (VBool true)
                     (obj_set field (VStr (Buffer_toString_base64 buf)) res))
            | Err m => Err m
            end
          else seal_fields key rest res
      | None => seal_fields key rest res
      end
  end.

(** [encryptSensitiveFields(service, credentials)]; [res] starts as the
    copy [{ ...credentials }]. *)
Definition encryptSensitiveFields (key : option (list Z)) (service : string)
    (credentials : record) : result record :=
  match table_get service sensitiveFields with
  | Own sensitive => seal_fields key sensitive credentials
  | Undefined => seal_fields key [] credentials
  | Inherited => Err "sensitive is not iterable"
  end.

(** One turn of the loop of [decryptSensitiveFields] on the entry
    [(field, v)].  The read [result[actualField]] that finds nothing, or a
    falsy value, skips the decryption; a boolean [true] or an inherited
    member makes [Buffer.from] throw inside the [try], which only warns.
    In each of these cases [result] keeps its fields and loses the marker. *)
Definition open_entry (key : option (list Z)) (res : record)
    (entry : string * value) : record :=
  let (field, v) := entry in
  if endsWith "_encrypted" field && value_eqb v (VBool true) then
    let actualField := replace "_encrypted" "" field in
    let res' :=
      match obj_get actualField res with
      | Some (VStr s) =>
          if truthy (Some (VStr s)) then
            match decrypt key (Buffer_from_base64 s) with
            | Ok plain => obj_set actualField (VStr plain) res
            | Err _ => res
            end
          else res
      | Some (VBool _) => res
      | None => res
      end in
    obj_delete field res'
  else res.

(** [{ ...credentials }]: spreading [undefined] gives the empty object. *)
Definition spread (credentials : option record) : record :=
  match credentials with
  | Some r => r
  | None => []
  end.

(** [decryptSensitiveFields(service, credentials)]: the loop runs over the
    entries [Object.entries] listed before the first turn. *)
Definition decryptSensitiveFields (key : option (list Z)) (service : string)
    (credentials : option record) : record :=
  let res := spread credentials in
  fold_left (open_entry key) res res.

(** *** Persistence *)

(** The object [saveCredentials] fills from the cache, one assignment
    [credentials[service] = creds] per entry. *)
Definition credentials_object (c : object (option record)) : object (option record) :=
  fold_left (fun o e => obj_assign (fst e) (snd e) o) c [].

(** [saveCredentials()]; [fs.writeFile] and [fs.chmod] are taken to
    succeed. *)
Definition saveCredentials : M unit :=
  try_catch
    (c <- gets cache ;;
     let jsonData := JSON_stringify (credentials_object c) in
     key <- gets masterKey ;;
     encryptedData <- lift (encrypt key (VStr jsonData)) ;;
     modify (set_credentialsFile (Some encryptedData)))
    (fun m => throw ("Failed to save credentials: " ++ m)).

(** *** The public operations *)

(** [setCredentials(service, credentials)] *)
Definition setCredentials (service : string) (credentials : record) : M unit :=
  try_catch
    ((if String.eqb service ""
      then throw "Service name must be a non-empty string"
      else ret tt) ;;;
     lift (snd (validateCredentials service credentials)) ;;;
     key <- gets masterKey ;;
     encryptedCredentials <- lift (encryptSensitiveFields key service credentials) ;;
     modify (fun st => set_cache (obj_set service (Some encryptedCredentials) (cache st)) st) ;;;
     saveCredentials)
    (fun m => throw ("Failed to set credentials for " ++ service ++ ": " ++ m)).

(** [getCredentials(service)] *)
Definition getCredentials (service : string) : M record :=
  try_catch
    (c <- gets cache ;;
     (if negb (obj_has service c)
      then throw ("No credentials found for service: " ++ service)
      else ret tt) ;;;
     let encryptedCredentials := cache_get service c in
     key <- gets masterKey ;;
     ret (decryptSensitiveFields key service encryptedCredentials))
    (fun m => throw ("Failed to get credentials for " ++ service ++ ": " ++ m)).

(** [removeCredentials(service)] *)
Definition removeCredentials (service : string) : M unit :=
  try_catch
    (c <- gets cache ;;
     if obj_has service c
     then modify (set_cache (obj_delete service c)) ;;; saveCredentials
     else ret tt)
    (fun m => throw ("Failed to remove credentials for " ++ service ++ ": " ++ m)).

(** [Array.prototype.sort()] on strings, as an insertion sort in the order
    of their code units. *)
Fixpoint insert_sorted (k : string) (l : list string) : list string :=
  match l with
  | [] => [k]
  | k' :: l' => if code_units_leb k k' then k :: l else k' :: insert_sorted k l'
  end.

Definition sort (l : list string) : list string :=
  fold_right insert_sorted [] l.

(** [listServices()] *)
Definition listServices (st : state) : list string := sort (keys (cache st)).

Definition backupKey (service : string) (now : Z) : string :=
  service ++ "_backup_" ++ string_of_Z now.

(** [rotateCredentials(service, newCredentials)], at the time [now] that
    [Date.now()] returns. *)
Definition rotateCredentials (now : Z) (service : string) (newCredentials : record) : M unit :=
  try_catch
    (oldCredentials <- gets (fun st => cache_get service (cache st)) ;;
     modify (fun st => set_cache (obj_set (backupKey service now) oldCredentials (cache st)) st) ;;;
     setCredentials service newCredentials)
    (fun m => throw ("Failed to rotate credentials for " ++ service ++ ": " ++ m)).

Definition retention : Z := 30 * 24 * 60 * 60 * 1000.

(** The test of the loop of [cleanup] on one key; a comparison with [NaN]
    is false. *)
Definition expired (cutoffTime : Z) (key : string) : bool :=
  if includes "_backup_" key then
    match parseInt (split_at_1 "_backup_" key) with
    | Some timestamp => timestamp <? cutoffTime
    | None => false
    end
  else false.

(** [cleanup()], at the time [now]; the [catch] prints and returns. *)
Definition cleanup (now : Z) : M unit :=
  try_catch
    (modify (set_cache []) ;;;
     modify (set_masterKey None) ;;;
     let cutoffTime := now - retention in
     modify (fun st => set_cache (filter (fun e => negb (expired cutoffTime (fst e))) (cache st)) st) ;;;
     saveCredentials)
    (fun _ => ret tt).

End Vault.

(** ** Reading through references

    The cache binds a service to a reference to a record object, and
    [getCredentials] hands that reference to [decryptSensitiveFields], which
    writes into an object.  This module keeps the objects in a store, so
    that it shows which object the writes reach: the one allocated by
    [{ ...credentials }]. *)

Module Heap.

Import JS Vault.

Definition ref : Type := nat.

Record refstate : Type := mkRefState {
  store : list record;
  refs : object (option ref);
  key : option (list Z)
}.

Definition deref (h : list record) (r : option ref) : option record :=
  match r with
  | Some a => nth_error h a
  | None => None
  end.

(** A new object goes to the next free address. *)
Definition alloc (o : record) (h : list record) : list record * ref :=
  ((h ++ [o])%list, List.length h).

(** A write to the object at address [a]. *)
Fixpoint update (a : ref) (f : record -> record) (h : list record) : list record :=
  match h, a with
  | [], _ => []
  | o :: h', O => f o :: h'
  | o :: h', S a' => o :: update a' f h'
  end.

(** One turn of the loop: its reads and writes go to the object at [a]. *)
Definition turn (k : option (list Z)) (a : ref) (h : list record)
    (entry : string * value) : list record :=
  update a (fun o => open_entry k o entry) h.

(** [decryptSensitiveFields(service, credentials)] on references: the
    spread allocates [result], every turn of the loop reads and writes
    [result], and [result] is returned. *)
Definition decryptSensitiveFields_at (k : option (list Z)) (service : string)
    (credentials : option ref) (h : list record) : list record * ref :=
  let (h1, result) := alloc (spread (deref h credentials)) h in
  let entries := spread (nth_error h1 result) in
  (fold_left (turn k result) entries h1, result).

(** [this.cache.get(service)] *)
Definition refs_get (service : string) (c : object (option ref)) : option ref :=
  match obj_get service c with
  | Some r => r
  | None => None
  end.

(** [getCredentials(service)] *)
Definition getCredentials_at (service : string) (st : refstate) : result ref * refstate :=
  if negb (obj_has service (refs st))
  then (Err ("Failed to get credentials for " ++ service
             ++ ": No credentials found for service: " ++ service), st)
  else
    let encryptedCredentials := refs_get service (refs st) in
    let (h, result) :=
      decryptSensitiveFields_at (key st) service encryptedCredentials (store st) in
    (Ok result, mkRefState h (refs st) (key st)).

(** Every reference of the cache points into the store. *)
Definition wf (st : refstate) : Prop :=
  forall service a, In (service, Some a) (refs st) ->
    (a < List.length (store st))%nat.

(** The cache as the records it refers to. *)
Definition view (st : refstate) : object (option record) :=
  map (fun e => (fst e, deref (store st) (snd e))) (refs st).

End Heap.

(** ** Notions used in the statements *)

Module Notions.

Import JS Vault.

(** The markers [<field>_encrypted = true] of a list of fields. *)
Definition markers (F : list string) : record :=
  map (fun f => (marker f, VBool true)) F.

(** No name ends in [_encrypted]. *)
Definition clean (ks : list string) : Prop :=
  forall f, In f ks -> endsWith "_encrypted" f = false.

(** A list of sensitive fields as the table has them. *)
Definition fields_ok (fs : list string) : Prop :=
  NoDup fs /\ clean fs /\
  (forall f, In f fs -> replace "_encrypted" "" (marker f) = f).

(** The stored form of a sensitive value [p] under the key [k]. *)
Definition sealed_text (k : list Z) (p : string) : string :=
  Buffer_toString_base64 (xor_stream k (Buffer_from_utf8 p)).

Definition opened_text (k : list Z) (c : string) : string :=
  Buffer_toString_utf8 (xor_stream k (Buffer_from_base64 c)).

(** Every value of the record is a string. *)
Definition plain (r : record) : bool :=
  forallb (fun e => match snd e with VStr _ => true | VBool _ => false end) r.

Definition set_message (service m : string) : string :=
  "Failed to set credentials for " ++ service ++ ": " ++ m.

Definition rotate_message (service m : string) : string :=
  "Failed to rotate credentials for " ++ service ++ ": " ++ m.

(** The bytes [saveCredentials] writes for the cache [c] under the key [k]. *)
Definition saved_document (k : list Z) (c : object (option record)) : list Z :=
  xor_stream k (Buffer_from_utf8 (JSON_stringify (credentials_object c))).

(** The state of [rotateCredentials] after its snapshot. *)
Definition rotate_snapshot (now : Z) (service : string) (st : state) : state :=
  set_cache (obj_set (backupKey service now) (cache_get service (cache st)) (cache st)) st.

Definition b64_char_ok (m : nat) : bool :=
  match unbase64 (b64_char (Z.of_nat m)) with
  | Some v => (v =? Z.of_nat m) && negb (Ascii.eqb (b64_char (Z.of_nat m)) "=")
  | None => false
  end.

(** [needle] occurs in [hay] as a run of consecutive bytes. *)
Fixpoint starts_with (needle hay : list Z) : bool :=
  match needle, hay with
  | [], _ => true
  | _ :: _, [] => false
  | x :: needle', y :: hay' => (x =? y) && starts_with needle' hay'
  end.

Fixpoint occurs_in (needle hay : list Z) : bool :=
  starts_with needle hay ||
  match hay with
  | [] => false
  | _ :: hay' => occurs_in needle hay'
  end.

(** The cache after the loop of [cleanup], had it run on the cache [c]. *)
Definition pruned (cutoffTime : Z) (c : object (option record)) : object (option record) :=
  filter (fun e => negb (expired cutoffTime (fst e))) c.

(** No sensitive field of the service holds a boolean. *)
Definition secrets_are_text (service : string) (r : record) : Prop :=
  forall fs f b, table_get service sensitiveFields = Own fs -> In f fs ->
    obj_get f r <> Some (VBool b).

(** A Unicode scalar value: a code point that is no surrogate. *)
Definition scalar (c : Z) : Prop :=
  0 <= c < 1114112 /\ ~ (55296 <= c <= 57343).

(** Settles the comparisons of a goal that [lia] decides. *)
Ltac decide_bools :=
  repeat match goal with
         | |- context [?a <=? ?b] =>
             first [ replace (a <=? b) with true by (symmetry; apply Z.leb_le; lia)
                   | replace (a <=? b) with false by (symmetry; apply Z.leb_gt; lia) ]
         | |- context [?a <? ?b] =>
             first [ replace (a <? b) with true by (symmetry; apply Z.ltb_lt; lia)
                   | replace (a <? b) with false by (symmetry; apply Z.ltb_ge; lia) ]
         | |- context [?a =? ?b] =>
             first [ replace (a =? b) with true by (symmetry; apply Z.eqb_eq; lia)
                   | replace (a =? b) with false by (symmetry; apply Z.eqb_neq; lia) ]
         end.

(** Case analysis on membership in a list that is written out. *)
Ltac in_cases H :=
  simpl in H;
  repeat match type of H with
         | _ \/ _ => destruct H as [H|H]
         | False => destruct H
         end.

End Notions.

(** ** Concrete vaults *)

Module Examples.

Import JS Vault Notions.

Definition day : Z := 24 * 60 * 60 * 1000.

Definition now : Z := 1762128000000.

Definition key32 : list Z := map Z.of_nat (seq 1 32).

(** An initialized, empty vault. *)
Definition fresh : state := mkState [] (Some key32) None None.

Definition stripe_rules : rules := mkRules ["api_key"] ["webhook_secret"; "environment"].

Definition github_rules : rules := mkRules ["token"] ["username"; "email"].

Definition with_stripe : state :=
  snd (setCredentials "stripe" [("api_key", VStr "sk_x")] fresh).

Definition with_github : state :=
  snd (setCredentials "github" [("token", VStr "ghp_old")] fresh).

(** A vault with [github] and a backup of it made one day before [now]. *)
Definition rotated : state :=
  snd (rotateCredentials (now - day) "github" [("token", VStr "ghp_new")] with_github).

(** A vault with [github], a backup of it made 31 days before [now] and
    one made a day before [now], the three of them in the credentials
    file. *)
Definition aged : state :=
  snd (rotateCredentials (now - day) "github" [("token", VStr "ghp_new")]
         (snd (rotateCredentials (now - 31 * day) "github" [("token", VStr "ghp_mid")]
                 with_github))).

(** A record with a field that is named as a marker is. *)
Definition marked_record (field secret : string) : record :=
  [(field, VStr secret); ("note_encrypted", VBool true)].

(** The JavaScript record with the one field [field], a string. *)
Definition js_field (field : string) (p : list Z) : list (list Z * js_value) :=
  [(units field, JStr p)].

(** A master key under which the credentials file of the vault that holds
    [openai] with the key [sk-abc123] begins with that very text. *)
Definition leak_key : list Z :=
  ([8; 97; 13; 65; 64; 12; 65; 87; 93] ++ map Z.of_nat (seq 10 23))%list.

Definition leak_state : state := mkState [] (Some leak_key) None None.

(** Two fingerprints that differ in their last byte only, and one that
    differs from the first in its first byte. *)
Definition fp_a : list Z := repeat 0 32.
Definition fp_b : list Z := (repeat 0 31 ++ [1])%list.
Definition fp_c : list Z := (1 :: repeat 0 31)%list.

Definition wrapped_key : list Z := map Z.of_nat (seq 101 32).
Definition wrapped_salt : list Z := map Z.of_nat (seq 201 32).

Definition no_key_file : state := mkState [] None None None.

Definition created : state :=
  snd (loadOrCreateMasterKey fp_a wrapped_key wrapped_salt no_key_file).

(** A store with one sealed record, to which the cache refers. *)
Definition one_object : Heap.refstate :=
  Heap.mkRefState
    [[("token", VStr "ew=="); ("token_encrypted", VBool true)]]
    [("github", Some 0%nat)]
    (Some key32).

End Examples.

(** ** Loading, exporting and importing *)

Module Persistence.

Import JS Vault.

Section Runtime.

(** [JSON.parse] on the text of the credentials file and on the text of an
    export: the text is taken to describe an object of records, as the
    documents the vault writes do, and [JSON.parse] returns that object or
    throws.  For an export it returns the [services] member, [None] when
    the document has none.  The argument is the decrypted text as the
    model holds it, by its bytes; where these are not well-formed UTF-8
    the parameter stands for [JSON.parse] after the substitution that Node
    makes. *)
Variable parse_store : string -> result (object record).
Variable parse_export : string -> result (option (object record)).

(** [for (const [service, creds] of Object.entries(credentials))
    this.cache.set(service, creds)] *)
Definition load_entries (credentials : object record)
    (c : object (option record)) : object (option record) :=
  fold_left (fun c e => obj_set (fst e) (Some (snd e)) c) credentials c.

(** [loadCredentials()]; the [catch] warns and returns. *)
Definition loadCredentials : M unit :=
  try_catch
    (file <- gets credentialsFile ;;
     match file with
     | Some encryptedData =>
         key <- gets masterKey ;;
         decryptedData <- lift (decrypt key encryptedData) ;;
         credentials <- lift (parse_store decryptedData) ;;
         modify (fun st => set_cache (load_entries credentials (cache st)) st)
     | None => ret tt
     end)
    (fun _ => ret tt).

(** [initialize()] *)
Definition initialize (machineId freshKey salt : list Z) : M unit :=
  try_catch
    (loadOrCreateMasterKey machineId freshKey salt ;;; loadCredentials)
    (fun m => throw ("Failed to initialize credential manager: " ++ m)).

(** The state of a manager that [new CredentialManager()] has just built
    over the files of [st]. *)
Definition constructed (st : state) : state :=
  mkState [] None (credentialsFile st) (keyFile st).

(** The members of an object of records printed at depth [indent]. *)
Fixpoint json_members_at (indent : string) (o : object (option record)) : list string :=
  match o with
  | [] => []
  | (k, Some r) :: o' => json_member k (json_record indent r) :: json_members_at indent o'
  | (_, None) :: o' => json_members_at indent o'
  end.

(** [JSON.stringify({ exported_at, services }, null, 2)] *)
Definition JSON_stringify_export (exported_at : string)
    (services : object (option record)) : string :=
  json_object ""
    [ json_member "exported_at" (json_quote exported_at);
      json_member "services" (json_object "  " (json_members_at "    " services)) ].

(** The [services] object that [exportCredentials] fills. *)
Definition export_services (servicesToExport : list string)
    (c : object (option record)) : object (option record) :=
  fold_left
    (fun o service =>
       if obj_has service c then obj_assign service (cache_get service c) o else o)
    servicesToExport [].

(** [exportCredentials(outputPath, services)]: the bytes it writes to
    [outputPath].  [exported_at] is [new Date().toISOString()]; [services]
    is [None] for [null], and any array, the empty one too, is truthy. *)
Definition exportCredentials (exported_at : string) (services : option (list string))
  : M (list Z) :=
  try_catch
    (c <- gets cache ;;
     let servicesToExport := match services with Some l => l | None => keys c end in
     let text := JSON_stringify_export exported_at (export_services servicesToExport c) in
     key <- gets masterKey ;;
     encryptedExport <- lift (encrypt key (VStr text)) ;;
     ret encryptedExport)
    (fun m => throw ("Failed to export credentials: " ++ m)).

(** One turn of the loop of [importCredentials]. *)
Definition import_entry (overwrite : bool) (acc : object (option record) * nat)
    (e : string * record) : object (option record) * nat :=
  let (c, importedCount) := acc in
  if negb overwrite && obj_has (fst e) c then acc
  else (obj_set (fst e) (Some (snd e)) c, S importedCount).

(** [importCredentials(importPath, overwrite)]; [read] is what
    [fs.readFile(importPath)] returns or throws. *)
Definition importCredentials (read : result (list Z)) (overwrite : bool) : M unit :=
  try_catch
    (encryptedData <- lift read ;;
     key <- gets masterKey ;;
     decryptedData <- lift (decrypt key encryptedData) ;;
     importData <- lift (parse_export decryptedData) ;;
     match importData with
     | None => throw "Cannot convert undefined or null to object"
     | Some services =>
         c <- gets cache ;;
         let (c', importedCount) := fold_left (import_entry overwrite) services (c, O) in
         modify (set_cache c') ;;;
         if (0 <? importedCount)%nat then saveCredentials else ret tt
     end)
    (fun m => throw ("Failed to import credentials: " ++ m)).

End Runtime.

End Persistence.

(** ** Testing a connection *)

Module Connection.

Import JS Vault.

(** What a connection test sends. *)
Record request : Type := mkRequest {
  hostname : string;
  path : string;
  authorization : string
}.

(** [`${v}`] for the value of a field read. *)
Definition template (v : option value) : string :=
  match v with
  | Some (VStr s) => s
  | Some (VBool true) => "true"
  | Some (VBool false) => "false"
  | None => "undefined"
  end.

Section Network.

(** The answer to a request: [Some b] for a response, [b] telling whether
    its status is 200; [None] for an error or a timeout, where the promise
    is rejected with [false], whose [message] is [undefined]. *)
Variable https_request : request -> option bool.

Definition send (req : request) : M bool :=
  match https_request req with
  | Some b => ret b
  | None => throw "undefined"
  end.

Definition testStripeConnection (credentials : record) : M bool :=
  send (mkRequest "api.stripe.com" "/v1/account"
          ("Bearer " ++ template (obj_get "api_key" credentials))).

Definition testOpenAIConnection (credentials : record) : M bool :=
  send (mkRequest "api.openai.com" "/v1/models"
          ("Bearer " ++ template (obj_get "api_key" credentials))).

Definition testGitHubConnection (credentials : record) : M bool :=
  send (mkRequest "api.github.com" "/user"
          ("Bearer " ++ template (obj_get "token" credentials))).

(** [testConnection(service)]: the [try] returns the promise of the
    request without awaiting it, so that a rejection passes the [catch]
    by and reaches the caller as it is. *)
Definition testConnection (service : string) : M bool :=
  promise <-
    try_catch
      (credentials <- getCredentials service ;;
       if String.eqb service "stripe" then ret (testStripeConnection credentials)
       else if String.eqb service "openai" then ret (testOpenAIConnection credentials)
       else if String.eqb service "github" then ret (testGitHubConnection credentials)
       else throw ("Connection test not implemented for service: " ++ service))
      (fun m => throw ("Connection test failed for " ++ service ++ ": " ++ m)) ;;
  promise.

End Network.

End Connection.

(** ** The configuration command of the client

    [configureCredentials] of the command-line client of the service, which
    owns a [CredentialManager].  The options of the command, the
    environment and the answers to the prompts are inputs. *)

Module Client.

Import JS Vault Connection.

(** One field of a list of [serviceConfigs]; [message], [type] and [choices]
    are read by the prompts only. *)
Record field : Type := mkField {
  name : string;
  optional : bool;
  default : option string
}.

Definition serviceConfigs : object (list field) :=
  [ ("stripe", [ mkField "api_key" false None;
                 mkField "webhook_secret" true None;
                 mkField "environment" false (Some "test") ]);
    ("openai", [ mkField "api_key" false None;
                 mkField "organization" true None;
                 mkField "model_preference" false (Some "gpt-4") ]);
    ("github", [ mkField "token" false None;
                 mkField "username" true None ]);
    ("aws", [ mkField "access_key_id" false None;
              mkField "secret_access_key" false None;
              mkField "region" false (Some "us-east-1");
              mkField "role_arn" true None ]);
    ("vercel", [ mkField "token" false None;
                 mkField "team_id" true None ]);
    ("netlify", [ mkField "token" false None;
                  mkField "site_id" true None ]) ].

(** [toUpperCase()] on text of ASCII characters, which the service and
    field names of [serviceConfigs] are. *)
Definition upper (c : ascii) : ascii :=
  let n := nat_of_ascii c in
  if ((97 <=? n) && (n <=? 122))%nat then ascii_of_nat (n - 32) else c.

Fixpoint toUpperCase (s : string) : string :=
  match s with
  | EmptyString => EmptyString
  | String c s' => String (upper c) (toUpperCase s')
  end.

Definition envVar (service fieldName : string) : string :=
  "MAK3R_" ++ toUpperCase service ++ "_" ++ toUpperCase fieldName.

(** The options of the [config] command: [interactive] is
    [options.interactive !== false], [test] is [options.test !== false],
    [option_of n] is [options[n]] for a field name [n], a string or
    [undefined]. *)
Record options : Type := mkOptions {
  interactive : bool;
  test : bool;
  option_of : string -> option string
}.

(** Truthiness of a string or [undefined]. *)
Definition nonempty (v : option string) : bool :=
  match v with
  | Some s => negb (String.eqb s "")
  | None => false
  end.

(** [a || b] *)
Definition or_else (a b : option string) : option string :=
  if nonempty a then a else b.

(** [Object.fromEntries]: every entry becomes an own property. *)
Definition obj_define {A} (k : string) (v : A) (o : object A) : object A :=
  match array_index k with
  | Some n => insert_index n k v o
  | None => obj_set k v o
  end.

(** [Object.fromEntries(Object.entries(credentials).filter(...))]: a value
    of a record is never [undefined]. *)
Definition drop_empty (credentials : record) : record :=
  fold_left (fun o e => obj_define (fst e) (snd e) o)
    (filter (fun e => negb (value_eqb (snd e) (VStr ""))) credentials) [].

Definition configure_message (service m : string) : string :=
  "Failed to configure " ++ service ++ ": " ++ m.

Section Environment.

Variable https_request : request -> option bool.

(** [process.env] *)
Variable env : string -> option string.

(** What [inquirer.prompt] returns or throws. *)
Variable answers : result record.

(** The value the loop finds for a field. *)
Definition value_of (service : string) (opts : options) (f : field) : option string :=
  or_else (option_of opts (name f)) (env (envVar service (name f))).

(** The loop of the non-interactive branch. *)
Fixpoint collect (service : string) (opts : options) (config : list field)
    (credentials : record) : result record :=
  match config with
  | [] => Ok credentials
  | f :: rest =>
      let value := value_of service opts f in
      match value with
      | Some s =>
          if nonempty value
          then collect service opts rest (obj_assign (name f) (VStr s) credentials)
          else if optional f then collect service opts rest credentials
          else Err ("Missing required field: " ++ name f)
      | None =>
          if optional f then collect service opts rest credentials
          else Err ("Missing required field: " ++ name f)
      end
  end.

(** [configureCredentials(service, options)].  [Err m] stands for the line
    [Failed to configure <service>: ...] on the error stream followed by
    [process.exit(1)].  A service name that the object literal inherits
    finds a member that is neither an array nor iterable. *)
Definition configureCredentials (service : string) (opts : options) : M unit :=
  try_catch
    (config <- match table_get service serviceConfigs with
               | Own config => ret (Some config)
               | Inherited => ret None
               | Undefined => throw ("Unsupported service: " ++ service)
               end ;;
     credentials <-
       (if interactive opts then
          match config with
          | Some _ => lift answers
          | None => throw "config.map is not a function"
          end
        else
          match config with
          | Some config => lift (collect service opts config [])
          | None => throw "config is not iterable"
          end) ;;
     let credentials := drop_empty credentials in
     setCredentials service credentials ;;;
     (if test opts
      then try_catch (testConnection https_request service ;;; ret tt) (fun _ => ret tt)
      else ret tt))
    (fun m => throw (configure_message service m)).

(** The record the non-interactive branch builds when no field is missing. *)
Definition collected (service : string) (opts : options) (config : list field) : record :=
  flat_map (fun f => match value_of service opts f with
                     | Some s => if nonempty (Some s) then [(name f, VStr s)] else []
                     | None => []
                     end) config.

Definition supplied (service : string) (opts : options) (f : field) : bool :=
  nonempty (value_of service opts f).

(** A field that stops the loop. *)
Definition lacking (service : string) (opts : options) (f : field) : bool :=
  negb (optional f) && negb (supplied service opts f).

End Environment.

Definition names (config : list field) : list string := map name config.

Definition needed (config : list field) : list string :=
  names (filter (fun f => negb (optional f)) config).

End Client.

(** ** Notions used in the further properties *)

Module Predicates.

Import JS Vault Persistence Client.

(** An entry that [decryptSensitiveFields] takes for a marker. *)
Definition marked (e : string * value) : bool :=
  endsWith "_encrypted" (fst e) && value_eqb (snd e) (VBool true).

(** No marker is left in [res] but those still to be visited. *)
Definition no_marker_but (res : record) (remaining : list (string * value)) : Prop :=
  NoDup (keys res)
  /\ forall f, endsWith "_encrypted" f = true ->
       obj_get f res = Some (VBool true) -> In (f, VBool true) remaining.

(** The order of [Array.prototype.sort()] on strings without a comparator. *)
Definition ordered (a b : string) : Prop := code_units_leb a b = true.

(** The number a decimal denotes after the digits read so far. *)
Fixpoint uint_value (d : Decimal.uint) (acc : Z) : Z :=
  match d with
  | Decimal.Nil => acc
  | Decimal.D0 l => uint_value l (10 * acc)
  | Decimal.D1 l => uint_value l (10 * acc + 1)
  | Decimal.D2 l => uint_value l (10 * acc + 2)
  | Decimal.D3 l => uint_value l (10 * acc + 3)
  | Decimal.D4 l => uint_value l (10 * acc + 4)
  | Decimal.D5 l => uint_value l (10 * acc + 5)
  | Decimal.D6 l => uint_value l (10 * acc + 6)
  | Decimal.D7 l => uint_value l (10 * acc + 7)
  | Decimal.D8 l => uint_value l (10 * acc + 8)
  | Decimal.D9 l => uint_value l (10 * acc + 9)
  end.

(** An integer that a number holds exactly. *)
Definition safe_integer (z : Z) : Prop := Z.abs z <= 9007199254740991.

(** No underscore occurs in [s]. *)
Fixpoint underscore_free (s : string) : bool :=
  match s with
  | EmptyString => true
  | String c s' => negb (Ascii.eqb c "_") && underscore_free s'
  end.

(** A key that an object filled by assignment keeps in creation order:
    neither an array index nor [__proto__]. *)
Definition storable_key (k : string) : bool :=
  negb (String.eqb k "__proto__") && match array_index k with Some _ => false | None => true end.

(** The records a document describes: [JSON.stringify] omits the entries
    whose value is [undefined]. *)
Fixpoint records_of (c : object (option record)) : object record :=
  match c with
  | [] => []
  | (k, Some r) :: c' => (k, r) :: records_of c'
  | (_, None) :: c' => records_of c'
  end.

(** Every entry is bound to a record. *)
Definition all_defined (c : object (option record)) : bool :=
  forallb (fun e => match snd e with Some _ => true | None => false end) c.

(** A cache that survives a save and a load unchanged. *)
Definition persistable (c : object (option record)) : Prop :=
  NoDup (keys c) /\ forallb storable_key (keys c) = true /\ all_defined c = true.

(** The text of the credentials file before it is encrypted. *)
Definition document_text (c : object (option record)) : string :=
  JSON_stringify (credentials_object c).

(** The text [exportCredentials] encrypts. *)
Definition export_text (exported_at : string) (services : option (list string))
    (c : object (option record)) : string :=
  JSON_stringify_export exported_at
    (export_services (match services with Some l => l | None => keys c end) c).

(** The message of a failed import. *)
Definition import_message (m : string) : string := "Failed to import credentials: " ++ m.

(** The cache and the count after the loop of [importCredentials]. *)
Definition merged (overwrite : bool) (services : object record) (c : object (option record)) :=
  fold_left (import_entry overwrite) services (c, O).

(** What the two tables of a service have in common. *)
Definition config_ok (service : string) (config : list field) : Prop :=
  exists rs, table_get service validationRules = Own rs
    /\ incl (required rs) (needed config)
    /\ incl (names config) (allowed rs)
    /\ NoDup (names config)
    /\ forallb storable_key (names config) = true.

End Predicates.

(** ** Further concrete values *)

Module Samples.

Import JS Vault Persistence Connection Client Notions Examples Predicates.

(** The stored form of the record of [with_stripe]. *)
Definition sealed_stripe : record :=
  [("api_key", VStr (sealed_text key32 "sk_x")); ("api_key_encrypted", VBool true)].

(** A vault whose key file was cut to three bytes. *)
Definition truncated : state := mkState [] None None (Some [1; 2; 3]).

(** A record of a service without rules, stored as given. *)
Definition custom : state :=
  mkState [("custom", Some [("url", VStr "https://example.org")])] (Some key32) None None.

Definition rotated_once : state :=
  snd (rotateCredentials now "github" [("token", VStr "ghp_1")] with_github).

Definition rotated_twice : state :=
  snd (rotateCredentials now "github" [("token", VStr "ghp_2")] rotated_once).

(** The vault [with_stripe] with its two files on disk. *)
Definition kept : state :=
  mkState (cache with_stripe) (Some key32)
    (Some (saved_document key32 (cache with_stripe)))
    (Some (encryptMasterKey fp_a wrapped_salt key32)).

(** A parser that knows the document of [kept]. *)
Definition parse_kept (text : string) : result (object record) :=
  if String.eqb text (JSON_stringify (credentials_object (cache kept)))
  then Ok (records_of (cache kept))
  else Err "Unexpected token in JSON".

Definition stamp : string := "2025-11-03T00:00:00.000Z".

(** The export of [with_github], and a parser that knows its text. *)
Definition exported_github : list Z :=
  xor_stream key32 (Buffer_from_utf8 (export_text stamp None (cache with_github))).

Definition parse_exported (text : string) : result (option (object record)) :=
  if String.eqb text (export_text stamp None (cache with_github))
  then Ok (Some (records_of (cache with_github)))
  else Err "Unexpected token in JSON".

Definition sealed_github : record :=
  [("token", VStr (sealed_text key32 "ghp_old")); ("token_encrypted", VBool true)].

(** No network, no environment variable, no prompt. *)
Definition offline (req : request) : option bool := None.
Definition no_env (n : string) : option string := None.
Definition no_answers : result record := Err "prompt closed".

Definition stripe_env (n : string) : option string :=
  if String.eqb n "MAK3R_STRIPE_API_KEY" then Some "sk_x" else None.

Definition token_option : options :=
  mkOptions false false (fun n => if String.eqb n "token" then Some "ghp_x" else None).

Definition no_option : options := mkOptions false true (fun _ => None).

Definition prompted : options := mkOptions true true (fun _ => None).

Definition github_config : list field :=
  [mkField "token" false None; mkField "username" true None].

Definition stripe_config : list field :=
  [mkField "api_key" false None; mkField "webhook_secret" true None;
   mkField "environment" false (Some "test")].

End Samples.

(** * Properties *)

(** ** JavaScript strings and their bytes *)

Module TextFacts.

Import JS Vault Notions.

(** The codec on a few strings: U+1F600 takes four bytes and comes back as
    its surrogate pair; a surrogate alone is written as U+FFFD; an overlong
    form gives U+FFFD for each of its bytes, a character cut short one
    U+FFFD, and an encoded surrogate one for each of its three bytes. *)
Lemma utf8_examples :
  utf8_encode [55357; 56832] = [240; 159; 152; 128]
  /\ utf8_decode [240; 159; 152; 128] = [55357; 56832]
  /\ utf8_encode [56832; 97] = [239; 191; 189; 97]
  /\ utf8_decode [192; 128] = [65533; 65533]
  /\ utf8_decode [226; 130] = [65533]
  /\ utf8_decode [226; 130; 97] = [65533; 97]
  /\ utf8_decode [237; 160; 128] = [65533; 65533; 65533].
Proof. vm_compute. repeat split; reflexivity. Qed.

(** The bytes of a scalar value are decoded to its code units. *)
Lemma decode_code_point c rest :
  scalar c ->
  utf8_decode_from decoder_start (utf8_of_code_point c ++ rest)
  = (units_of_code_point c ++ utf8_decode_from decoder_start rest)%list.
Proof.
  intros [R S]. unfold utf8_of_code_point.
  destruct (Z.ltb_spec c 128) as [H1|H1].
  - cbn [app utf8_decode_from decoder_start pending]. unfold lead_out, lead_state, units_of_code_point.
    decide_bools. cbn [andb app]. reflexivity.
  - destruct (Z.ltb_spec c 2048) as [H2|H2].
    + assert (2 <= c / 64 < 32) by (Z.div_mod_to_equations; lia).
      assert (0 <= c mod 64 < 64) by (apply Z.mod_pos_bound; lia).
      cbn [app utf8_decode_from decoder_start pending]. unfold lead_out, lead_state.
      decide_bools. cbn [andb app pending least most bits].
      decide_bools. cbn [andb]. cbv zeta. unfold units_of_code_point.
      replace ((192 + c / 64 - 192) * 64 + (128 + c mod 64 - 128)) with c
        by (pose proof (Z.div_mod c 64); lia).
      decide_bools. reflexivity.
    + destruct (Z.ltb_spec c 65536) as [H3|H3].
      * assert (0 <= c / 4096 < 16) by (Z.div_mod_to_equations; lia).
        assert (0 <= (c / 64) mod 64 < 64) by (apply Z.mod_pos_bound; lia).
        assert (0 <= c mod 64 < 64) by (apply Z.mod_pos_bound; lia).
        assert (E : c = c / 4096 * 4096 + (c / 64) mod 64 * 64 + c mod 64).
        { pose proof (Z.div_mod c 64). pose proof (Z.div_mod (c / 64) 64).
          replace (c / 4096) with (c / 64 / 64) by (rewrite Z.div_div by lia; reflexivity). lia. }
        cbn [app utf8_decode_from decoder_start pending]. unfold lead_out, lead_state.
        decide_bools. cbn [andb app pending least most bits].
        destruct (Z.eqb_spec (224 + c / 4096) 224) as [E0|E0];
          destruct (Z.eqb_spec (224 + c / 4096) 237) as [E1|E1]; try lia;
          decide_bools; cbn [andb pending least most bits]; cbv zeta;
          decide_bools; cbn [andb]; unfold units_of_code_point;
          replace ((((224 + c / 4096 - 224) * 64 + (128 + (c / 64) mod 64 - 128)) * 64
                    + (128 + c mod 64 - 128))) with c by lia;
          decide_bools; reflexivity.
      * assert (0 <= c / 262144 <= 4) by (Z.div_mod_to_equations; lia).
        assert (0 <= (c / 4096) mod 64 < 64) by (apply Z.mod_pos_bound; lia).
        assert (0 <= (c / 64) mod 64 < 64) by (apply Z.mod_pos_bound; lia).
        assert (0 <= c mod 64 < 64) by (apply Z.mod_pos_bound; lia).
        assert (E : c = c / 262144 * 262144 + (c / 4096) mod 64 * 4096
                        + (c / 64) mod 64 * 64 + c mod 64).
        { pose proof (Z.div_mod c 64). pose proof (Z.div_mod (c / 64) 64).
          pose proof (Z.div_mod (c / 4096) 64).
          replace (c / 262144) with (c / 4096 / 64) by (rewrite Z.div_div by lia; reflexivity).
          replace (c / 4096) with (c / 64 / 64) in * by (rewrite Z.div_div by lia; reflexivity).
          lia. }
        cbn [app utf8_decode_from decoder_start pending]. unfold lead_out, lead_state.
        decide_bools. cbn [andb app pending least most bits].
        destruct (Z.eqb_spec (240 + c / 262144) 240) as [E0|E0];
          destruct (Z.eqb_spec (240 + c / 262144) 244) as [E1|E1]; try lia;
          decide_bools; cbn [andb pending least most bits]; cbv zeta;
          decide_bools; cbn [andb pending least most bits]; cbv zeta;
          decide_bools; cbn [andb]; unfold units_of_code_point;
          replace (((((240 + c / 262144 - 240) * 64 + (128 + (c / 4096) mod 64 - 128)) * 64
                     + (128 + (c / 64) mod 64 - 128)) * 64 + (128 + c mod 64 - 128)))
            with c by lia;
          decide_bools; reflexivity.
Qed.

Lemma high_range u : is_high u = true <-> 55296 <= u <= 56319.
Proof. unfold is_high. rewrite andb_true_iff, !Z.leb_le. tauto. Qed.

Lemma low_range u : is_low u = true <-> 56320 <= u <= 57343.
Proof. unfold is_low. rewrite andb_true_iff, !Z.leb_le. tauto. Qed.

Lemma units_of_pair h l :
  is_high h = true -> is_low l = true ->
  scalar (code_point h l) /\ units_of_code_point (code_point h l) = [h; l].
Proof.
  intros Hh Hl. apply high_range in Hh. apply low_range in Hl.
  unfold scalar, units_of_code_point, code_point. split; [lia|].
  decide_bools.
  replace (65536 + (h - 55296) * 1024 + (l - 56320) - 65536)
    with ((h - 55296) * 1024 + (l - 56320)) by lia.
  assert (D : ((h - 55296) * 1024 + (l - 56320)) / 1024 = h - 55296)
    by (Z.div_mod_to_equations; lia).
  assert (M : ((h - 55296) * 1024 + (l - 56320)) mod 1024 = l - 56320)
    by (Z.div_mod_to_equations; lia).
  rewrite D, M. f_equal; [lia|f_equal; lia].
Qed.

Lemma units_of_unit u :
  0 <= u < 65536 -> is_high u = false -> is_low u = false ->
  scalar u /\ units_of_code_point u = [u].
Proof.
  intros R Hh Hl. unfold scalar, units_of_code_point. decide_bools. split; [|reflexivity].
  split; [lia|]. intros S.
  destruct (Z.le_gt_cases u 56319).
  - assert (is_high u = true) by (apply high_range; lia). congruence.
  - assert (is_low u = true) by (apply low_range; lia). congruence.
Qed.

Lemma utf8_round_trip_upto : forall (n : nat) (p : list Z),
  (List.length p <= n)%nat -> well_formed p = true -> utf8_decode (utf8_encode p) = p.
Proof.
  unfold utf8_decode.
  induction n as [|n IH]; intros p Hn Hw.
  - destruct p; [reflexivity|simpl in Hn; lia].
  - destruct p as [|u p']; [reflexivity|]. cbn [well_formed utf8_encode] in *.
    destruct (is_high u) eqn:Hh.
    + destruct p' as [|l p'']; [discriminate|].
      apply andb_true_iff in Hw. destruct Hw as [Hl Hw]. rewrite Hl.
      destruct (units_of_pair u l Hh Hl) as [S E].
      rewrite decode_code_point, E by assumption. cbn [app]. do 2 f_equal.
      apply IH; [simpl in Hn; lia|assumption].
    + apply andb_true_iff in Hw. destruct Hw as [Hw Hw'].
      apply andb_true_iff in Hw. destruct Hw as [Hw Hl].
      apply andb_true_iff in Hw. destruct Hw as [H0 H1].
      apply negb_true_iff in Hl. rewrite Hl.
      apply Z.leb_le in H0. apply Z.ltb_lt in H1.
      destruct (units_of_unit u (conj H0 H1) Hh Hl) as [S E].
      rewrite decode_code_point, E by assumption. cbn [app]. f_equal.
      apply IH; [simpl in Hn; lia|assumption].
Qed.

Lemma utf8_round_trip (p : list Z) :
  well_formed p = true -> utf8_decode (utf8_encode p) = p.
Proof. apply (utf8_round_trip_upto (List.length p)). lia. Qed.

Lemma utf8_of_code_point_bytes c :
  0 <= c < 1114112 -> Forall is_byte (utf8_of_code_point c).
Proof.
  intros R. unfold utf8_of_code_point, is_byte.
  destruct (Z.ltb_spec c 128); [|destruct (Z.ltb_spec c 2048); [|destruct (Z.ltb_spec c 65536)]];
    repeat constructor; Z.div_mod_to_equations; lia.
Qed.

Lemma utf8_encode_bytes_upto : forall (n : nat) (p : list Z),
  (List.length p <= n)%nat -> well_formed p = true -> Forall is_byte (utf8_encode p).
Proof.
  induction n as [|n IH]; intros p Hn Hw.
  - destruct p; [constructor|simpl in Hn; lia].
  - destruct p as [|u p']; [constructor|]. cbn [well_formed utf8_encode] in *.
    destruct (is_high u) eqn:Hh.
    + destruct p' as [|l p'']; [discriminate|].
      apply andb_true_iff in Hw. destruct Hw as [Hl Hw]. rewrite Hl.
      destruct (units_of_pair u l Hh Hl) as [[S _] _].
      apply Forall_app. split; [now apply utf8_of_code_point_bytes|].
      apply IH; [simpl in Hn; lia|assumption].
    + apply andb_true_iff in Hw. destruct Hw as [Hw Hw'].
      apply andb_true_iff in Hw. destruct Hw as [Hw Hl].
      apply andb_true_iff in Hw. destruct Hw as [H0 H1].
      apply negb_true_iff in Hl. rewrite Hl.
      apply Z.leb_le in H0. apply Z.ltb_lt in H1.
      apply Forall_app. split; [apply utf8_of_code_point_bytes; lia|].
      apply IH; [simpl in Hn; lia|assumption].
Qed.

Lemma utf8_encode_bytes (p : list Z) :
  well_formed p = true -> Forall is_byte (utf8_encode p).
Proof. apply (utf8_encode_bytes_upto (List.length p)). lia. Qed.

(** The [string] of the model holds the bytes it is made of. *)
Lemma byte_of_ascii_of_byte v : is_byte v -> byte_of_ascii (ascii_of_byte v) = v.
Proof.
  unfold is_byte, byte_of_ascii, ascii_of_byte. intros H.
  rewrite N_ascii_embedding by lia. lia.
Qed.

Lemma Buffer_from_toString b :
  Forall is_byte b -> Buffer_from_utf8 (Buffer_toString_utf8 b) = b.
Proof.
  induction 1 as [|v b Hv _ IH]; [reflexivity|].
  cbn [Buffer_toString_utf8 Buffer_from_utf8]. now rewrite byte_of_ascii_of_byte, IH.
Qed.

Lemma Buffer_from_text p :
  well_formed p = true -> Buffer_from_utf8 (text p) = utf8_encode p.
Proof. intros H. unfold text. now apply Buffer_from_toString, utf8_encode_bytes. Qed.

(** A well-formed JavaScript string is the one its [string] stands for. *)
Lemma units_text p : well_formed p = true -> units (text p) = p.
Proof. intros H. unfold units. rewrite Buffer_from_text by assumption. now apply utf8_round_trip. Qed.

Lemma units_text_value v :
  match v with JStr p => well_formed p | JBool _ => true end = true ->
  units_value (text_value v) = v.
Proof. destruct v as [p|b]; cbn; [|reflexivity]. intros H. now rewrite units_text. Qed.

Lemma units_text_record R :
  well_formed_record R = true -> units_record (text_record R) = R.
Proof.
  induction R as [|[n v] R IH]; [reflexivity|]. cbn [well_formed_record forallb fst snd].
  intros H. apply andb_true_iff in H. destruct H as [H HR].
  apply andb_true_iff in H. destruct H as [Hn Hv].
  cbn [text_record units_record map fst snd].
  rewrite units_text, units_text_value by assumption. f_equal. now apply IH.
Qed.

(** The order of the code units is total. *)
Lemma units_leb_total : forall a b, units_leb a b = false -> units_leb b a = true.
Proof.
  induction a as [|x a IH]; intros [|y b]; cbn [units_leb]; try discriminate; [reflexivity|].
  destruct (Z.ltb_spec x y); [discriminate|].
  destruct (Z.ltb_spec y x); [reflexivity|]. apply IH.
Qed.

Lemma code_units_leb_total a b : code_units_leb a b = false -> code_units_leb b a = true.
Proof. apply units_leb_total. Qed.

End TextFacts.

(** ** Bytes and the XOR stream *)

Module CipherFacts.

Import JS Vault Notions Examples TextFacts.

Lemma to_uint8_mod (v : Z) : to_uint8 v = v mod 256.
Proof. unfold to_uint8. change 255 with (Z.ones 8). now rewrite Z.land_ones by lia. Qed.

Lemma to_uint8_byte (v : Z) : is_byte v -> to_uint8 v = v.
Proof. intros H. rewrite to_uint8_mod. apply Z.mod_small. exact H. Qed.

Lemma to_uint8_is_byte (v : Z) : is_byte (to_uint8 v).
Proof. rewrite to_uint8_mod. unfold is_byte. apply Z.mod_pos_bound. lia. Qed.

Lemma to_uint8_lxor (a b : Z) :
  to_uint8 (Z.lxor a b) = Z.lxor (to_uint8 a) (to_uint8 b).
Proof.
  unfold to_uint8. apply Z.bits_inj'. intros n Hn.
  rewrite Z.lxor_spec, !Z.land_spec, Z.lxor_spec.
  destruct (Z.testbit 255 n); now rewrite ?andb_true_r, ?andb_false_r.
Qed.

Lemma to_uint8_idem (v : Z) : to_uint8 (to_uint8 v) = to_uint8 v.
Proof. apply to_uint8_byte, to_uint8_is_byte. Qed.

Lemma lxor_is_byte (a b : Z) : is_byte a -> is_byte b -> is_byte (Z.lxor a b).
Proof.
  intros Ha Hb.
  rewrite <- (to_uint8_byte a Ha), <- (to_uint8_byte b Hb), <- to_uint8_lxor.
  apply to_uint8_is_byte.
Qed.

(** Applying the same key byte twice gives the byte back. *)
Lemma xor_byte_cancel (d k : Z) :
  is_byte d -> to_uint8 (Z.lxor (to_uint8 (Z.lxor d k)) k) = d.
Proof.
  intros Hd. rewrite (to_uint8_lxor _ k), to_uint8_idem, (to_uint8_lxor d k).
  rewrite Z.lxor_assoc, Z.lxor_nilpotent, Z.lxor_0_r.
  now apply to_uint8_byte.
Qed.

Lemma lxor_cancel_l (k x : Z) : Z.lxor k x = k -> x = 0.
Proof.
  intros H. assert (E : Z.lxor k (Z.lxor k x) = Z.lxor k k) by now rewrite H.
  now rewrite <- Z.lxor_assoc, Z.lxor_nilpotent, Z.lxor_0_l in E.
Qed.

Lemma xor_from_length key i data :
  List.length (xor_from key i data) = List.length data.
Proof. revert i; induction data; simpl; intros; auto. Qed.

Lemma xor_from_is_byte key data : forall i, Forall is_byte (xor_from key i data).
Proof. induction data; simpl; intros; constructor; auto using to_uint8_is_byte. Qed.

Lemma xor_from_involutive key data :
  Forall is_byte data -> forall i, xor_from key i (xor_from key i data) = data.
Proof.
  induction 1 as [|d data Hd _ IH]; intros i; simpl; [reflexivity|].
  now rewrite xor_byte_cancel, IH.
Qed.

Lemma xor_from_nth key data : forall i j,
  (j < List.length data)%nat ->
  nth j (xor_from key i data) 0
  = to_uint8 (Z.lxor (nth j data 0) (key_byte key (i + j))).
Proof.
  induction data as [|d data IH]; simpl; intros i j Hj; [lia|].
  destruct j as [|j].
  - now rewrite Nat.add_0_r.
  - rewrite IH by lia. now rewrite Nat.add_succ_r.
Qed.

(** With an empty key the stream leaves the bytes as they are. *)
Lemma xor_from_empty_key data : Forall is_byte data ->
  forall i, xor_from [] i data = data.
Proof.
  induction 1 as [|d data Hd _ IH]; intros i; simpl; [reflexivity|].
  now rewrite Z.lxor_0_r, to_uint8_byte, IH.
Qed.

Lemma byte_of_ascii_is_byte c : is_byte (byte_of_ascii c).
Proof. unfold is_byte, byte_of_ascii. pose proof (N_ascii_bounded c). lia. Qed.

Lemma ascii_of_byte_of_ascii c : ascii_of_byte (byte_of_ascii c) = c.
Proof. unfold ascii_of_byte, byte_of_ascii. now rewrite N2Z.id, ascii_N_embedding. Qed.

Lemma Buffer_from_utf8_is_byte s : Forall is_byte (Buffer_from_utf8 s).
Proof. induction s; simpl; constructor; auto using byte_of_ascii_is_byte. Qed.

Lemma Buffer_from_utf8_length (s : string) :
  List.length (Buffer_from_utf8 s) = String.length s.
Proof. induction s; simpl; auto. Qed.

Lemma Buffer_utf8_round_trip s : Buffer_toString_utf8 (Buffer_from_utf8 s) = s.
Proof. induction s; simpl; [reflexivity|]. now rewrite ascii_of_byte_of_ascii, IHs. Qed.

(** C4, as amended.  For every JavaScript string [p] in which every
    surrogate has its partner, and every non-empty key [k], [encrypt]
    returns the UTF-8 bytes of [p] XORed with the key stream, and [decrypt]
    of that buffer under the same key returns [p]. *)
Theorem decrypt_encrypt (p : list Z) (k : list Z) :
  well_formed p = true -> k <> [] ->
  exists c s,
    encrypt (Some k) (VStr (text p)) = Ok c
    /\ c = xor_stream k (utf8_encode p)
    /\ decrypt (Some k) c = Ok s
    /\ units s = p.
Proof.
  intros Hp _. exists (xor_stream k (utf8_encode p)), (text p).
  split; [cbn [encrypt]; now rewrite Buffer_from_text|].
  split; [reflexivity|]. split; [|now apply units_text].
  cbn [decrypt]. unfold xor_stream, text.
  now rewrite xor_from_involutive by now apply utf8_encode_bytes.
Qed.

Lemma decrypt_encrypt_witness :
  exists c s,
    encrypt (Some key32) (VStr (text [115; 107; 45; 55357; 56832])) = Ok c
    /\ c = xor_stream key32 (utf8_encode [115; 107; 45; 55357; 56832])
    /\ decrypt (Some key32) c = Ok s
    /\ units s = [115; 107; 45; 55357; 56832].
Proof.
  apply (decrypt_encrypt [115; 107; 45; 55357; 56832] key32); [reflexivity|discriminate].
Defined.

(** C4 as it is stated fails: the string that is the one code unit U+D800
    is encoded as the three bytes of U+FFFD, and [decrypt] of its
    encryption returns U+FFFD. *)
Lemma lone_surrogate_not_recovered :
  key32 <> []
  /\ utf8_encode [55296] = [239; 191; 189]
  /\ exists c s,
       encrypt (Some key32) (VStr (text [55296])) = Ok c
       /\ c = xor_stream key32 (utf8_encode [55296])
       /\ decrypt (Some key32) c = Ok s
       /\ units s = [65533]
       /\ units s <> [55296].
Proof.
  split; [discriminate|]. split; [reflexivity|].
  exists (xor_stream key32 (utf8_encode [55296])), (text [55296]).
  vm_compute. repeat split; try reflexivity. discriminate.
Qed.

(** *** The wrapped master key *)

Lemma firstn_salt (salt rest : list Z) :
  List.length salt = saltLength -> firstn saltLength (salt ++ rest) = salt.
Proof.
  intros H. rewrite <- H, firstn_app, Nat.sub_diag, firstn_all, firstn_O.
  apply app_nil_r.
Qed.

Lemma skipn_salt (salt rest : list Z) :
  List.length salt = saltLength -> skipn saltLength (salt ++ rest) = rest.
Proof. intros H. rewrite <- H, skipn_app, Nat.sub_diag, skipn_all. reflexivity. Qed.

Lemma unwrap_wrap machineId salt k :
  List.length salt = saltLength -> Forall is_byte k ->
  decryptMasterKey machineId (encryptMasterKey machineId salt k) = k.
Proof.
  intros Hs Hk. unfold decryptMasterKey, encryptMasterKey.
  rewrite firstn_salt, skipn_salt by assumption.
  now apply xor_from_involutive.
Qed.

Lemma combinedKey_length fp salt :
  List.length fp = 32%nat -> List.length salt = 32%nat ->
  List.length (combinedKey fp salt) = 32%nat.
Proof.
  intros Hf Hs. unfold combinedKey. rewrite length_app, !length_firstn. lia.
Qed.

(** The first sixteen bytes of the keystream are those of the fingerprint. *)
Lemma key_byte_combined fp salt j :
  List.length fp = 32%nat -> List.length salt = 32%nat -> (j < 16)%nat ->
  key_byte (combinedKey fp salt) j = nth j fp 0.
Proof.
  intros Hf Hs Hj. unfold key_byte.
  pose proof (combinedKey_length fp salt Hf Hs) as Hl.
  destruct (combinedKey fp salt) eqn:E; [discriminate|].
  rewrite Hl, Nat.mod_small, <- E by lia.
  unfold combinedKey. rewrite app_nth1 by (rewrite length_firstn; lia).
  rewrite nth_firstn. now destruct (Nat.ltb_spec j 16); [|lia].
Qed.

Lemma Forall_nth_byte (l : list Z) j : Forall is_byte l -> is_byte (nth j l 0).
Proof.
  intros H. destruct (Nat.lt_ge_cases j (List.length l)).
  - rewrite Forall_forall in H. apply H, nth_In; assumption.
  - rewrite nth_overflow by assumption. unfold is_byte; lia.
Qed.

(** Unwrapping under another fingerprint gives the key back exactly when
    the two fingerprints agree on their first sixteen bytes. *)
Lemma unwrap_other_machine fp1 fp2 salt k :
  List.length fp1 = 32%nat -> List.length fp2 = 32%nat ->
  List.length salt = 32%nat -> List.length k = 32%nat ->
  Forall is_byte fp1 -> Forall is_byte fp2 -> Forall is_byte k ->
  (decryptMasterKey fp2 (encryptMasterKey fp1 salt k) = k
   <-> firstn 16 fp1 = firstn 16 fp2).
Proof.
  intros H1 H2 Hs Hk B1 B2 Bk.
  unfold decryptMasterKey, encryptMasterKey.
  rewrite firstn_salt, skipn_salt by assumption.
  split.
  - intros E.
    apply (nth_ext _ _ 0 0); [rewrite !length_firstn; lia|].
    intros j Hj. rewrite length_firstn, H1 in Hj.
    rewrite !nth_firstn. destruct (Nat.ltb_spec j 16) as [_|]; [|lia].
    assert (Ej := f_equal (fun l => nth j l 0) E). cbv beta in Ej.
    rewrite xor_from_nth in Ej by (rewrite xor_from_length; lia).
    rewrite xor_from_nth in Ej by lia.
    simpl in Ej. rewrite !key_byte_combined in Ej by lia.
    pose proof (Forall_nth_byte fp1 j B1) as Ba.
    pose proof (Forall_nth_byte fp2 j B2) as Bb.
    pose proof (Forall_nth_byte k j Bk) as Bc.
    rewrite (to_uint8_byte (Z.lxor (nth j k 0) _)) in Ej
      by (apply lxor_is_byte; assumption).
    rewrite to_uint8_byte in Ej by (repeat apply lxor_is_byte; assumption).
    rewrite Z.lxor_assoc in Ej. apply lxor_cancel_l in Ej.
    now apply Z.lxor_eq.
  - intros E. unfold combinedKey. rewrite <- E.
    now apply xor_from_involutive.
Qed.

Lemma loadOrCreate_create fp key salt st :
  keyFile st = None ->
  loadOrCreateMasterKey fp key salt st =
    (Ok tt, mkState (cache st) (Some key) (credentialsFile st)
              (Some (encryptMasterKey fp salt key))).
Proof.
  intros H. unfold loadOrCreateMasterKey, bind, gets, modify. rewrite H. reflexivity.
Qed.

Lemma loadOrCreate_load fp key salt st data :
  keyFile st = Some data ->
  loadOrCreateMasterKey fp key salt st =
    (Ok tt, set_masterKey (Some (decryptMasterKey fp data)) st).
Proof.
  intros H. unfold loadOrCreateMasterKey, bind, gets, modify. rewrite H. reflexivity.
Qed.

(** C5, as amended.  On a machine with the 32-byte fingerprint [fp1],
    [loadOrCreateMasterKey] without a key file creates the 32-byte key [key]
    and its file; run again with the same fingerprint it returns [key]; run
    on that file with a fingerprint [fp2] it returns without an error, and
    the key it returns is [key] exactly when [fp2] agrees with [fp1] on the
    first sixteen bytes, the only ones that enter the keystream. *)
Theorem machine_binding (st : state) (fp1 fp2 key salt key' salt' : list Z) :
  keyFile st = None ->
  List.length fp1 = 32%nat -> List.length fp2 = 32%nat ->
  List.length salt = 32%nat -> List.length key = 32%nat ->
  Forall is_byte fp1 -> Forall is_byte fp2 -> Forall is_byte key ->
  let st1 := snd (loadOrCreateMasterKey fp1 key salt st) in
  masterKey st1 = Some key
  /\ masterKey (snd (loadOrCreateMasterKey fp1 key' salt' st1)) = Some key
  /\ fst (loadOrCreateMasterKey fp2 key' salt' st1) = Ok tt
  /\ (masterKey (snd (loadOrCreateMasterKey fp2 key' salt' st1)) = Some key
      <-> firstn 16 fp1 = firstn 16 fp2).
Proof.
  intros Hk L1 L2 Ls Lk B1 B2 Bk st1. subst st1.
  rewrite (loadOrCreate_create fp1 key salt st Hk). cbn [snd masterKey].
  rewrite !(loadOrCreate_load _ key' salt' _ (encryptMasterKey fp1 salt key))
    by reflexivity.
  cbn [fst snd masterKey set_masterKey].
  rewrite unwrap_wrap by assumption.
  repeat split; try reflexivity.
  - injection 1 as E. now apply (unwrap_other_machine fp1 fp2 salt key).
  - intros E. f_equal. now apply (unwrap_other_machine fp1 fp2 salt key).
Qed.

Lemma bytes_upto (n m : nat) :
  (n + m <= 256)%nat -> Forall is_byte (map Z.of_nat (seq n m)).
Proof.
  intros H. apply Forall_forall. intros x Hx.
  apply in_map_iff in Hx. destruct Hx as (i & <- & Hi). apply in_seq in Hi.
  unfold is_byte. lia.
Qed.

Lemma bytes_repeat (v : Z) (n : nat) : is_byte v -> Forall is_byte (repeat v n).
Proof. intros H. induction n; simpl; constructor; auto. Qed.

Lemma machine_binding_witness :
  masterKey created = Some wrapped_key
  /\ masterKey (snd (loadOrCreateMasterKey fp_a [] [] created)) = Some wrapped_key
  /\ fst (loadOrCreateMasterKey fp_c [] [] created) = Ok tt
  /\ (masterKey (snd (loadOrCreateMasterKey fp_c [] [] created)) = Some wrapped_key
      <-> firstn 16 fp_a = firstn 16 fp_c).
Proof.
  apply (machine_binding no_key_file fp_a fp_c wrapped_key wrapped_salt [] []);
    try reflexivity.
  - apply bytes_repeat. unfold is_byte. lia.
  - constructor; [unfold is_byte; lia|]. apply bytes_repeat. unfold is_byte. lia.
  - apply bytes_upto. lia.
Defined.

(** C5 as it is stated fails: [fp_a] and [fp_b] are different fingerprints,
    and the file wrapped under [fp_a] unwraps under [fp_b] to the same key. *)
Lemma other_fingerprint_same_key :
  fp_a <> fp_b
  /\ List.length fp_a = 32%nat /\ List.length fp_b = 32%nat
  /\ masterKey created = Some wrapped_key
  /\ masterKey (snd (loadOrCreateMasterKey fp_b [] [] created)) = Some wrapped_key.
Proof. vm_compute. repeat split; try reflexivity. discriminate. Qed.

End CipherFacts.

(** ** Base64 *)

Module Base64Facts.

Import JS Vault Notions CipherFacts.

Lemma b64_alphabet_ok : forallb b64_char_ok (seq 0 64) = true.
Proof. vm_compute. reflexivity. Qed.

Lemma b64_sextets_char (n : Z) (s : string) :
  0 <= n < 64 -> b64_sextets (String (b64_char n) s) = n :: b64_sextets s.
Proof.
  intros Hn. pose proof b64_alphabet_ok as H. rewrite forallb_forall in H.
  specialize (H (Z.to_nat n)). unfold b64_char_ok in H. rewrite Z2Nat.id in H by lia.
  assert (Hin : In (Z.to_nat n) (seq 0 64)) by (apply in_seq; lia).
  specialize (H Hin). simpl.
  destruct (unbase64 (b64_char n)) as [v|]; [|discriminate].
  apply andb_true_iff in H. destruct H as [Hv Hc].
  apply Z.eqb_eq in Hv. apply negb_true_iff in Hc. rewrite Hc. now subst.
Qed.

(** Induction over a buffer three bytes at a time. *)
Lemma buffer_ind3 (P : list Z -> Prop) :
  P [] -> (forall x, P [x]) -> (forall x y, P [x; y]) ->
  (forall x y z l, P l -> P (x :: y :: z :: l)) ->
  forall l, P l.
Proof.
  intros H0 H1 H2 H3. fix IH 1. intros [|x [|y [|z l]]];
    [apply H0 | apply H1 | apply H2 | apply H3, IH].
Qed.

Lemma sextet_ranges (x y z : Z) :
  is_byte x -> is_byte y -> is_byte z ->
  0 <= x / 4 < 64 /\ 0 <= (x mod 4) * 16 + y / 16 < 64 /\
  0 <= (y mod 16) * 4 + z / 64 < 64 /\ 0 <= z mod 64 < 64 /\
  0 <= (x mod 4) * 16 < 64 /\ 0 <= (y mod 16) * 4 < 64.
Proof. unfold is_byte. intros. Z.div_mod_to_equations. lia. Qed.

Lemma pack_sextets (x y z : Z) :
  is_byte x -> is_byte y -> is_byte z ->
  x / 4 * 4 + ((x mod 4) * 16 + y / 16) / 16 = x /\
  (((x mod 4) * 16 + y / 16) mod 16) * 16 + ((y mod 16) * 4 + z / 64) / 4 = y /\
  (((y mod 16) * 4 + z / 64) mod 4) * 64 + z mod 64 = z.
Proof. unfold is_byte. intros. Z.div_mod_to_equations. lia. Qed.

Lemma zero_is_byte : is_byte 0.
Proof. unfold is_byte. lia. Qed.

Lemma base64_round_trip (b : list Z) :
  Forall is_byte b -> Buffer_from_base64 (Buffer_toString_base64 b) = b.
Proof.
  unfold Buffer_from_base64.
  induction b as [|x|x y|x y z l IH] using buffer_ind3; intros Hb.
  - reflexivity.
  - inversion_clear Hb as [|? ? Hx _].
    destruct (sextet_ranges x 0 0 Hx zero_is_byte zero_is_byte) as (R0 & _ & _ & _ & R1 & _).
    destruct (pack_sextets x 0 0 Hx zero_is_byte zero_is_byte) as (P0 & _).
    cbn [Buffer_toString_base64]. rewrite !b64_sextets_char by assumption.
    cbn. rewrite Z.add_0_r in P0. now rewrite P0.
  - inversion_clear Hb as [|? ? Hx Hb']. inversion_clear Hb' as [|? ? Hy _].
    destruct (sextet_ranges x y 0 Hx Hy zero_is_byte) as (R0 & R1 & _ & _ & _ & R2).
    destruct (pack_sextets x y 0 Hx Hy zero_is_byte) as (P0 & P1 & _).
    cbn [Buffer_toString_base64]. rewrite !b64_sextets_char by assumption.
    cbn. rewrite Z.add_0_r in P1. now rewrite P0, P1.
  - inversion_clear Hb as [|? ? Hx Hb']. inversion_clear Hb' as [|? ? Hy Hb''].
    inversion_clear Hb'' as [|? ? Hz Hl].
    destruct (sextet_ranges x y z Hx Hy Hz) as (R0 & R1 & R2 & R3 & _).
    destruct (pack_sextets x y z Hx Hy Hz) as (P0 & P1 & P2).
    cbn [Buffer_toString_base64]. rewrite !b64_sextets_char by assumption.
    cbn [b64_pack]. now rewrite P0, P1, P2, IH.
Qed.

(** The base64 text is at least as long as the buffer, and longer when the
    buffer is not empty. *)
Lemma base64_length (b : list Z) :
  (List.length b <= String.length (Buffer_toString_base64 b))%nat /\
  (b <> [] -> (List.length b < String.length (Buffer_toString_base64 b))%nat).
Proof.
  induction b as [|x|x y|x y z l IH] using buffer_ind3.
  - split; [simpl; lia|congruence].
  - split; intros; simpl; lia.
  - split; intros; simpl; lia.
  - cbn [Buffer_toString_base64 String.length List.length]. lia.
Qed.

Lemma sealed_text_longer k p :
  p <> "" -> (String.length p < String.length (sealed_text k p))%nat.
Proof.
  intros Hp. unfold sealed_text.
  destruct (base64_length (xor_stream k (Buffer_from_utf8 p))) as [_ H].
  unfold xor_stream in *. rewrite xor_from_length, Buffer_from_utf8_length in H.
  apply H. destruct p; [congruence|]. simpl. discriminate.
Qed.

Lemma sealed_text_nonempty k p : p <> "" -> sealed_text k p <> "".
Proof.
  intros Hp E. pose proof (sealed_text_longer k p Hp) as H.
  rewrite E in H. simpl in H. lia.
Qed.

Lemma sealed_text_differs k p : p <> "" -> sealed_text k p <> p.
Proof.
  intros Hp E. pose proof (sealed_text_longer k p Hp) as H.
  rewrite E in H. lia.
Qed.

Lemma opened_sealed k p : opened_text k (sealed_text k p) = p.
Proof.
  unfold opened_text, sealed_text, xor_stream.
  rewrite base64_round_trip by apply xor_from_is_byte.
  rewrite xor_from_involutive by apply Buffer_from_utf8_is_byte.
  apply Buffer_utf8_round_trip.
Qed.

End Base64Facts.

(** ** Plain objects *)

Module ObjectFacts.

Import JS.

Section Objects.

Context {A : Type}.
Implicit Types (o a b : object A) (k : string) (v : A).

Lemma obj_get_None k o : obj_get k o = None <-> ~ In k (keys o).
Proof.
  induction o as [|[k' v'] o IH]; simpl; [tauto|].
  destruct (String.eqb_spec k k') as [->|Hne].
  - split; [discriminate|]. intros H. exfalso. apply H. now left.
  - rewrite IH. split; [intros H [E|I]|intros H I]; try congruence; tauto.
Qed.

Lemma obj_get_In k o v : obj_get k o = Some v -> In k (keys o).
Proof.
  intros H. destruct (in_dec string_dec k (keys o)) as [I|N]; [exact I|].
  apply obj_get_None in N. congruence.
Qed.

Lemma obj_get_In_pair k o v : obj_get k o = Some v -> In (k, v) o.
Proof.
  induction o as [|[k' v'] o IH]; simpl; [discriminate|].
  destruct (String.eqb_spec k k') as [->|Hne].
  - injection 1 as ->. now left.
  - intros H. right. auto.
Qed.

Lemma obj_get_set_eq k v o : obj_get k (obj_set k v o) = Some v.
Proof.
  induction o as [|[k' v'] o IH]; simpl.
  - now rewrite String.eqb_refl.
  - destruct (String.eqb_spec k k') as [->|Hne]; simpl.
    + now rewrite String.eqb_refl.
    + destruct (String.eqb_spec k k'); [contradiction|exact IH].
Qed.

Lemma obj_get_set_neq k k' v o : k <> k' -> obj_get k (obj_set k' v o) = obj_get k o.
Proof.
  intros Hne. induction o as [|[k2 v2] o IH]; simpl.
  - destruct (String.eqb_spec k k'); [contradiction|reflexivity].
  - destruct (String.eqb_spec k' k2) as [->|Hne2]; simpl.
    + destruct (String.eqb_spec k k2); [contradiction|reflexivity].
    + destruct (String.eqb_spec k k2); [reflexivity|exact IH].
Qed.

Lemma obj_has_set k v o : obj_has k (obj_set k v o) = true.
Proof. unfold obj_has. now rewrite obj_get_set_eq. Qed.

Lemma keys_set_in k v o : In k (keys o) -> keys (obj_set k v o) = keys o.
Proof.
  induction o as [|[k' v'] o IH]; simpl; [tauto|].
  intros [E|I]; destruct (String.eqb_spec k k') as [->|Hne]; simpl; try congruence.
  f_equal. auto.
Qed.

Lemma keys_set_has k v o : In k (keys (obj_set k v o)).
Proof. eapply obj_get_In. apply obj_get_set_eq. Qed.

Lemma keys_set_keeps k k' v o : In k (keys o) -> In k (keys (obj_set k' v o)).
Proof.
  intros H. destruct (string_dec k k') as [->|Hne]; [apply keys_set_has|].
  destruct (obj_get k (obj_set k' v o)) eqn:E; [eapply obj_get_In; eauto|].
  rewrite obj_get_set_neq in E by assumption. apply obj_get_None in E. contradiction.
Qed.

Lemma obj_set_notin k v o : ~ In k (keys o) -> obj_set k v o = (o ++ [(k, v)])%list.
Proof.
  induction o as [|[k' v'] o IH]; simpl; [reflexivity|].
  intros H. destruct (String.eqb_spec k k') as [->|Hne]; [tauto|].
  f_equal. apply IH. tauto.
Qed.

Lemma obj_set_app_in k v a b :
  In k (keys a) -> obj_set k v (a ++ b)%list = (obj_set k v a ++ b)%list.
Proof.
  induction a as [|[k' v'] a IH]; simpl; [tauto|].
  intros [E|I]; destruct (String.eqb_spec k k') as [->|Hne]; simpl; try congruence.
  f_equal. auto.
Qed.

Lemma obj_set_app_notin k v a b :
  ~ In k (keys a) -> obj_set k v (a ++ b)%list = (a ++ obj_set k v b)%list.
Proof.
  induction a as [|[k' v'] a IH]; simpl; [reflexivity|].
  intros H. destruct (String.eqb_spec k k') as [->|Hne]; [tauto|].
  f_equal. apply IH. tauto.
Qed.

Lemma obj_get_app k a b :
  obj_get k (a ++ b)%list
  = match obj_get k a with Some v => Some v | None => obj_get k b end.
Proof.
  induction a as [|[k' v'] a IH]; simpl; [reflexivity|].
  destruct (String.eqb k k'); auto.
Qed.

Lemma obj_delete_app_notin k a b :
  ~ In k (keys a) -> obj_delete k (a ++ b)%list = (a ++ obj_delete k b)%list.
Proof.
  induction a as [|[k' v'] a IH]; simpl; [reflexivity|].
  intros H. destruct (String.eqb_spec k k') as [->|Hne]; [tauto|].
  f_equal. apply IH. tauto.
Qed.

Lemma obj_delete_head k v b : obj_delete k ((k, v) :: b) = b.
Proof. simpl. now rewrite String.eqb_refl. Qed.

(** Two objects with the same keys in the same order, none twice, and the
    same value under each key are the same object. *)
Lemma obj_ext a b :
  keys a = keys b -> NoDup (keys a) ->
  (forall k, obj_get k a = obj_get k b) -> a = b.
Proof.
  revert b. induction a as [|[k v] a IH]; intros [|[k' v'] b]; simpl;
    try discriminate; auto.
  intros E ND H. injection E as Ek1 Ek. destruct Ek1.
  inversion_clear ND as [|? ? Hn ND'].
  pose proof (H k) as Hk. rewrite String.eqb_refl in Hk. injection Hk as Hv. subst v'.
  f_equal. apply IH; auto. intros k0.
  specialize (H k0). destruct (String.eqb_spec k0 k) as [E0|Hne]; [|exact H].
  rewrite E0. assert (N1 := Hn). apply obj_get_None in N1.
  rewrite Ek in Hn. apply obj_get_None in Hn. congruence.
Qed.

End Objects.

Lemma append_length (a b : string) :
  String.length (a ++ b) = (String.length a + String.length b)%nat.
Proof. induction a; simpl; auto. Qed.

Lemma append_inj_l (a b s : string) : a ++ s = b ++ s -> a = b.
Proof.
  revert b. induction a as [|c a IH]; intros [|c' b] H; simpl in H.
  - reflexivity.
  - apply (f_equal String.length) in H. simpl in H. rewrite append_length in H. lia.
  - apply (f_equal String.length) in H. simpl in H. rewrite append_length in H. lia.
  - injection H as -> H. f_equal. now apply IH.
Qed.

Lemma endsWith_append (suffix f : string) : endsWith suffix (f ++ suffix) = true.
Proof.
  induction f as [|c f IH]; cbn [append endsWith].
  - destruct suffix; cbn [endsWith]; now rewrite String.eqb_refl.
  - destruct (String.eqb (String c (f ++ suffix)) suffix); [reflexivity|exact IH].
Qed.

End ObjectFacts.

(** ** Sealing and opening *)

Module SealFacts.

Import JS Vault Notions CipherFacts Base64Facts ObjectFacts.

Lemma keys_markers F : keys (markers F) = map marker F.
Proof. unfold keys, markers. rewrite map_map. reflexivity. Qed.

Lemma markers_app F G : markers (F ++ G) = (markers F ++ markers G)%list.
Proof. apply map_app. Qed.

Lemma marker_dirty f : endsWith "_encrypted" (marker f) = true.
Proof. apply endsWith_append. Qed.

Lemma marker_not_clean ks f : clean ks -> ~ In (marker f) ks.
Proof. intros Hc Hin. apply Hc in Hin. now rewrite marker_dirty in Hin. Qed.

Lemma clean_not_marker ks f f' : clean ks -> In f ks -> f <> marker f'.
Proof. intros Hc Hin ->. now apply (marker_not_clean ks f'). Qed.

Lemma clean_tail f fs : clean (f :: fs) -> clean fs.
Proof. intros H x Hx. apply H. now right. Qed.

Lemma marker_notin_markers f F : ~ In f F -> ~ In (marker f) (keys (markers F)).
Proof.
  rewrite keys_markers, in_map_iff. intros Hn (f' & E & I).
  apply append_inj_l in E. now subst.
Qed.

Lemma obj_get_markers_clean f F :
  endsWith "_encrypted" f = false -> obj_get f (markers F) = None.
Proof.
  intros Hf. apply obj_get_None. rewrite keys_markers, in_map_iff.
  intros (f' & E & _). subst f. now rewrite marker_dirty in Hf.
Qed.

Lemma truthy_str p : truthy (Some (VStr p)) = true <-> p <> "".
Proof.
  simpl. destruct (String.eqb_spec p "") as [->|Hne]; simpl; split; intros H;
    try reflexivity; try assumption; try discriminate. now contradiction H.
Qed.

(** *** The tables *)

Lemma sensitive_table_all : Forall (fun e => fields_ok (snd e)) sensitiveFields.
Proof.
  unfold sensitiveFields, fields_ok.
  repeat constructor; cbn [snd];
    try (simpl; intuition discriminate);
    try (intros f Hf; in_cases Hf; subst f; reflexivity).
Qed.

Lemma sensitive_table_ok service fs :
  table_get service sensitiveFields = Own fs -> fields_ok fs.
Proof.
  unfold table_get. destruct (obj_get service sensitiveFields) as [fs'|] eqn:E.
  - injection 1 as ->. apply obj_get_In_pair in E.
    pose proof sensitive_table_all as H. rewrite Forall_forall in H.
    exact (H _ E).
  - destruct (inherited service); discriminate.
Qed.

Lemma rules_table_all : Forall (fun e => clean (allowed (snd e))) validationRules.
Proof.
  unfold validationRules.
  repeat constructor; cbn [snd]; intros f Hf; in_cases Hf; subst f; reflexivity.
Qed.

Lemma rules_table_clean service r :
  table_get service validationRules = Own r -> clean (allowed r).
Proof.
  unfold table_get. destruct (obj_get service validationRules) as [r'|] eqn:E.
  - injection 1 as ->. apply obj_get_In_pair in E.
    pose proof rules_table_all as H. rewrite Forall_forall in H.
    exact (H _ E).
  - destruct (inherited service); discriminate.
Qed.

Lemma tables_same_keys : keys sensitiveFields = keys validationRules.
Proof. reflexivity. Qed.

(** A service with rules has a list of sensitive fields. *)
Lemma known_sensitive service r :
  table_get service validationRules = Own r ->
  exists fs, table_get service sensitiveFields = Own fs.
Proof.
  unfold table_get. destruct (obj_get service validationRules) as [r'|] eqn:E.
  - intros _. apply obj_get_In_pair in E. unfold validationRules in E.
    in_cases E; injection E as <- _; eexists; reflexivity.
  - destruct (inherited service); discriminate.
Qed.

(** *** The loop of [encryptSensitiveFields] *)

Section Sealing.

Variable k : list Z.

(** Sealing a record [R] that already carries the markers of [done]
    rewrites the truthy sensitive fields in place and appends their
    markers, in the order of the table. *)
Lemma seal_fields_spec : forall fs R done sealed,
  NoDup (keys R) -> clean (keys R) -> clean fs -> NoDup fs ->
  (forall f, In f fs -> ~ In f done) ->
  seal_fields (Some k) fs (R ++ markers done)%list = Ok sealed ->
  exists R',
    sealed = (R' ++ markers (done ++ filter (fun f => truthy (obj_get f R)) fs))%list
    /\ keys R' = keys R
    /\ (forall f, In f fs -> truthy (obj_get f R) = true ->
          exists p, obj_get f R = Some (VStr p)
                    /\ obj_get f R' = Some (VStr (sealed_text k p)))
    /\ (forall key, ~ (In key fs /\ truthy (obj_get key R) = true) ->
          obj_get key R' = obj_get key R).
Proof.
  induction fs as [|f fs IH]; intros R done sealed ND CR Cfs NDfs Hdone H.
  - simpl in H. injection H as <-. exists R. simpl. rewrite app_nil_r.
    repeat split; auto. intros f [].
  - assert (Hf : endsWith "_encrypted" f = false) by (apply Cfs; now left).
    pose proof (clean_tail _ _ Cfs) as Cfs'.
    inversion_clear NDfs as [|? ? Hnf NDfs'].
    assert (Hget : obj_get f (R ++ markers done)%list = obj_get f R).
    { rewrite obj_get_app, obj_get_markers_clean by assumption.
      now destruct (obj_get f R). }
    assert (Hrest : forall x, In x fs -> ~ In x done)
      by (intros x Hx; apply Hdone; now right).
    cbn [seal_fields] in H. rewrite Hget in H.
    destruct (obj_get f R) as [v|] eqn:Ef.
    + destruct (truthy (Some v)) eqn:Tv.
      * destruct v as [p|b]; [|discriminate]. cbn [encrypt] in H.
        assert (If : In f (keys R)) by (eapply obj_get_In; eauto).
        fold (sealed_text k p) in H.
        set (c := VStr (sealed_text k p)) in H.
        rewrite obj_set_app_in in H by assumption.
        rewrite obj_set_app_notin in H
          by (rewrite keys_set_in by assumption; now apply marker_not_clean).
        rewrite (obj_set_notin (marker f)) in H
          by (apply marker_notin_markers, Hdone; now left).
        change [(marker f, VBool true)] with (markers [f]) in H.
        rewrite <- markers_app in H.
        apply IH in H; try assumption.
        2: now rewrite keys_set_in.
        2: now rewrite keys_set_in.
        2: { intros x Hx Hin. apply in_app_or in Hin. destruct Hin as [Hin|[->|[]]].
             - now apply (Hrest x).
             - contradiction. }
        destruct H as (R' & -> & HK & Hs & Hu).
        assert (Hother : forall x, x <> f -> obj_get x (obj_set f c R) = obj_get x R)
          by (intros; now apply obj_get_set_neq).
        exists R'. split; [|split; [|split]].
        -- f_equal. f_equal. rewrite <- app_assoc. f_equal.
           cbn [filter]. rewrite Ef, Tv. cbn [app]. f_equal.
           apply filter_ext_in. intros x Hx. rewrite Hother; [reflexivity|].
           intros ->. contradiction.
        -- now rewrite HK, keys_set_in.
        -- intros x [<-|Hx] Tx.
           ++ exists p. split; [exact Ef|]. rewrite Hu.
              ** apply obj_get_set_eq.
              ** intros [Hin _]. contradiction.
           ++ assert (x <> f) by (intros ->; contradiction).
              destruct (Hs x Hx) as (q & Hq & Hq'); [now rewrite Hother|].
              exists q. split; [now rewrite <- Hother|exact Hq'].
        -- intros x Hx.
           assert (x <> f).
           { intros ->. apply Hx. split; [now left|]. now rewrite Ef. }
           rewrite Hu, Hother; auto.
           intros [Hin Tx]. apply Hx. split; [now right|]. now rewrite <- Hother.
      * apply IH in H; try assumption.
        destruct H as (R' & -> & HK & Hs & Hu).
        exists R'. split; [|split; [|split]]; auto.
        -- cbn [filter]. now rewrite Ef, Tv.
        -- intros x [<-|Hx] Tx; [rewrite Ef in Tx; congruence|auto].
        -- intros x Hx. apply Hu. intros [Hin Tx]. apply Hx. split; [now right|auto].
    + apply IH in H; try assumption.
      destruct H as (R' & -> & HK & Hs & Hu).
      exists R'. split; [|split; [|split]]; auto.
      -- cbn [filter]. now rewrite Ef.
      -- intros x [<-|Hx] Tx; [rewrite Ef in Tx; discriminate|auto].
      -- intros x Hx. apply Hu. intros [Hin Tx]. apply Hx. split; [now right|auto].
Qed.

(** Sealing leaves alone what is neither a sensitive field nor a marker. *)
Lemma seal_fields_untouched : forall fs res sealed x,
  seal_fields (Some k) fs res = Ok sealed ->
  ~ In x fs -> (forall f, In f fs -> x <> marker f) ->
  obj_get x sealed = obj_get x res.
Proof.
  induction fs as [|f fs IH]; intros res sealed x H Hx Hm.
  - now injection H as <-.
  - cbn [seal_fields] in H.
    assert (Hx' : ~ In x fs) by (intros I; apply Hx; now right).
    assert (Hm' : forall f', In f' fs -> x <> marker f') by (intros; apply Hm; now right).
    assert (x <> f) by (intros ->; apply Hx; now left).
    assert (x <> marker f) by (apply Hm; now left).
    destruct (obj_get f res) as [v|]; [|eauto].
    destruct (truthy (Some v)); [|eauto].
    destruct (encrypt (Some k) v); [|discriminate].
    rewrite (IH _ _ x H Hx' Hm'). now rewrite !obj_get_set_neq.
Qed.

(** A non-empty string under a sensitive field is stored in sealed form,
    with its marker, whatever else the record holds. *)
Lemma seal_fields_sealed : forall fs res sealed f p,
  NoDup fs -> clean fs ->
  seal_fields (Some k) fs res = Ok sealed ->
  In f fs -> obj_get f res = Some (VStr p) -> p <> "" ->
  obj_get f sealed = Some (VStr (sealed_text k p))
  /\ obj_get (marker f) sealed = Some (VBool true).
Proof.
  induction fs as [|f0 fs IH]; intros res sealed f p ND Cfs H Hin Ef Hp; [destruct Hin|].
  inversion_clear ND as [|? ? Hn ND'].
  pose proof (clean_tail _ _ Cfs) as Cfs'.
  cbn [seal_fields] in H. destruct Hin as [->|Hin].
  - rewrite Ef in H. apply truthy_str in Hp. rewrite Hp in H.
    cbn [encrypt] in H. fold (sealed_text k p) in H.
    assert (U : forall x, ~ In x fs -> (forall f', In f' fs -> x <> marker f') ->
                obj_get x sealed
                = obj_get x (obj_set (marker f) (VBool true)
                               (obj_set f (VStr (sealed_text k p)) res)))
      by (intros; eapply seal_fields_untouched; eauto).
    assert (Cf : forall f', f <> marker f').
    { intros f'. apply (clean_not_marker (f :: fs)); [assumption|now left]. }
    split.
    + rewrite U; [|assumption|intros; apply Cf].
      rewrite obj_get_set_neq by apply Cf. apply obj_get_set_eq.
    + rewrite U.
      * apply obj_get_set_eq.
      * now apply marker_not_clean.
      * intros f' Hf' E. apply append_inj_l in E. subst f'. contradiction.
  - assert (f <> f0) by (intros ->; contradiction).
    assert (f <> marker f0) by (now apply (clean_not_marker fs)).
    destruct (obj_get f0 res) as [v|]; [|eauto].
    destruct (truthy (Some v)); [|eauto].
    destruct (encrypt (Some k) v); [|discriminate].
    eapply IH; eauto. now rewrite !obj_get_set_neq.
Qed.

(** With string values only, sealing does not throw. *)
Lemma seal_fields_plain : forall fs res,
  clean fs ->
  (forall f v, In f fs -> obj_get f res = Some v -> exists s, v = VStr s) ->
  exists sealed, seal_fields (Some k) fs res = Ok sealed.
Proof.
  induction fs as [|f fs IH]; intros res Cfs Hp; [now exists res|].
  pose proof (clean_tail _ _ Cfs) as Cfs'.
  assert (Hrest : forall x v, In x fs -> obj_get x res = Some v -> exists s, v = VStr s)
    by (intros x v Hx; apply Hp; now right).
  cbn [seal_fields]. destruct (obj_get f res) as [v|] eqn:Ef; [|now apply IH].
  destruct (Hp f v) as (s & ->); [now left|assumption|].
  destruct (truthy (Some (VStr s))); [|now apply IH].
  cbn [encrypt]. apply IH; [assumption|]. intros x v Hx.
  rewrite obj_get_set_neq by (now apply (clean_not_marker fs)).
  destruct (string_dec x f) as [->|Hne].
  - rewrite obj_get_set_eq. injection 1 as <-. eauto.
  - rewrite obj_get_set_neq by assumption. now apply Hrest.
Qed.

(** *** The loop of [decryptSensitiveFields] *)

Lemma open_clean_noop key : forall entries acc,
  clean (keys entries) -> fold_left (open_entry key) entries acc = acc.
Proof.
  induction entries as [|[f v] entries IH]; intros acc Hc; [reflexivity|].
  cbn [fold_left]. unfold open_entry at 2.
  rewrite (Hc f) by now left. cbn [andb]. apply IH.
  intros x Hx. apply Hc. now right.
Qed.

Lemma open_entry_marker key f res :
  replace "_encrypted" "" (marker f) = f ->
  open_entry key res (marker f, VBool true) =
  obj_delete (marker f)
    match obj_get f res with
    | Some (VStr s) =>
        if truthy (Some (VStr s)) then
          match decrypt key (Buffer_from_base64 s) with
          | Ok plain => obj_set f (VStr plain) res
          | Err _ => res
          end
        else res
    | Some (VBool _) => res
    | None => res
    end.
Proof.
  intros H. unfold open_entry. rewrite marker_dirty, H. reflexivity.
Qed.

Lemma open_markers : forall F R,
  NoDup F -> clean F ->
  (forall f, In f F -> replace "_encrypted" "" (marker f) = f) ->
  clean (keys R) ->
  (forall f, In f F -> exists c, obj_get f R = Some (VStr c) /\ c <> "") ->
  exists R',
    fold_left (open_entry (Some k)) (markers F) (R ++ markers F)%list = R'
    /\ keys R' = keys R
    /\ (forall f c, In f F -> obj_get f R = Some (VStr c) ->
          obj_get f R' = Some (VStr (opened_text k c)))
    /\ (forall key, ~ In key F -> obj_get key R' = obj_get key R).
Proof.
  induction F as [|f F IH]; intros R ND CF HR CR Hs.
  - exists R. simpl. rewrite app_nil_r. repeat split; auto. intros f c [].
  - inversion_clear ND as [|? ? Hnf ND'].
    destruct (Hs f) as (c & Ec & Nc); [now left|].
    assert (If : In f (keys R)) by (eapply obj_get_In; eauto).
    cbn [markers map fold_left]. fold (markers F).
    rewrite open_entry_marker by (apply HR; now left).
    rewrite obj_get_app, Ec. apply truthy_str in Nc. rewrite Nc.
    cbn [decrypt]. fold (opened_text k c).
    rewrite obj_set_app_in by assumption.
    rewrite obj_delete_app_notin
      by (rewrite keys_set_in by assumption; now apply marker_not_clean).
    rewrite obj_delete_head.
    assert (Hother : forall x, x <> f ->
              obj_get x (obj_set f (VStr (opened_text k c)) R) = obj_get x R)
      by (intros; now apply obj_get_set_neq).
    destruct (IH (obj_set f (VStr (opened_text k c)) R)) as (R' & E & HK & Ho & Hu);
      try assumption.
    + now apply (clean_tail f).
    + intros x Hx; apply HR; now right.
    + now rewrite keys_set_in.
    + intros x Hx. assert (x <> f) by (intros ->; contradiction).
      rewrite Hother by assumption. apply Hs. now right.
    + exists R'. split; [exact E|]. split; [now rewrite HK, keys_set_in|]. split.
      * intros x d [<-|Hx] Ed.
        -- rewrite Hu by assumption. rewrite obj_get_set_eq. congruence.
        -- assert (x <> f) by (intros ->; contradiction).
           apply Ho; [assumption|]. now rewrite Hother.
      * intros x Hx. assert (x <> f) by (intros ->; apply Hx; now left).
        rewrite Hu, Hother; auto. intros Hin. apply Hx. now right.
Qed.

(** Opening a sealed record gives the record back, when its keys are
    distinct and none of them ends in [_encrypted]. *)
Lemma open_seal fs r sealed :
  fields_ok fs -> NoDup (keys r) -> clean (keys r) ->
  seal_fields (Some k) fs r = Ok sealed ->
  fold_left (open_entry (Some k)) sealed sealed = r.
Proof.
  intros (NDfs & Cfs & Hrep) NDr Cr H.
  rewrite <- (app_nil_r r) in H. change (@nil (string * value)) with (markers []) in H.
  apply seal_fields_spec in H; auto.
  destruct H as (R' & -> & HK & Hs & Hu). cbn [app].
  set (F := filter (fun f => truthy (obj_get f r)) fs) in *.
  rewrite fold_left_app, (open_clean_noop (Some k) R') by now rewrite HK.
  assert (HF : forall f, In f F <-> In f fs /\ truthy (obj_get f r) = true)
    by (intros; apply filter_In).
  destruct (open_markers F R') as (R'' & -> & HK' & Ho & Hu').
  - now apply NoDup_filter.
  - intros x Hx. apply Cfs. now apply HF.
  - intros x Hx. apply Hrep. now apply HF.
  - now rewrite HK.
  - intros x Hx. apply HF in Hx. destruct Hx as [Hx Tx].
    destruct (Hs x Hx Tx) as (p & Ep & Ep'). exists (sealed_text k p).
    split; [exact Ep'|].
    apply sealed_text_nonempty, truthy_str. now rewrite <- Ep.
  - apply obj_ext.
    + now rewrite HK', HK.
    + now rewrite HK', HK.
    + intros x. destruct (in_dec string_dec x F) as [Hx|Hx].
      * pose proof Hx as Hx'. apply HF in Hx'. destruct Hx' as [Hin Tx].
        destruct (Hs x Hin Tx) as (p & Ep & Ep').
        rewrite (Ho x _ Hx Ep'), opened_sealed. now rewrite Ep.
      * rewrite Hu' by assumption. apply Hu. intros Hc. apply Hx. now apply HF.
Qed.

End Sealing.

End SealFacts.

(** ** The operations of the vault *)

Module VaultFacts.

Import JS Vault Notions Examples TextFacts CipherFacts Base64Facts ObjectFacts SealFacts.

(** *** The operations, step by step *)

Lemma saveCredentials_unfold st :
  saveCredentials st =
  match masterKey st with
  | Some k => (Ok tt, set_credentialsFile (Some (saved_document k (cache st))) st)
  | None => (Err ("Failed to save credentials: " ++ not_initialized), st)
  end.
Proof.
  unfold saveCredentials, try_catch, bind, gets, lift, modify, throw, encrypt.
  destruct (masterKey st); reflexivity.
Qed.

Lemma setCredentials_unfold service r st :
  setCredentials service r st =
  if String.eqb service "" then
    (Err (set_message service "Service name must be a non-empty string"), st)
  else
    match snd (validateCredentials service r) with
    | Err m => (Err (set_message service m), st)
    | Ok _ =>
        match encryptSensitiveFields (masterKey st) service r with
        | Err m => (Err (set_message service m), st)
        | Ok sealed =>
            let st1 := set_cache (obj_set service (Some sealed) (cache st)) st in
            match masterKey st with
            | Some k =>
                (Ok tt, set_credentialsFile (Some (saved_document k (cache st1))) st1)
            | None =>
                (Err (set_message service
                        ("Failed to save credentials: " ++ not_initialized)), st1)
            end
        end
    end.
Proof.
  unfold setCredentials. unfold try_catch at 1. unfold bind at 1.
  destruct (String.eqb service ""); [reflexivity|]. unfold ret at 1.
  unfold bind at 1, lift at 1.
  destruct (snd (validateCredentials service r)); [|reflexivity].
  unfold bind at 1, gets at 1. unfold bind at 1, lift at 1.
  destruct (encryptSensitiveFields (masterKey st) service r); [|reflexivity].
  unfold bind at 1, modify at 1. rewrite saveCredentials_unfold. cbn.
  destruct (masterKey st); reflexivity.
Qed.

Lemma getCredentials_unfold service st :
  getCredentials service st =
  if obj_has service (cache st) then
    (Ok (decryptSensitiveFields (masterKey st) service (cache_get service (cache st))), st)
  else
    (Err ("Failed to get credentials for " ++ service
          ++ ": No credentials found for service: " ++ service), st).
Proof.
  unfold getCredentials, try_catch, bind, gets, ret, throw.
  destruct (obj_has service (cache st)); reflexivity.
Qed.

Lemma rotateCredentials_unfold now service r st :
  rotateCredentials now service r st =
  match setCredentials service r (rotate_snapshot now service st) with
  | (Ok a, st') => (Ok a, st')
  | (Err m, st') => (Err (rotate_message service m), st')
  end.
Proof.
  unfold rotateCredentials, try_catch, bind, gets, modify, throw, rotate_snapshot.
  destruct (setCredentials _ _ _) as [[a|m] st']; reflexivity.
Qed.

(** [cleanup] empties the cache and forgets the key before its loop and
    its save: the loop finds no entry, the save throws for want of a key,
    and the credentials file stays as it was. *)
Lemma cleanup_unfold now st :
  cleanup now st = (Ok tt, mkState [] None (credentialsFile st) (keyFile st)).
Proof. reflexivity. Qed.

Lemma setCredentials_success service r st st' :
  setCredentials service r st = (Ok tt, st') ->
  exists k sealed,
    masterKey st = Some k
    /\ snd (validateCredentials service r) = Ok tt
    /\ encryptSensitiveFields (Some k) service r = Ok sealed
    /\ st' = mkState (obj_set service (Some sealed) (cache st)) (Some k)
               (Some (saved_document k (obj_set service (Some sealed) (cache st))))
               (keyFile st).
Proof.
  rewrite setCredentials_unfold. destruct (String.eqb service ""); [discriminate|].
  destruct (snd (validateCredentials service r)) as [[]|]; [|discriminate].
  destruct (masterKey st) as [k|] eqn:Ek.
  - destruct (encryptSensitiveFields (Some k) service r) as [sealed|] eqn:Es;
      [|discriminate].
    cbn. injection 1 as <-. exists k, sealed. repeat split; auto.
    unfold set_credentialsFile, set_cache. cbn. now rewrite Ek.
  - destruct (encryptSensitiveFields None service r); cbn; discriminate.
Qed.

Lemma setCredentials_succeeds service r st k sealed :
  masterKey st = Some k -> service <> "" ->
  snd (validateCredentials service r) = Ok tt ->
  encryptSensitiveFields (Some k) service r = Ok sealed ->
  setCredentials service r st =
    (Ok tt, mkState (obj_set service (Some sealed) (cache st)) (Some k)
              (Some (saved_document k (obj_set service (Some sealed) (cache st))))
              (keyFile st)).
Proof.
  intros Ek Hne Hv Es. apply String.eqb_neq in Hne.
  rewrite setCredentials_unfold, Hne, Hv, Ek, Es.
  unfold set_credentialsFile, set_cache. cbn. now rewrite Ek.
Qed.

Lemma rotate_success now service r st st' :
  rotateCredentials now service r st = (Ok tt, st') ->
  setCredentials service r (rotate_snapshot now service st) = (Ok tt, st').
Proof.
  rewrite rotateCredentials_unfold.
  destruct (setCredentials _ _ _) as [[[]|m] st'']; [|discriminate].
  now injection 1 as <-.
Qed.

(** *** Cleanup *)

(** C1.  The vault [aged] holds the live record [github], a backup of it
    that is 31 days old and one that is a day old, and its credentials
    file lists the three.  [cleanup] at [now] empties the cache and
    forgets the key before its loop and its save: the loop finds nothing,
    the save throws, the [catch] swallows the error, and the file is the
    one that was there.  It still lists the backup that is due for
    removal, and it is not the document of the pruned cache. *)
Theorem cleanup_keeps_the_expired_backup :
  keys (cache aged)
  = ["github"; "github_backup_1759449600000"; "github_backup_1762041600000"]
  /\ expired (now - retention) "github" = false
  /\ expired (now - retention) "github_backup_1759449600000" = true
  /\ expired (now - retention) "github_backup_1762041600000" = false
  /\ credentialsFile aged = Some (saved_document key32 (cache aged))
  /\ keys (pruned (now - retention) (cache aged))
     = ["github"; "github_backup_1762041600000"]
  /\ fst (cleanup now aged) = Ok tt
  /\ cache (snd (cleanup now aged)) = []
  /\ masterKey (snd (cleanup now aged)) = None
  /\ credentialsFile (snd (cleanup now aged)) = credentialsFile aged
  /\ credentialsFile (snd (cleanup now aged))
     <> Some (saved_document key32 (pruned (now - retention) (cache aged)))
  /\ (exists file document,
        credentialsFile (snd (cleanup now aged)) = Some file
        /\ decrypt (Some key32) file = Ok document
        /\ includes "github_backup_1759449600000" document = true)
  /\ saveCredentials (set_masterKey None (set_cache [] aged))
     = (Err "Failed to save credentials: Master key not initialized",
        set_masterKey None (set_cache [] aged)).
Proof.
  rewrite cleanup_unfold. cbn [fst snd cache masterKey credentialsFile].
  split; [vm_compute; reflexivity|]. split; [vm_compute; reflexivity|].
  split; [vm_compute; reflexivity|]. split; [vm_compute; reflexivity|].
  split; [vm_compute; reflexivity|]. split; [vm_compute; reflexivity|].
  split; [reflexivity|]. split; [reflexivity|]. split; [reflexivity|].
  split; [reflexivity|]. split; [vm_compute; discriminate|].
  split; [|vm_compute; reflexivity].
  exists (saved_document key32 (cache aged)),
         (JSON_stringify (credentials_object (cache aged))).
  split; [vm_compute; reflexivity|]. split; vm_compute; reflexivity.
Qed.

(** *** Validation *)

Lemma check_required_ok service fields r :
  check_required service fields r = Ok tt <->
  (forall f, In f fields -> truthy (obj_get f r) = true).
Proof.
  induction fields as [|f fields IH]; simpl.
  - split; [intros _ f []|reflexivity].
  - destruct (truthy (obj_get f r)) eqn:T.
    + rewrite IH. split; [intros H x [<-|Hx]; auto|intros H x Hx; apply H; now right].
    + split; [discriminate|]. intros H. rewrite H in T by now left. discriminate.
Qed.

Lemma check_required_names_field service fields r m :
  check_required service fields r = Err m ->
  exists f, In f fields /\ truthy (obj_get f r) = false /\ m = missing_field f service.
Proof.
  induction fields as [|f fields IH]; simpl; [discriminate|].
  destruct (truthy (obj_get f r)) eqn:T.
  - intros H. destruct (IH H) as (x & Hx & Tx & ->). exists x. auto.
  - injection 1 as <-. exists f. auto.
Qed.

(** For a service with rules, validation throws exactly when a required
    field is missing or falsy, and the message names such a field. *)
Lemma validate_known service rs r :
  table_get service validationRules = Own rs ->
  (snd (validateCredentials service r) = Ok tt <->
   forall f, In f (required rs) -> truthy (obj_get f r) = true)
  /\ (forall m, snd (validateCredentials service r) = Err m ->
        exists f, In f (required rs) /\ truthy (obj_get f r) = false
                  /\ m = missing_field f service).
Proof.
  intros H. unfold validateCredentials. rewrite H.
  destruct (check_required service (required rs) r) as [[]|m] eqn:E; cbn [snd].
  - split; [|discriminate]. split; [intros _|reflexivity].
    exact (proj1 (check_required_ok _ _ _) E).
  - split.
    + split; [discriminate|]. intros Hall.
      pose proof (proj2 (check_required_ok service _ _) Hall). congruence.
    + intros m' Hm. injection Hm as <-. eapply check_required_names_field; eauto.
Qed.

(** Fields outside the rules are reported, one warning each, and accepted. *)
Lemma validate_unknown_fields service rs r :
  table_get service validationRules = Own rs ->
  (forall f, In f (required rs) -> truthy (obj_get f r) = true) ->
  validateCredentials service r =
    (map (fun field => "Unknown field '" ++ field ++ "' for service " ++ service)
         (unknown_fields rs r), Ok tt).
Proof.
  intros H Hall. unfold validateCredentials. rewrite H.
  pose proof (proj2 (check_required_ok service _ _) Hall) as E. now rewrite E.
Qed.

(** A service name that the table neither has nor inherits passes, with
    one warning. *)
Lemma validate_no_rules service r :
  table_get service validationRules = Undefined ->
  validateCredentials service r =
    (["No validation rules defined for service: " ++ service], Ok tt).
Proof. intros H. unfold validateCredentials. now rewrite H. Qed.

(** A service name that the table only inherits is rejected, whatever the
    record. *)
Lemma validate_inherited service r :
  table_get service validationRules = Inherited ->
  validateCredentials service r = ([], Err "rules.required is not iterable").
Proof. intros H. unfold validateCredentials. now rewrite H. Qed.

Lemma stripe_examples (st : state) (k : list Z) :
  masterKey st = Some k ->
  setCredentials "stripe" [] st
    = (Err "Failed to set credentials for stripe: Missing required field 'api_key' for stripe",
       st)
  /\ fst (setCredentials "stripe" [("api_key", VStr "sk_x")] st) = Ok tt.
Proof.
  intros Ek. split; [reflexivity|].
  rewrite setCredentials_unfold. cbn -[set_cache set_credentialsFile saved_document].
  now rewrite Ek.
Qed.

(** C6.  The service name [constructor] has no validation rules of its
    own, yet [validateCredentials] does not accept its records: the lookup
    in the table finds the member every object literal inherits, and the
    loop over its absent [required] list throws. *)
Theorem inherited_service_name_rejected :
  obj_has "constructor" validationRules = false
  /\ table_get "constructor" validationRules = Inherited
  /\ validateCredentials "constructor" [] = ([], Err "rules.required is not iterable")
  /\ setCredentials "constructor" [] fresh
     = (Err "Failed to set credentials for constructor: rules.required is not iterable",
        fresh).
Proof. vm_compute. repeat split; reflexivity. Qed.

Lemma validate_error_nonempty service r m :
  snd (validateCredentials service r) = Err m -> String.eqb service "" = false.
Proof.
  destruct (String.eqb_spec service "") as [->|]; [|reflexivity].
  discriminate.
Qed.

(** C2, as amended.  When the record fails validation, [setCredentials]
    throws and leaves the whole state as it was; [rotateCredentials] throws
    too and leaves the key and both files as they were, but the cache keeps
    the snapshot taken before the validation: the entry
    [<service>_backup_<now>], bound to the record the service had. *)
Theorem validation_failure_effects (st : state) (now : Z) (service : string)
    (r : record) (m : string) :
  snd (validateCredentials service r) = Err m ->
  setCredentials service r st = (Err (set_message service m), st)
  /\ rotateCredentials now service r st
     = (Err (rotate_message service (set_message service m)),
        mkState (obj_set (backupKey service now) (cache_get service (cache st)) (cache st))
                (masterKey st) (credentialsFile st) (keyFile st)).
Proof.
  intros H. pose proof (validate_error_nonempty _ _ _ H) as Hs.
  assert (E : forall st0, setCredentials service r st0 = (Err (set_message service m), st0)).
  { intros st0. rewrite setCredentials_unfold, Hs, H. reflexivity. }
  split; [apply E|]. now rewrite rotateCredentials_unfold, E.
Qed.

Lemma validation_failure_effects_witness :
  setCredentials "stripe" [] with_stripe
    = (Err (set_message "stripe" (missing_field "api_key" "stripe")), with_stripe)
  /\ rotateCredentials now "stripe" [] with_stripe
     = (Err (rotate_message "stripe"
               (set_message "stripe" (missing_field "api_key" "stripe"))),
        mkState (obj_set (backupKey "stripe" now)
                   (cache_get "stripe" (cache with_stripe)) (cache with_stripe))
                (masterKey with_stripe) (credentialsFile with_stripe)
                (keyFile with_stripe)).
Proof.
  apply (validation_failure_effects with_stripe now "stripe" []
           (missing_field "api_key" "stripe")).
  reflexivity.
Defined.

(** C2 as it is stated fails for [rotateCredentials]: the empty record
    fails validation for [stripe], and the cache has an entry more after
    the call than before. *)
Lemma rotation_keeps_the_snapshot :
  snd (validateCredentials "stripe" []) = Err (missing_field "api_key" "stripe")
  /\ keys (cache with_stripe) = ["stripe"]
  /\ keys (cache (snd (rotateCredentials now "stripe" [] with_stripe)))
     = ["stripe"; "stripe_backup_1762128000000"]
  /\ cache (snd (rotateCredentials now "stripe" [] with_stripe)) <> cache with_stripe.
Proof. vm_compute. repeat split; try reflexivity. discriminate. Qed.

(** *** Storing and reading back *)

Lemma get_after_set service fs r st st' :
  table_get service sensitiveFields = Own fs ->
  NoDup (keys r) -> clean (keys r) ->
  setCredentials service r st = (Ok tt, st') ->
  getCredentials service st' = (Ok r, st').
Proof.
  intros Hfs ND Cr H. apply setCredentials_success in H.
  destruct H as (k & sealed & Ek & _ & Es & ->).
  rewrite getCredentials_unfold. cbn [cache masterKey].
  rewrite obj_has_set. unfold cache_get. rewrite obj_get_set_eq.
  unfold decryptSensitiveFields. cbn [spread].
  unfold encryptSensitiveFields in Es. rewrite Hfs in Es.
  now rewrite (open_seal k fs r sealed) by eauto using sensitive_table_ok.
Qed.

Lemma schema_record_clean service rs (r : record) :
  table_get service validationRules = Own rs ->
  incl (keys r) (allowed rs) -> clean (keys r).
Proof. intros Hrs Hincl f Hf. apply (rules_table_clean _ _ Hrs). now apply Hincl. Qed.




(** *** What the credentials file holds *)




(** *** Rotation *)

Lemma insert_sorted_In x k l : In x (insert_sorted k l) <-> x = k \/ In x l.
Proof.
  induction l as [|k' l IH]; simpl; [intuition|].
  destruct (code_units_leb k k'); simpl; [intuition|]. rewrite IH. intuition.
Qed.

(** [listServices] lists the keys of the cache, each of them. *)
Lemma sort_In x l : In x (sort l) <-> In x l.
Proof.
  induction l as [|k l IH]; simpl; [tauto|].
  rewrite insert_sorted_In, IH. intuition.
Qed.

Lemma backupKey_fresh service now : backupKey service now <> service.
Proof.
  unfold backupKey. intros E. apply (f_equal String.length) in E.
  rewrite !append_length in E. simpl in E. lia.
Qed.




Lemma plain_get r f v :
  plain r = true -> obj_get f r = Some v -> exists s, v = VStr s.
Proof.
  unfold plain. rewrite forallb_forall. intros Hp Hg.
  apply obj_get_In_pair in Hg. specialize (Hp _ Hg). cbn [snd] in Hp.
  destruct v as [s|b]; [eauto|discriminate].
Qed.

Lemma encrypt_fields_plain k service r :
  snd (validateCredentials service r) = Ok tt -> plain r = true ->
  exists sealed, encryptSensitiveFields (Some k) service r = Ok sealed.
Proof.
  intros Hv Hp. unfold encryptSensitiveFields.
  destruct (table_get service sensitiveFields) as [fs| |] eqn:E.
  - destruct (sensitive_table_ok _ _ E) as (_ & Cfs & _).
    apply seal_fields_plain; [assumption|]. intros f v _. now apply plain_get.
  - exfalso. unfold validateCredentials in Hv.
    assert (E' : table_get service validationRules = Inherited).
    { unfold table_get in *.
      destruct (obj_get service sensitiveFields) eqn:G; [discriminate|].
      apply obj_get_None in G. rewrite tables_same_keys in G. apply obj_get_None in G.
      rewrite G. destruct (inherited service); [reflexivity|discriminate]. }
    rewrite E' in Hv. discriminate.
  - now exists r.
Qed.

(** Sealing does not throw when no sensitive field holds a boolean. *)
Lemma encrypt_fields_text k service r :
  snd (validateCredentials service r) = Ok tt -> secrets_are_text service r ->
  exists sealed, encryptSensitiveFields (Some k) service r = Ok sealed.
Proof.
  intros Hv Hp. unfold encryptSensitiveFields.
  destruct (table_get service sensitiveFields) as [fs| |] eqn:E.
  - destruct (sensitive_table_ok _ _ E) as (_ & Cfs & _).
    apply seal_fields_plain; [assumption|]. intros f v Hf Hg.
    destruct v as [s|b]; [eauto|]. exfalso. exact (Hp fs f b E Hf Hg).
  - exfalso. unfold validateCredentials in Hv.
    assert (E' : table_get service validationRules = Inherited).
    { unfold table_get in *.
      destruct (obj_get service sensitiveFields) eqn:G; [discriminate|].
      apply obj_get_None in G. rewrite tables_same_keys in G. apply obj_get_None in G.
      rewrite G. destruct (inherited service); [reflexivity|discriminate]. }
    rewrite E' in Hv. discriminate.
  - now exists r.
Qed.




End VaultFacts.

(** ** Reading through references *)

Module HeapFacts.

Import JS Vault Heap Notions Examples ObjectFacts VaultFacts.

Lemma update_length a f h : List.length (update a f h) = List.length h.
Proof. revert a; induction h as [|o h IH]; intros [|a]; simpl; auto. Qed.

Lemma update_other a a' f h : a <> a' -> nth_error (update a f h) a' = nth_error h a'.
Proof.
  revert a a'. induction h as [|o h IH]; intros [|a] [|a'] Hne; simpl; auto;
    try congruence.
Qed.

Lemma update_same a f h o :
  nth_error h a = Some o -> nth_error (update a f h) a = Some (f o).
Proof.
  revert a. induction h as [|o' h IH]; intros [|a]; simpl; try discriminate.
  - now injection 1 as ->.
  - apply IH.
Qed.

Section Loop.

Variables (k : option (list Z)) (a : ref).

(** The loop writes to no object but the one at [a]. *)
Lemma loop_other : forall entries h a',
  a <> a' -> nth_error (fold_left (turn k a) entries h) a' = nth_error h a'.
Proof.
  induction entries as [|e entries IH]; intros h a' Hne; simpl; [reflexivity|].
  rewrite IH by assumption. now apply update_other.
Qed.

(** On the object at [a] the loop does what the loop on values does. *)
Lemma loop_same : forall entries h o,
  nth_error h a = Some o ->
  nth_error (fold_left (turn k a) entries h) a
  = Some (fold_left (open_entry k) entries o).
Proof.
  induction entries as [|e entries IH]; intros h o Ho; simpl; [exact Ho|].
  apply IH. unfold turn. now apply (update_same a (fun o => open_entry k o e)).
Qed.

Lemma loop_length : forall entries h,
  List.length (fold_left (turn k a) entries h) = List.length h.
Proof.
  induction entries as [|e entries IH]; intros h; simpl; [reflexivity|].
  rewrite IH. apply update_length.
Qed.

End Loop.

Lemma decrypt_on_references k service cred h :
  let (h', result) := decryptSensitiveFields_at k service cred h in
  result = List.length h
  /\ List.length h' = S (List.length h)
  /\ (forall a, (a < List.length h)%nat -> nth_error h' a = nth_error h a)
  /\ nth_error h' result = Some (decryptSensitiveFields k service (deref h cred)).
Proof.
  unfold decryptSensitiveFields_at, alloc.
  assert (E : nth_error (h ++ [spread (deref h cred)]) (List.length h)
              = Some (spread (deref h cred))).
  { rewrite nth_error_app2, Nat.sub_diag by lia. reflexivity. }
  rewrite E. cbn [spread]. split; [reflexivity|]. split; [|split].
  - rewrite loop_length, length_app. simpl. lia.
  - intros a Ha. rewrite loop_other by lia. now apply nth_error_app1.
  - erewrite loop_same by exact E. reflexivity.
Qed.

Lemma deref_grows h h' cred :
  (forall a, (a < List.length h)%nat -> nth_error h' a = nth_error h a) ->
  (forall a, cred = Some a -> (a < List.length h)%nat) ->
  deref h' cred = deref h cred.
Proof. intros Hh Hc. destruct cred as [a|]; simpl; auto. Qed.

Lemma obj_get_view st service :
  obj_get service (view st) = option_map (deref (store st)) (obj_get service (refs st)).
Proof.
  unfold view. induction (refs st) as [|[s r] c IH]; simpl; [reflexivity|].
  destruct (String.eqb service s); [reflexivity|exact IH].
Qed.

Lemma view_grows st h' :
  wf st ->
  (forall a, (a < List.length (store st))%nat -> nth_error h' a = nth_error (store st) a) ->
  view (mkRefState h' (refs st) (key st)) = view st.
Proof.
  intros Hwf Hh. unfold view. cbn [store refs]. apply map_ext_in.
  intros [s [a|]] Hin; cbn [fst snd deref]; [|reflexivity].
  f_equal. apply Hh. eapply Hwf; eauto.
Qed.

Lemma getCredentials_on_references st service :
  obj_has service (refs st) = true ->
  exists h',
    getCredentials_at service st
      = (Ok (List.length (store st)), mkRefState h' (refs st) (key st))
    /\ List.length h' = S (List.length (store st))
    /\ (forall a, (a < List.length (store st))%nat -> nth_error h' a = nth_error (store st) a)
    /\ nth_error h' (List.length (store st))
       = Some (decryptSensitiveFields (key st) service
                 (deref (store st) (refs_get service (refs st)))).
Proof.
  intros Hhas. unfold getCredentials_at. rewrite Hhas. cbn [negb].
  pose proof (decrypt_on_references (key st) service
                (refs_get service (refs st)) (store st)) as D.
  destruct (decryptSensitiveFields_at _ _ _ _) as [h1 a1].
  destruct D as (-> & L1 & F1 & R1). exists h1. auto.
Qed.

(** C9.  Reading a stored service twice returns two distinct objects
    [a1] and [a2] that hold the same record [r]; the first read leaves the
    bindings of the cache and every object that was in the store (the
    sealed record among them) as they were, so the cache shows the same
    records afterwards; and [r] is what [getCredentials] returns on those
    records. *)
Theorem reading_keeps_the_store (st : refstate) (service : string) :
  wf st -> obj_has service (refs st) = true ->
  exists a1 st1 a2 st2 r,
    getCredentials_at service st = (Ok a1, st1)
    /\ getCredentials_at service st1 = (Ok a2, st2)
    /\ refs st1 = refs st
    /\ (forall a o, nth_error (store st) a = Some o -> nth_error (store st1) a = Some o)
    /\ view st1 = view st
    /\ a1 <> a2
    /\ nth_error (store st2) a1 = Some r
    /\ nth_error (store st2) a2 = Some r
    /\ getCredentials service (mkState (view st) (key st) None None)
       = (Ok r, mkState (view st) (key st) None None).
Proof.
  intros Hwf Hhas.
  set (cred := refs_get service (refs st)).
  assert (Hcred : forall a, cred = Some a -> (a < List.length (store st))%nat).
  { intros a Ha. apply (Hwf service). apply obj_get_In_pair.
    unfold cred, refs_get in Ha. destruct (obj_get service (refs st)) as [x|]; congruence. }
  destruct (getCredentials_on_references st service Hhas) as (h1 & E1 & L1 & F1 & R1).
  destruct (getCredentials_on_references (mkRefState h1 (refs st) (key st)) service Hhas)
    as (h2 & E2 & L2 & F2 & R2).
  cbn [refs store key] in *. fold cred in R1, R2.
  rewrite (deref_grows (store st) h1 cred F1 Hcred) in R2.
  do 5 eexists. split; [exact E1|]. split; [exact E2|].
  cbn [refs store key].
  split; [reflexivity|]. split.
  { intros a o Ha. rewrite F1; [exact Ha|]. apply nth_error_Some. congruence. }
  split; [now apply view_grows|]. split; [lia|].
  split; [rewrite F2 by lia; exact R1|]. split; [exact R2|].
  rewrite getCredentials_unfold. cbn [cache masterKey].
  unfold obj_has, cache_get. rewrite obj_get_view.
  unfold obj_has in Hhas. unfold cred, refs_get.
  destruct (obj_get service (refs st)) as [x|]; [reflexivity|discriminate].
Qed.

Lemma reading_keeps_the_store_witness :
  exists a1 st1 a2 st2 r,
    getCredentials_at "github" one_object = (Ok a1, st1)
    /\ getCredentials_at "github" st1 = (Ok a2, st2)
    /\ refs st1 = refs one_object
    /\ (forall a o, nth_error (store one_object) a = Some o
                    -> nth_error (store st1) a = Some o)
    /\ view st1 = view one_object
    /\ a1 <> a2
    /\ nth_error (store st2) a1 = Some r
    /\ nth_error (store st2) a2 = Some r
    /\ getCredentials "github" (mkState (view one_object) (key one_object) None None)
       = (Ok r, mkState (view one_object) (key one_object) None None).
Proof.
  apply (reading_keeps_the_store one_object "github").
  - intros service a [H|[]]. injection H as _ <-. simpl. lia.
  - reflexivity.
Defined.

End HeapFacts.

(** ** The XOR stream and the key file *)

Module StreamFacts.

Import JS Vault Persistence Notions Examples Predicates Samples.
Import CipherFacts Base64Facts ObjectFacts SealFacts VaultFacts.

Lemma xor_stream_nth key data j :
  (j < List.length data)%nat ->
  nth j (xor_stream key data) 0 = to_uint8 (Z.lxor (nth j data 0) (key_byte key j)).
Proof. intros H. unfold xor_stream. now rewrite xor_from_nth. Qed.

Lemma lxor_to_uint8_byte a k : is_byte a ->
  Z.lxor (to_uint8 (Z.lxor a k)) a = to_uint8 k.
Proof.
  intros Ha. rewrite to_uint8_lxor, (to_uint8_byte a Ha).
  rewrite (Z.lxor_comm a), Z.lxor_assoc, Z.lxor_nilpotent. apply Z.lxor_0_r.
Qed.



(** X2.  Under one key, the XOR of the ciphertexts of two texts is, byte by
    byte, the XOR of the two texts: the key stream starts anew at every
    call of [encrypt]. *)
Theorem keystream_reuse (k : list Z) (p1 p2 : string) (c1 c2 : list Z) (j : nat) :
  encrypt (Some k) (VStr p1) = Ok c1 ->
  encrypt (Some k) (VStr p2) = Ok c2 ->
  (j < String.length p1)%nat -> (j < String.length p2)%nat ->
  Z.lxor (nth j c1 0) (nth j c2 0)
  = Z.lxor (nth j (Buffer_from_utf8 p1) 0) (nth j (Buffer_from_utf8 p2) 0).
Proof.
  intros H1 H2 J1 J2. injection H1 as <-. injection H2 as <-.
  rewrite !xor_stream_nth by now rewrite Buffer_from_utf8_length.
  rewrite <- to_uint8_lxor.
  replace (Z.lxor (Z.lxor (nth j (Buffer_from_utf8 p1) 0) (key_byte k j))
                  (Z.lxor (nth j (Buffer_from_utf8 p2) 0) (key_byte k j)))
    with (Z.lxor (nth j (Buffer_from_utf8 p1) 0) (nth j (Buffer_from_utf8 p2) 0)).
  - apply to_uint8_byte, lxor_is_byte; apply Forall_nth_byte, Buffer_from_utf8_is_byte.
  - rewrite Z.lxor_assoc, (Z.lxor_comm (key_byte k j)), Z.lxor_assoc,
      Z.lxor_nilpotent, Z.lxor_0_r. reflexivity.
Qed.

Lemma keystream_reuse_witness :
  Z.lxor (nth 2 (xor_stream key32 (Buffer_from_utf8 "sk_x")) 0)
         (nth 2 (xor_stream key32 (Buffer_from_utf8 "ghp_old")) 0)
  = Z.lxor (nth 2 (Buffer_from_utf8 "sk_x") 0) (nth 2 (Buffer_from_utf8 "ghp_old") 0).
Proof.
  apply (keystream_reuse key32 "sk_x" "ghp_old"); try reflexivity; simpl; lia.
Defined.

Lemma key_byte_combined_salt fp salt j :
  List.length fp = 32%nat -> List.length salt = 32%nat -> (16 <= j < 32)%nat ->
  key_byte (combinedKey fp salt) j = nth (j - 16) salt 0.
Proof.
  intros Hf Hs Hj. unfold key_byte.
  pose proof (combinedKey_length fp salt Hf Hs) as Hl.
  destruct (combinedKey fp salt) eqn:E; [discriminate|].
  rewrite Hl, Nat.mod_small, <- E by lia.
  unfold combinedKey. rewrite app_nth2 by (rewrite length_firstn; lia).
  rewrite length_firstn, Hf, nth_firstn. simpl Nat.min.
  now destruct (Nat.ltb_spec (j - 16) 16); [|lia].
Qed.

(** X3.  The bytes 16 to 31 of the master key are wrapped with the salt
    alone, and the salt is stored in the key file: each of them is the XOR
    of two bytes of the file, and [decryptMasterKey] returns it under every
    machine identifier. *)
Theorem half_of_the_key_in_the_file (fp salt key : list Z) (j : nat) :
  List.length fp = 32%nat -> List.length salt = 32%nat -> List.length key = 32%nat ->
  Forall is_byte salt -> Forall is_byte key ->
  (16 <= j < 32)%nat ->
  let file := encryptMasterKey fp salt key in
  nth j key 0 = Z.lxor (nth (32 + j) file 0) (nth (j - 16) file 0)
  /\ forall fp', List.length fp' = 32%nat ->
       nth j (decryptMasterKey fp' file) 0 = nth j key 0.
Proof.
  intros Hf Hs Hk Bs Bk Hj file. subst file.
  pose proof (Forall_nth_byte key j Bk) as Bkj.
  pose proof (Forall_nth_byte salt (j - 16) Bs) as Bsj.
  split.
  - unfold encryptMasterKey.
    rewrite app_nth2 by lia. rewrite Hs. replace (32 + j - 32)%nat with j by lia.
    rewrite app_nth1 by lia.
    rewrite xor_from_nth by lia. simpl (0 + j)%nat.
    rewrite key_byte_combined_salt by assumption.
    rewrite to_uint8_byte by now apply lxor_is_byte.
    now rewrite Z.lxor_assoc, Z.lxor_nilpotent, Z.lxor_0_r.
  - intros fp' Hf'. unfold decryptMasterKey, encryptMasterKey.
    rewrite firstn_salt, skipn_salt by assumption.
    rewrite xor_from_nth by (rewrite xor_from_length; lia).
    rewrite xor_from_nth by lia. simpl (0 + j)%nat.
    rewrite !key_byte_combined_salt by assumption.
    now apply xor_byte_cancel.
Qed.

Lemma half_of_the_key_in_the_file_witness :
  let file := encryptMasterKey fp_a wrapped_salt wrapped_key in
  nth 16 wrapped_key 0 = Z.lxor (nth (32 + 16) file 0) (nth (16 - 16) file 0)
  /\ forall fp', List.length fp' = 32%nat ->
       nth 16 (decryptMasterKey fp' file) 0 = nth 16 wrapped_key 0.
Proof.
  apply (half_of_the_key_in_the_file fp_a wrapped_salt wrapped_key 16);
    try reflexivity; try lia.
  - apply bytes_upto. lia.
  - apply bytes_upto. lia.
Defined.



End StreamFacts.

(** ** Reading a stored record *)

Module RecordFacts.

Import JS Vault Persistence Notions Examples Predicates Samples.
Import CipherFacts Base64Facts ObjectFacts SealFacts VaultFacts.

Section MoreObjects.
Context {A : Type}.
Implicit Types (o : object A) (k : string) (v : A).

Lemma obj_get_delete_neq k k' o : k <> k' -> obj_get k (obj_delete k' o) = obj_get k o.
Proof.
  intros Hne. induction o as [|[k2 v2] o IH]; simpl; [reflexivity|].
  destruct (String.eqb_spec k' k2) as [->|Hne2]; simpl.
  - destruct (String.eqb_spec k k2); [contradiction|reflexivity].
  - destruct (String.eqb_spec k k2); [reflexivity|exact IH].
Qed.

Lemma keys_delete_incl k o x : In x (keys (obj_delete k o)) -> In x (keys o).
Proof.
  induction o as [|[k2 v2] o IH]; simpl; [tauto|].
  destruct (String.eqb_spec k k2) as [->|Hne]; simpl; [tauto|]. intuition.
Qed.

Lemma keys_delete_nodup k o : NoDup (keys o) -> NoDup (keys (obj_delete k o)).
Proof.
  induction o as [|[k2 v2] o IH]; simpl; [auto|].
  intros ND. inversion_clear ND as [|? ? Hn ND'].
  destruct (String.eqb_spec k k2) as [->|Hne]; simpl; [assumption|].
  constructor; [|auto]. intros Hin. apply Hn. eapply keys_delete_incl; eauto.
Qed.

Lemma obj_get_delete_eq k o : NoDup (keys o) -> obj_get k (obj_delete k o) = None.
Proof.
  induction o as [|[k2 v2] o IH]; simpl; [reflexivity|].
  intros ND. inversion_clear ND as [|? ? Hn ND'].
  destruct (String.eqb_spec k k2) as [->|Hne]; simpl.
  - now apply obj_get_None.
  - destruct (String.eqb_spec k k2); [contradiction|auto].
Qed.

Lemma obj_delete_set_notin k v o : ~ In k (keys o) -> obj_delete k (obj_set k v o) = o.
Proof.
  induction o as [|[k2 v2] o IH]; simpl.
  - now rewrite String.eqb_refl.
  - intros H. destruct (String.eqb_spec k k2) as [->|Hne]; [tauto|].
    simpl. destruct (String.eqb_spec k k2); [contradiction|]. f_equal. apply IH. tauto.
Qed.

Lemma keys_set_incl k v o x : In x (keys (obj_set k v o)) -> x = k \/ In x (keys o).
Proof.
  induction o as [|[k2 v2] o IH]; simpl; [intuition|].
  destruct (String.eqb_spec k k2) as [->|Hne]; simpl; intuition.
Qed.

Lemma keys_set_nodup k v o : NoDup (keys o) -> NoDup (keys (obj_set k v o)).
Proof.
  induction o as [|[k2 v2] o IH]; simpl; intros ND.
  - repeat constructor. simpl. tauto.
  - inversion_clear ND as [|? ? Hn ND'].
    destruct (String.eqb_spec k k2) as [->|Hne]; simpl; constructor; auto.
    intros Hin. apply keys_set_incl in Hin. destruct Hin as [->|Hin]; auto.
Qed.
End MoreObjects.

Lemma value_eqb_true v : value_eqb v (VBool true) = true <-> v = VBool true.
Proof. destruct v as [s|[|]]; simpl; split; congruence. Qed.

Lemma open_entry_unmarked key res e : marked e = false -> open_entry key res e = res.
Proof. destruct e as [f v]. unfold marked, open_entry. cbn [fst snd]. now intros ->. Qed.

Lemma open_entry_marked key res f :
  endsWith "_encrypted" f = true ->
  exists res1,
    open_entry key res (f, VBool true) = obj_delete f res1
    /\ keys res1 = keys res
    /\ forall x, obj_get x res1 = obj_get x res \/ exists s, obj_get x res1 = Some (VStr s).
Proof.
  intros Hf. unfold open_entry. rewrite Hf. cbn [value_eqb Bool.eqb andb].
  set (a := replace "_encrypted" "" f).
  assert (Same : exists res1, obj_delete f res = obj_delete f res1
            /\ keys res1 = keys res
            /\ forall x, obj_get x res1 = obj_get x res
                         \/ exists s, obj_get x res1 = Some (VStr s))
    by (exists res; auto).
  destruct (obj_get a res) as [[s|b]|] eqn:Ea; try exact Same.
  destruct (truthy (Some (VStr s))); [|exact Same].
  destruct (decrypt key (Buffer_from_base64 s)) as [plain|]; [|exact Same].
  exists (obj_set a (VStr plain) res). split; [reflexivity|]. split.
  - apply keys_set_in. eapply obj_get_In; eauto.
  - intros x. destruct (string_dec x a) as [->|Hne].
    + right. exists plain. apply obj_get_set_eq.
    + left. now apply obj_get_set_neq.
Qed.

Lemma open_entry_invariant key res e rest :
  no_marker_but res (e :: rest) -> no_marker_but (open_entry key res e) rest.
Proof.
  intros [ND H]. destruct (marked e) eqn:M.
  - destruct e as [g v]. unfold marked in M. cbn [fst snd] in M.
    apply andb_true_iff in M. destruct M as [Hg Hv]. apply value_eqb_true in Hv. subst v.
    destruct (open_entry_marked key res g Hg) as (res1 & -> & HK & Hx).
    assert (ND1 : NoDup (keys res1)) by now rewrite HK.
    split; [now apply keys_delete_nodup|].
    intros f Hf Hget.
    assert (f <> g) by (intros ->; rewrite obj_get_delete_eq in Hget by assumption; discriminate).
    rewrite obj_get_delete_neq in Hget by assumption.
    destruct (Hx f) as [E|(s & E)]; [|congruence].
    rewrite E in Hget. destruct (H f Hf Hget) as [Eq|I]; [congruence|exact I].
  - rewrite open_entry_unmarked by assumption. split; [assumption|].
    intros f Hf Hget. destruct (H f Hf Hget) as [Eq|I]; [|exact I].
    subst e. unfold marked in M. cbn [fst snd] in M. rewrite Hf in M. discriminate.
Qed.

Lemma open_loop_invariant key : forall entries res,
  no_marker_but res entries -> no_marker_but (fold_left (open_entry key) entries res) [].
Proof.
  induction entries as [|e entries IH]; intros res H; [exact H|].
  cbn [fold_left]. apply IH. now apply open_entry_invariant.
Qed.

(** X5.  Whatever record is stored for a service, the record that
    [getCredentials] returns has no field whose name ends with [_encrypted]
    and whose value is [true]. *)
Theorem read_exposes_no_marker (st : state) (service f : string) (stored result : record) :
  obj_get service (cache st) = Some (Some stored) ->
  NoDup (keys stored) ->
  getCredentials service st = (Ok result, st) ->
  endsWith "_encrypted" f = true ->
  obj_get f result <> Some (VBool true).
Proof.
  intros Hs ND Hget Hf E. rewrite getCredentials_unfold in Hget.
  unfold obj_has, cache_get in Hget. rewrite Hs in Hget. injection Hget as <-.
  unfold decryptSensitiveFields in E. cbn [spread] in E.
  destruct (open_loop_invariant (masterKey st) stored stored) as [_ H].
  - split; [assumption|]. intros x _. apply obj_get_In_pair.
  - exact (H f Hf E).
Qed.

Lemma read_exposes_no_marker_witness :
  obj_get "api_key_encrypted" [("api_key", VStr "sk_x")] <> Some (VBool true).
Proof.
  apply (read_exposes_no_marker with_stripe "stripe" "api_key_encrypted" sealed_stripe).
  - vm_compute. reflexivity.
  - repeat constructor; simpl; intuition discriminate.
  - vm_compute. reflexivity.
  - reflexivity.
Defined.

Lemma open_unmarked_noop key : forall entries acc,
  forallb (fun e => negb (marked e)) entries = true ->
  fold_left (open_entry key) entries acc = acc.
Proof.
  induction entries as [|e entries IH]; intros acc H; [reflexivity|].
  cbn [forallb] in H. apply andb_true_iff in H. destruct H as [He H].
  cbn [fold_left]. rewrite open_entry_unmarked by now apply negb_true_iff.
  now apply IH.
Qed.

(** X6.  A stored record without a marker (no field whose name ends with
    [_encrypted] and whose value is [true]) is returned by [getCredentials]
    as it is stored, whatever the master key. *)
Theorem unmarked_records_read_as_stored (st : state) (service : string) (stored : record) :
  obj_get service (cache st) = Some (Some stored) ->
  forallb (fun e => negb (marked e)) stored = true ->
  getCredentials service st = (Ok stored, st).
Proof.
  intros Hs Hm. rewrite getCredentials_unfold. unfold obj_has, cache_get. rewrite Hs.
  unfold decryptSensitiveFields. cbn [spread]. now rewrite open_unmarked_noop.
Qed.

Lemma unmarked_records_read_as_stored_witness :
  getCredentials "custom" custom = (Ok [("url", VStr "https://example.org")], custom).
Proof.
  apply (unmarked_records_read_as_stored custom "custom"); reflexivity.
Defined.

(** Sealing leaves the other fields alone, under any key. *)
Lemma seal_fields_frame key : forall fs res sealed x,
  seal_fields key fs res = Ok sealed ->
  ~ In x fs -> (forall f, In f fs -> x <> marker f) ->
  obj_get x sealed = obj_get x res.
Proof.
  induction fs as [|f fs IH]; intros res sealed x H Hx Hm.
  - now injection H as <-.
  - cbn [seal_fields] in H.
    assert (Hx' : ~ In x fs) by (intros I; apply Hx; now right).
    assert (Hm' : forall f', In f' fs -> x <> marker f') by (intros; apply Hm; now right).
    assert (x <> f) by (intros ->; apply Hx; now left).
    assert (x <> marker f) by (apply Hm; now left).
    destruct (obj_get f res) as [v|]; [|eauto].
    destruct (truthy (Some v)); [|eauto].
    destruct (encrypt key v); [|discriminate].
    rewrite (IH _ _ x H Hx' Hm'). now rewrite !obj_get_set_neq.
Qed.

Lemma seal_fields_keeps_keys key : forall fs res sealed x,
  seal_fields key fs res = Ok sealed -> In x (keys res) -> In x (keys sealed).
Proof.
  induction fs as [|f fs IH]; intros res sealed x H Hx.
  - now injection H as <-.
  - cbn [seal_fields] in H.
    destruct (obj_get f res) as [v|]; [|eauto].
    destruct (truthy (Some v)); [|eauto].
    destruct (encrypt key v); [|discriminate].
    eapply IH; eauto. now do 2 apply keys_set_keeps.
Qed.

(** X7.  For a service with rules, [encryptSensitiveFields] leaves every
    declared field that is not in the list of sensitive fields as it is in
    the record, under any key. *)
Theorem other_fields_pass_through (key : option (list Z)) (service : string)
    (rs : rules) (fs : list string) (r sealed : record) (x : string) :
  table_get service validationRules = Own rs ->
  table_get service sensitiveFields = Own fs ->
  encryptSensitiveFields key service r = Ok sealed ->
  In x (allowed rs) -> ~ In x fs ->
  obj_get x sealed = obj_get x r.
Proof.
  intros Hrs Hfs H Hx Hn. unfold encryptSensitiveFields in H. rewrite Hfs in H.
  eapply seal_fields_frame; eauto.
  intros f _. apply (clean_not_marker (allowed rs)); [|assumption].
  now apply (rules_table_clean service).
Qed.

Lemma other_fields_pass_through_witness :
  obj_get "environment"
    [("api_key", VStr (sealed_text key32 "sk_x")); ("environment", VStr "test");
     ("api_key_encrypted", VBool true)]
  = obj_get "environment" [("api_key", VStr "sk_x"); ("environment", VStr "test")].
Proof.
  apply (other_fields_pass_through (Some key32) "stripe" stripe_rules
           ["api_key"; "webhook_secret"]).
  - reflexivity.
  - reflexivity.
  - vm_compute. reflexivity.
  - simpl. tauto.
  - simpl. intuition discriminate.
Defined.

End RecordFacts.

(** ** The operations on the cache *)

Module StoreFacts.

Import JS Vault Persistence Notions Examples Predicates Samples.
Import TextFacts CipherFacts Base64Facts ObjectFacts SealFacts VaultFacts RecordFacts.

Lemma setCredentials_other (st : state) (service other : string) (r : record) :
  other <> service ->
  obj_get other (cache (snd (setCredentials service r st))) = obj_get other (cache st).
Proof.
  intros Hne. rewrite setCredentials_unfold.
  destruct (String.eqb service ""); [auto|].
  destruct (snd (validateCredentials service r)); [|auto].
  destruct (encryptSensitiveFields (masterKey st) service r); [|auto].
  cbv zeta. destruct (masterKey st) eqn:Ek; cbn;
    rewrite ?Ek, obj_get_set_neq by assumption; auto.
Qed.

(** X8.  Whether it returns or throws, [setCredentials] for one service
    leaves the cache entry of every other service, the master key and the
    key file as they are. *)
Theorem setCredentials_frame (st : state) (service other : string) (r : record) :
  other <> service ->
  let st' := snd (setCredentials service r st) in
  obj_get other (cache st') = obj_get other (cache st)
  /\ masterKey st' = masterKey st
  /\ keyFile st' = keyFile st.
Proof.
  intros Hne st'. subst st'. rewrite setCredentials_unfold.
  destruct (String.eqb service ""); [auto|].
  destruct (snd (validateCredentials service r)); [|auto].
  destruct (encryptSensitiveFields (masterKey st) service r); [|auto].
  cbv zeta. destruct (masterKey st) eqn:Ek; cbn;
    rewrite ?Ek, obj_get_set_neq by assumption; auto.
Qed.

Lemma setCredentials_frame_witness :
  let st' := snd (setCredentials "stripe" [("api_key", VStr "sk_x")] with_github) in
  obj_get "github" (cache st') = obj_get "github" (cache with_github)
  /\ masterKey st' = masterKey with_github
  /\ keyFile st' = keyFile with_github.
Proof.
  apply (setCredentials_frame with_github "stripe" "github"). discriminate.
Defined.

Lemma seal_fields_without_key : forall fs res f,
  In f fs -> truthy (obj_get f res) = true -> clean fs -> NoDup fs ->
  seal_fields None fs res = Err not_initialized.
Proof.
  induction fs as [|f0 fs IH]; intros res f Hin T Cfs ND; [destruct Hin|].
  cbn [seal_fields]. inversion_clear ND as [|? ? Hn ND'].
  destruct Hin as [->|Hin].
  - destruct (obj_get f res) as [v|]; [|discriminate]. now rewrite T.
  - destruct (obj_get f0 res) as [v|]; [|eapply IH; eauto using clean_tail].
    destruct (truthy (Some v)); [reflexivity|eapply IH; eauto using clean_tail].
Qed.

(** Every service with rules has a required field that is sensitive. *)
Lemma required_sensitive_field service rs :
  table_get service validationRules = Own rs ->
  exists fs f, table_get service sensitiveFields = Own fs /\ In f fs /\ In f (required rs).
Proof.
  unfold table_get. destruct (obj_get service validationRules) as [r'|] eqn:E.
  - intros H. injection H as ->. apply obj_get_In_pair in E. unfold validationRules in E.
    in_cases E; injection E as <- <-; eexists; eexists;
      (split; [reflexivity|]); simpl; tauto.
  - destruct (inherited service); discriminate.
Qed.

(** X9.  Without a master key, [setCredentials] for a service with rules
    throws and leaves the whole state unchanged, whatever the record: a
    record that passes validation has a sensitive field to seal, and
    sealing throws. *)
Theorem uninitialized_known_service_untouched (st : state) (service : string)
    (rs : rules) (r : record) :
  masterKey st = None ->
  table_get service validationRules = Own rs ->
  exists m, setCredentials service r st = (Err m, st).
Proof.
  intros Ek Hrs. rewrite setCredentials_unfold.
  destruct (String.eqb service ""); [eauto|].
  destruct (snd (validateCredentials service r)) as [[]|m] eqn:Hv; [|eauto].
  destruct (required_sensitive_field _ _ Hrs) as (fs & f & Hfs & Hf & Hreq).
  pose proof (proj1 (proj1 (validate_known service rs r Hrs)) Hv) as Hall.
  destruct (sensitive_table_ok _ _ Hfs) as (ND & Cfs & _).
  unfold encryptSensitiveFields. rewrite Ek, Hfs.
  rewrite (seal_fields_without_key fs r f); eauto.
Qed.

Lemma uninitialized_known_service_untouched_witness :
  exists m, setCredentials "stripe" [("api_key", VStr "sk_x")] no_key_file
            = (Err m, no_key_file).
Proof.
  apply (uninitialized_known_service_untouched no_key_file "stripe" stripe_rules);
    reflexivity.
Defined.

(** X10.  Without a master key, [setCredentials] for a service without
    rules throws as well, but only in [saveCredentials]: the record is in
    the cache by then, in clear, and stays there. *)
Theorem uninitialized_unknown_service_cached (st : state) (service : string) (r : record) :
  masterKey st = None -> service <> "" ->
  table_get service validationRules = Undefined ->
  exists m,
    setCredentials service r st
    = (Err m, set_cache (obj_set service (Some r) (cache st)) st).
Proof.
  intros Ek Hne Hrs. apply String.eqb_neq in Hne.
  rewrite setCredentials_unfold, Hne. unfold validateCredentials. rewrite Hrs. cbn [snd].
  assert (Hs : table_get service sensitiveFields = Undefined).
  { unfold table_get in *. destruct (obj_get service validationRules) eqn:G; [discriminate|].
    apply obj_get_None in G. rewrite <- tables_same_keys in G. apply obj_get_None in G.
    rewrite G. destruct (inherited service); [discriminate|reflexivity]. }
  unfold encryptSensitiveFields. rewrite Hs. cbn [seal_fields]. cbv zeta. rewrite Ek.
  eauto.
Qed.

Lemma uninitialized_unknown_service_cached_witness :
  exists m,
    setCredentials "custom" [("url", VStr "https://example.org")] no_key_file
    = (Err m, set_cache (obj_set "custom" (Some [("url", VStr "https://example.org")])
                           (cache no_key_file)) no_key_file).
Proof.
  apply (uninitialized_unknown_service_cached no_key_file "custom");
    [reflexivity|discriminate|reflexivity].
Defined.

Lemma removeCredentials_unfold service st :
  removeCredentials service st =
  if obj_has service (cache st) then
    match masterKey st with
    | Some k =>
        (Ok tt, mkState (obj_delete service (cache st)) (Some k)
                  (Some (saved_document k (obj_delete service (cache st)))) (keyFile st))
    | None =>
        (Err ("Failed to remove credentials for " ++ service
              ++ ": Failed to save credentials: " ++ not_initialized),
         set_cache (obj_delete service (cache st)) st)
    end
  else (Ok tt, st).
Proof.
  unfold removeCredentials, try_catch, bind, gets, ret, throw, modify.
  destruct (obj_has service (cache st)); [|reflexivity].
  rewrite saveCredentials_unfold. cbn [masterKey set_cache cache].
  destruct (masterKey st) eqn:Ek; [|reflexivity].
  unfold set_credentialsFile, set_cache. cbn. now rewrite Ek.
Qed.

Lemma remove_absent_is_noop (st : state) (service : string) :
  obj_has service (cache st) = false ->
  removeCredentials service st = (Ok tt, st).
Proof. intros H. now rewrite removeCredentials_unfold, H. Qed.

(** X11.  Once [removeCredentials] has returned, [getCredentials] for that
    service throws, [listServices] does not list it, and the entries of the
    other services are unchanged. *)
Theorem remove_then_get_fails (st st' : state) (service other : string) :
  NoDup (keys (cache st)) ->
  removeCredentials service st = (Ok tt, st') ->
  (exists m, getCredentials service st' = (Err m, st'))
  /\ ~ In service (listServices st')
  /\ (other <> service -> obj_get other (cache st') = obj_get other (cache st)).
Proof.
  intros ND H. rewrite removeCredentials_unfold in H.
  assert (E : cache st' = cache st \/ cache st' = obj_delete service (cache st)).
  { destruct (obj_has service (cache st)); [|injection H as <-; auto].
    destruct (masterKey st); [|discriminate]. injection H as <-. auto. }
  assert (Habs : obj_get service (cache st') = None).
  { destruct (obj_has service (cache st)) eqn:Hh.
    - destruct (masterKey st); [|discriminate]. injection H as <-. cbn [cache].
      now apply obj_get_delete_eq.
    - injection H as <-. unfold obj_has in Hh. now destruct (obj_get service (cache st)). }
  split; [|split].
  - rewrite getCredentials_unfold. unfold obj_has. rewrite Habs. eauto.
  - unfold listServices. rewrite sort_In. now apply obj_get_None.
  - intros Hne. destruct E as [->| ->]; [reflexivity|now apply obj_get_delete_neq].
Qed.

Lemma remove_then_get_fails_witness :
  (exists m, getCredentials "stripe" (snd (removeCredentials "stripe" with_stripe))
             = (Err m, snd (removeCredentials "stripe" with_stripe)))
  /\ ~ In "stripe" (listServices (snd (removeCredentials "stripe" with_stripe)))
  /\ ("github" <> "stripe" ->
      obj_get "github" (cache (snd (removeCredentials "stripe" with_stripe)))
      = obj_get "github" (cache with_stripe)).
Proof.
  apply (remove_then_get_fails with_stripe).
  - repeat constructor; simpl; intuition discriminate.
  - vm_compute. reflexivity.
Defined.

(** X12.  Storing a record for a service that has none and removing it
    again gives back the cache and the master key there were, and leaves on
    disk the document of that cache. *)
Theorem set_then_remove_restores (st st1 st2 : state) (service : string) (r : record) :
  obj_has service (cache st) = false ->
  setCredentials service r st = (Ok tt, st1) ->
  removeCredentials service st1 = (Ok tt, st2) ->
  cache st2 = cache st
  /\ masterKey st2 = masterKey st
  /\ exists k, masterKey st = Some k
               /\ credentialsFile st2 = Some (saved_document k (cache st)).
Proof.
  intros Habs H1 H2. apply setCredentials_success in H1.
  destruct H1 as (k & sealed & Ek & _ & _ & ->).
  rewrite removeCredentials_unfold in H2. cbn [cache masterKey keyFile] in H2.
  rewrite obj_has_set in H2. injection H2 as <-. cbn [cache masterKey credentialsFile].
  assert (N : ~ In service (keys (cache st))).
  { apply obj_get_None. unfold obj_has in Habs. now destruct (obj_get service (cache st)). }
  rewrite obj_delete_set_notin by assumption. eauto.
Qed.

Lemma set_then_remove_restores_witness :
  cache (snd (removeCredentials "stripe" with_stripe)) = cache fresh
  /\ masterKey (snd (removeCredentials "stripe" with_stripe)) = masterKey fresh
  /\ exists k, masterKey fresh = Some k
               /\ credentialsFile (snd (removeCredentials "stripe" with_stripe))
                  = Some (saved_document k (cache fresh)).
Proof.
  apply (set_then_remove_restores fresh with_stripe _ "stripe" [("api_key", VStr "sk_x")]).
  - reflexivity.
  - vm_compute. reflexivity.
  - vm_compute. reflexivity.
Defined.

Lemma insert_sorted_sorted k l : Sorted ordered l -> Sorted ordered (insert_sorted k l).
Proof.
  induction 1 as [|k' l Hs IH Hh]; simpl; [repeat constructor|].
  destruct (code_units_leb k k') eqn:E.
  - constructor; [now constructor|]. now constructor.
  - constructor; [exact IH|].
    assert (Ek : ordered k' k) by now apply code_units_leb_total.
    destruct l as [|k2 l]; simpl; [now constructor|].
    destruct (code_units_leb k k2); constructor; [exact Ek|].
    now inversion Hh.
Qed.

Lemma insert_sorted_perm k l : Permutation (insert_sorted k l) (k :: l).
Proof.
  induction l as [|k' l IH]; simpl; [reflexivity|].
  destruct (code_units_leb k k'); [reflexivity|].
  rewrite IH. apply perm_swap.
Qed.

(** Two names that their bytes and their code units order differently:
    U+FF5E, and U+1F600, which is the surrogate pair D83D DE00. *)
Lemma sort_by_code_units :
  sort [text [65374]; text [55357; 56832]] = [text [55357; 56832]; text [65374]]
  /\ String.leb (text [65374]) (text [55357; 56832]) = true.
Proof. vm_compute. split; reflexivity. Qed.

(** X13.  [listServices] returns the keys of the cache, each as often as
    the cache has it, in ascending order of their code units. *)
Theorem listServices_sorted_permutation (st : state) :
  Sorted ordered (listServices st)
  /\ Permutation (listServices st) (keys (cache st)).
Proof.
  unfold listServices, sort. induction (keys (cache st)) as [|k l [IH1 IH2]]; simpl.
  - split; constructor.
  - split; [now apply insert_sorted_sorted|].
    rewrite insert_sorted_perm. now constructor.
Qed.



(** X15.  Whether it returns or throws, [rotateCredentials] leaves the
    cache entry of every name other than the service and its backup name
    as it is. *)
Theorem rotation_frame (st : state) (now : Z) (service other : string) (r : record) :
  other <> service -> other <> backupKey service now ->
  obj_get other (cache (snd (rotateCredentials now service r st)))
  = obj_get other (cache st).
Proof.
  intros H1 H2. rewrite rotateCredentials_unfold.
  pose proof (setCredentials_other (rotate_snapshot now service st) service other r H1)
    as F.
  destruct (setCredentials service r (rotate_snapshot now service st)) as [[a|m] st'];
    cbn [snd] in *; rewrite F; unfold rotate_snapshot; cbn [cache set_cache];
    now apply obj_get_set_neq.
Qed.

Lemma rotation_frame_witness :
  obj_get "stripe"
    (cache (snd (rotateCredentials now "github" [("token", VStr "ghp_new")] with_stripe)))
  = obj_get "stripe" (cache with_stripe).
Proof.
  apply (rotation_frame with_stripe now "github" "stripe").
  - discriminate.
  - vm_compute. discriminate.
Defined.

End StoreFacts.

(** ** The names of the backups *)

Module BackupFacts.

Import JS Vault Persistence Notions Examples Predicates Samples.
Import CipherFacts Base64Facts ObjectFacts SealFacts VaultFacts RecordFacts StoreFacts.

Lemma of_uint_acc_value : forall d acc,
  Z.pos (Pos.of_uint_acc d acc) = uint_value d (Z.pos acc).
Proof.
  induction d; intros acc; cbn [Pos.of_uint_acc uint_value]; rewrite ?IHd;
    f_equal; lia.
Qed.

Lemma of_uint_value : forall d, Z.of_N (Pos.of_uint d) = uint_value d 0.
Proof.
  induction d; cbn [Pos.of_uint uint_value Z.of_N]; try reflexivity; try exact IHd;
    rewrite of_uint_acc_value; reflexivity.
Qed.

Lemma parse_digits_uint : forall d a,
  parse_digits (Some a) (NilEmpty.string_of_uint d) = Some (uint_value d a).
Proof.
  induction d; intros a; cbn [NilEmpty.string_of_uint parse_digits uint_value];
    try reflexivity;
    match goal with
    | |- context [digit_value ?c] =>
        let v := eval vm_compute in (digit_value c) in
        change (digit_value c) with v
    end; cbv iota; rewrite IHd; do 2 f_equal; lia.
Qed.

Lemma parse_digits_start d :
  d <> Decimal.Nil ->
  parse_digits None (NilEmpty.string_of_uint d) = Some (uint_value d 0).
Proof.
  intros Hd. destruct d; [contradiction| ..];
    cbn [NilEmpty.string_of_uint parse_digits uint_value];
    match goal with
    | |- context [digit_value ?c] =>
        let v := eval vm_compute in (digit_value c) in
        change (digit_value c) with v
    end; cbv iota; rewrite parse_digits_uint; reflexivity.
Qed.

Lemma uint_text_nonnil d :
  d <> Decimal.Nil -> NilZero.string_of_uint d = NilEmpty.string_of_uint d.
Proof. destruct d; [contradiction| ..]; reflexivity. Qed.

Lemma pos_text_value p :
  parse_digits None (NilZero.string_of_uint (Pos.to_uint p)) = Some (Z.pos p).
Proof.
  pose proof (Unsigned.to_uint_nonnil p) as Hn.
  rewrite uint_text_nonnil, parse_digits_start by assumption.
  rewrite <- of_uint_value, Unsigned.of_to. reflexivity.
Qed.

(** The first character of a decimal without sign is a digit. *)
Lemma uint_text_head d :
  d <> Decimal.Nil ->
  exists c s, NilEmpty.string_of_uint d = String c s
              /\ is_space c = false /\ wide_lead c = false
              /\ c <> "-"%char /\ c <> "+"%char.
Proof.
  intros Hd. destruct d; [contradiction| ..]; eexists; eexists;
    (split; [reflexivity|]); (split; [reflexivity|]); (split; [reflexivity|]);
    split; discriminate.
Qed.

Lemma parseInt_unsigned s c s' :
  s = String c s' -> is_space c = false -> wide_lead c = false ->
  c <> "-"%char -> c <> "+"%char ->
  parseInt (Some s) = parse_digits None s.
Proof.
  intros -> Hs Hw Hm Hp. unfold parseInt. cbn [skip_spaces]. rewrite Hs, Hw. cbn [negb].
  destruct c as [[] [] [] [] [] [] [] []]; try reflexivity; congruence.
Qed.

Lemma parseInt_decimal (z : Z) : parseInt (Some (string_of_Z z)) = Some z.
Proof.
  unfold string_of_Z. destruct z as [|p|p]; [reflexivity| |].
  - cbn [Z.to_int NilZero.string_of_int].
    pose proof (Unsigned.to_uint_nonnil p) as Hn.
    destruct (uint_text_head _ Hn) as (c & s & E & Hs & Hw & Hm & Hp).
    rewrite (parseInt_unsigned _ c s), pos_text_value; auto.
    now rewrite uint_text_nonnil.
  - cbn [Z.to_int NilZero.string_of_int]. unfold parseInt. cbn [skip_spaces].
    change (is_space "-") with false. change (wide_lead "-") with false. cbv iota.
    cbn [negb]. cbv iota. now rewrite pos_text_value.
Qed.

Lemma uint_text_underscore_free d : underscore_free (NilEmpty.string_of_uint d) = true.
Proof. induction d; simpl; auto. Qed.

Lemma string_of_Z_underscore_free z : underscore_free (string_of_Z z) = true.
Proof.
  unfold string_of_Z. destruct z as [|p|p]; [reflexivity| |];
    cbn [Z.to_int NilZero.string_of_int];
    rewrite ?uint_text_nonnil by apply Unsigned.to_uint_nonnil;
    cbn [underscore_free]; rewrite ?uint_text_underscore_free; reflexivity.
Qed.

Lemma prefix_append pat rest : prefix pat (pat ++ rest) = true.
Proof.
  induction pat as [|c pat IH]; cbn [append prefix]; [now destruct rest|].
  destruct (ascii_dec c c); [exact IH|contradiction].
Qed.

Lemma drop_append pat rest : drop (String.length pat) (pat ++ rest) = rest.
Proof. induction pat; simpl; auto. Qed.

Lemma prefix_underscore c s pat :
  Ascii.eqb c "_" = false -> prefix (String "_" pat) (String c s) = false.
Proof.
  intros H. cbn [prefix]. destruct (ascii_dec "_" c) as [<-|]; [discriminate|reflexivity].
Qed.

Lemma after_first_prefix pat s :
  prefix pat s = true -> after_first pat s = Some (drop (String.length pat) s).
Proof. intros H. destruct s; cbn [after_first]; now rewrite H. Qed.

Lemma includes_prefix pat s : prefix pat s = true -> includes pat s = true.
Proof. intros H. destruct s; cbn [includes]; now rewrite H. Qed.

Lemma after_first_backup service rest :
  underscore_free service = true ->
  after_first "_backup_" (service ++ "_backup_" ++ rest) = Some rest.
Proof.
  induction service as [|c service IH]; intros H.
  - change ("" ++ "_backup_" ++ rest) with ("_backup_" ++ rest).
    rewrite after_first_prefix by apply prefix_append. now rewrite drop_append.
  - cbn [underscore_free] in H. apply andb_true_iff in H. destruct H as [Hc H].
    apply negb_true_iff in Hc.
    change (String c service ++ "_backup_" ++ rest)
      with (String c (service ++ "_backup_" ++ rest)).
    cbn [after_first]. rewrite prefix_underscore by assumption. now apply IH.
Qed.

Lemma includes_backup service rest :
  includes "_backup_" (service ++ "_backup_" ++ rest) = true.
Proof.
  induction service as [|c service IH].
  - change ("" ++ "_backup_" ++ rest) with ("_backup_" ++ rest).
    apply includes_prefix, prefix_append.
  - change (String c service ++ "_backup_" ++ rest)
      with (String c (service ++ "_backup_" ++ rest)).
    cbn [includes]. rewrite IH. now destruct (prefix _ _).
Qed.

Lemma before_first_underscore_free s :
  underscore_free s = true -> before_first "_backup_" s = s.
Proof.
  induction s as [|c s IH]; intros H; [reflexivity|].
  cbn [underscore_free] in H. apply andb_true_iff in H. destruct H as [Hc H].
  apply negb_true_iff in Hc. cbn [before_first].
  rewrite prefix_underscore by assumption. now rewrite IH.
Qed.

(** X16.  For a service name without an underscore and a time stamp that a
    number holds exactly, the test of the loop of [cleanup] on the backup
    name made at [timestamp] holds exactly when [timestamp] is before the
    cutoff. *)
Theorem backup_key_expiry (service : string) (timestamp cutoffTime : Z) :
  underscore_free service = true -> safe_integer timestamp ->
  expired cutoffTime (backupKey service timestamp) = (timestamp <? cutoffTime).
Proof.
  intros H _. unfold expired, backupKey. rewrite includes_backup.
  unfold split_at_1. rewrite after_first_backup by assumption.
  rewrite before_first_underscore_free by apply string_of_Z_underscore_free.
  now rewrite parseInt_decimal.
Qed.

Lemma backup_key_expiry_witness :
  expired (now - retention) (backupKey "github" (now - 31 * day))
  = (now - 31 * day <? now - retention).
Proof.
  apply (backup_key_expiry "github"); [reflexivity|].
  unfold safe_integer. vm_compute. discriminate.
Defined.

Lemma json_members_app a b : json_members (a ++ b)%list = (json_members a ++ json_members b)%list.
Proof.
  induction a as [|[k [r|]] a IH]; simpl; [reflexivity| |]; now rewrite IH.
Qed.

Lemma json_members_undefined o k : json_members (o ++ [(k, None)])%list = json_members o.
Proof. rewrite json_members_app. simpl. apply app_nil_r. Qed.

Lemma underscore_backup a b : underscore_free (a ++ "_backup_" ++ b) = false.
Proof.
  induction a as [|c a IH]; [reflexivity|].
  change (String c a ++ "_backup_" ++ b) with (String c (a ++ "_backup_" ++ b)).
  cbn [underscore_free]. rewrite IH. apply andb_false_r.
Qed.

Lemma backupKey_not_index service now : array_index (backupKey service now) = None.
Proof.
  unfold array_index. destruct (parse_digits None (backupKey service now)) as [n|]; [|reflexivity].
  destruct (String.eqb_spec (string_of_Z n) (backupKey service now)) as [E|]; [|reflexivity].
  exfalso. pose proof (string_of_Z_underscore_free n) as H. rewrite E in H.
  unfold backupKey in H. now rewrite underscore_backup in H.
Qed.

Lemma backupKey_not_proto service now : String.eqb (backupKey service now) "__proto__" = false.
Proof.
  destruct (String.eqb_spec (backupKey service now) "__proto__") as [E|]; [|reflexivity].
  exfalso. pose proof (includes_backup service (string_of_Z now)) as H.
  unfold backupKey in E. rewrite E in H. discriminate.
Qed.

Lemma obj_assign_backupKey {A} service now (v : A) o :
  obj_assign (backupKey service now) v o = obj_set (backupKey service now) v o.
Proof. unfold obj_assign. now rewrite backupKey_not_proto, backupKey_not_index. Qed.

Section Omission.
Variables (bk : string).

Lemma insert_index_undefined n s v : forall o,
  json_members (insert_index n s v (o ++ [(bk, None)])%list)
  = json_members (insert_index n s v o).
Proof.
  intros o. induction o as [|[k' v'] o IH].
  - simpl. destruct (array_index bk) as [n'|].
    + destruct (n' <? n); [|destruct (n' =? n)]; simpl; destruct v; reflexivity.
    + simpl. destruct v; reflexivity.
  - cbn [app insert_index]. destruct (array_index k') as [n'|].
    + destruct (n' <? n).
      * cbn [json_members]. destruct v'; now rewrite IH.
      * destruct (n' =? n); cbn [json_members];
          destruct v, v'; now rewrite ?json_members_undefined.
    + change ((k', v') :: o ++ [(bk, None)])%list with (((k', v') :: o) ++ [(bk, None)])%list.
      cbn [json_members]. destruct v; now rewrite json_members_undefined.
Qed.

Lemma obj_assign_undefined s v o :
  s <> bk ->
  json_members (obj_assign s v (o ++ [(bk, None)])%list) = json_members (obj_assign s v o).
Proof.
  intros Hne. unfold obj_assign.
  destruct (String.eqb s "__proto__"); [apply json_members_undefined|].
  destruct (array_index s) as [n|]; [apply insert_index_undefined|].
  destruct (in_dec string_dec s (keys o)) as [I|N].
  - rewrite obj_set_app_in by assumption. apply json_members_undefined.
  - rewrite obj_set_app_notin by assumption. rewrite (obj_set_notin s v o) by assumption.
    simpl obj_set. destruct (String.eqb_spec s bk); [contradiction|].
    rewrite !json_members_app. simpl. now destruct v.
Qed.
End Omission.

Lemma keys_insert_index_incl {A} n k (v : A) o x :
  In x (keys (insert_index n k v o)) -> x = k \/ In x (keys o).
Proof.
  induction o as [|[k' v'] o IH]; simpl; [intuition|].
  destruct (array_index k') as [n'|]; [|simpl; intuition].
  destruct (n' <? n); [simpl; intuition|]. destruct (n' =? n); simpl; intuition.
Qed.

Lemma keys_assign_incl {A} k (v : A) o x :
  In x (keys (obj_assign k v o)) -> x = k \/ In x (keys o).
Proof.
  unfold obj_assign. destruct (String.eqb k "__proto__"); [auto|].
  destruct (array_index k); [apply keys_insert_index_incl|apply keys_set_incl].
Qed.

Lemma keys_credentials_object : forall (c o : object (option record)) x,
  In x (keys (fold_left (fun o e => obj_assign (fst e) (snd e) o) c o)) ->
  In x (keys c) \/ In x (keys o).
Proof.
  induction c as [|[k v] c IH]; intros o x H; simpl in *; [auto|].
  apply IH in H. destruct H as [H|H]; [auto|].
  apply keys_assign_incl in H. intuition.
Qed.

Lemma credentials_object_app c l :
  credentials_object (c ++ l)%list
  = fold_left (fun o e => obj_assign (fst e) (snd e) o) l (credentials_object c).
Proof. unfold credentials_object. apply fold_left_app. Qed.

(** X17.  A rotation of a service that has neither an entry nor a backup
    of that name writes the credentials file that [setCredentials] alone
    writes: the backup bound to [undefined] is in the cache and not in the
    document. *)
Theorem absent_rotation_writes_like_set (st st1 : state) (now : Z)
    (service : string) (r : record) :
  obj_has service (cache st) = false ->
  obj_has (backupKey service now) (cache st) = false ->
  rotateCredentials now service r st = (Ok tt, st1) ->
  fst (setCredentials service r st) = Ok tt
  /\ credentialsFile st1 = credentialsFile (snd (setCredentials service r st))
  /\ obj_get (backupKey service now) (cache st1) = Some None.
Proof.
  intros Hs Hb H. apply rotate_success in H.
  pose proof H as H'. apply setCredentials_success in H'.
  destruct H' as (k & sealed & Ek & Hv & Es & ->).
  unfold rotate_snapshot in *. cbn [cache set_cache masterKey keyFile] in *.
  assert (Hne : service <> "").
  { intros ->. rewrite setCredentials_unfold in H. discriminate. }
  rewrite (setCredentials_succeeds service r st k sealed) by assumption.
  cbn [fst snd credentialsFile cache].
  assert (Ns : ~ In service (keys (cache st))).
  { apply obj_get_None. unfold obj_has in Hs. now destruct (obj_get service (cache st)). }
  assert (Nb : ~ In (backupKey service now) (keys (cache st))).
  { apply obj_get_None. unfold obj_has in Hb.
    now destruct (obj_get (backupKey service now) (cache st)). }
  assert (Hold : cache_get service (cache st) = None).
  { unfold cache_get. apply obj_get_None in Ns. now rewrite Ns. }
  rewrite Hold.
  assert (Hsb : service <> backupKey service now).
  { intros E. symmetry in E. now apply backupKey_fresh in E. }
  split; [reflexivity|]. split.
  - f_equal. unfold saved_document. do 2 f_equal. unfold JSON_stringify. f_equal.
    rewrite (obj_set_notin (backupKey service now)) by assumption.
    rewrite obj_set_app_notin by assumption.
    rewrite (obj_set_notin service _ (cache st)) by assumption.
    rewrite !credentials_object_app.
    cbn [obj_set]. destruct (String.eqb_spec service (backupKey service now)); [contradiction|].
    cbn [fold_left fst snd]. rewrite obj_assign_backupKey.
    rewrite (obj_set_notin (backupKey service now)).
    + now apply obj_assign_undefined.
    + intros Hin. apply keys_credentials_object in Hin. simpl in Hin. tauto.
  - rewrite obj_get_set_neq by apply backupKey_fresh.
    now rewrite obj_get_set_eq.
Qed.

Lemma absent_rotation_writes_like_set_witness :
  fst (setCredentials "github" [("token", VStr "ghp_new")] fresh) = Ok tt
  /\ credentialsFile (snd (rotateCredentials now "github" [("token", VStr "ghp_new")] fresh))
     = credentialsFile (snd (setCredentials "github" [("token", VStr "ghp_new")] fresh))
  /\ obj_get (backupKey "github" now)
       (cache (snd (rotateCredentials now "github" [("token", VStr "ghp_new")] fresh)))
     = Some None.
Proof.
  apply (absent_rotation_writes_like_set fresh _ now "github" [("token", VStr "ghp_new")]).
  - reflexivity.
  - reflexivity.
  - vm_compute. reflexivity.
Defined.

End BackupFacts.

(** ** Loading, exporting and importing *)

Module PersistenceFacts.

Import JS Vault Persistence Notions Examples Predicates Samples.
Import CipherFacts Base64Facts ObjectFacts SealFacts VaultFacts RecordFacts StoreFacts BackupFacts.

Lemma decrypt_saved_document k c :
  decrypt (Some k) (saved_document k c) = Ok (document_text c).
Proof.
  unfold decrypt, saved_document, xor_stream.
  now rewrite xor_from_involutive, Buffer_utf8_round_trip by apply Buffer_from_utf8_is_byte.
Qed.

Section Loading.
Variable parse_store : string -> result (object record).

Lemma loadCredentials_unfold st :
  loadCredentials parse_store st =
  (Ok tt,
   match credentialsFile st, masterKey st with
   | Some data, Some k =>
       match parse_store (Buffer_toString_utf8 (xor_stream k data)) with
       | Ok credentials => set_cache (load_entries credentials (cache st)) st
       | Err _ => st
       end
   | _, _ => st
   end).
Proof.
  unfold loadCredentials, try_catch, bind, gets, lift, modify, ret, decrypt.
  destruct (credentialsFile st); [|reflexivity].
  destruct (masterKey st); [|reflexivity].
  destruct (parse_store _); reflexivity.
Qed.

(** X18.  [loadCredentials] returns without an error and leaves the state
    as it is when there is no credentials file, when there is no master
    key, or when the decrypted text does not parse. *)
Theorem load_failure_keeps_state (st : state) :
  credentialsFile st = None
  \/ masterKey st = None
  \/ (forall k data, masterKey st = Some k -> credentialsFile st = Some data ->
        exists m, parse_store (Buffer_toString_utf8 (xor_stream k data)) = Err m) ->
  loadCredentials parse_store st = (Ok tt, st).
Proof.
  intros H. rewrite loadCredentials_unfold. f_equal.
  destruct (credentialsFile st) as [data|]; [|reflexivity].
  destruct (masterKey st) as [k|]; [|reflexivity].
  destruct H as [H|[H|H]]; try discriminate.
  destruct (H k data eq_refl eq_refl) as (m & ->). reflexivity.
Qed.

Lemma fold_assign_plain : forall (c o : object (option record)),
  NoDup (keys o ++ keys c) -> forallb storable_key (keys c) = true ->
  fold_left (fun o e => obj_assign (fst e) (snd e) o) c o = (o ++ c)%list.
Proof.
  induction c as [|[k v] c IH]; intros o ND Hk; [now rewrite app_nil_r|].
  cbn [fold_left fst snd]. cbn [keys map fst forallb] in *.
  apply andb_true_iff in Hk. destruct Hk as [Hk Hks].
  unfold storable_key in Hk. apply andb_true_iff in Hk. destruct Hk as [Hp Hi].
  apply negb_true_iff in Hp. unfold obj_assign. rewrite Hp.
  destruct (array_index k); [discriminate|].
  assert (N : ~ In k (keys o)).
  { intros Hin. apply NoDup_remove_2 in ND. apply ND. apply in_or_app. now left. }
  rewrite obj_set_notin by assumption. rewrite IH.
  - now rewrite <- app_assoc.
  - unfold keys in *. rewrite map_app, <- app_assoc. exact ND.
  - exact Hks.
Qed.

Lemma credentials_object_plain c :
  NoDup (keys c) -> forallb storable_key (keys c) = true -> credentials_object c = c.
Proof. intros ND Hk. unfold credentials_object. now rewrite fold_assign_plain. Qed.

Lemma load_entries_fresh : forall (c o : object (option record)),
  NoDup (keys o ++ keys c) -> all_defined c = true ->
  load_entries (records_of c) o = (o ++ c)%list.
Proof.
  induction c as [|[k [r|]] c IH]; intros o ND Hd; [now rewrite app_nil_r| |discriminate].
  cbn [records_of]. unfold load_entries. cbn [fold_left fst snd]. fold (load_entries (records_of c)).
  cbn [keys map fst] in *.
  assert (N : ~ In k (keys o)).
  { intros Hin. apply NoDup_remove_2 in ND. apply ND. apply in_or_app. now left. }
  rewrite obj_set_notin by assumption. rewrite IH.
  - now rewrite <- app_assoc.
  - unfold keys in *. rewrite map_app, <- app_assoc. exact ND.
  - exact Hd.
Qed.

(** X19.  A manager constructed on the two files of a vault and initialized
    under the same machine identifier reaches the state of that vault,
    provided the cache has distinct names, none an array index or
    [__proto__], each bound to a record, and [JSON.parse] reads back the
    document that [JSON.stringify] wrote. *)
Theorem restart_restores (st : state) (fp salt k freshKey' salt' : list Z) :
  masterKey st = Some k -> Forall is_byte k ->
  keyFile st = Some (encryptMasterKey fp salt k) -> List.length salt = 32%nat ->
  credentialsFile st = Some (saved_document k (cache st)) ->
  persistable (cache st) ->
  parse_store (JSON_stringify (credentials_object (cache st)))
    = Ok (records_of (credentials_object (cache st))) ->
  initialize parse_store fp freshKey' salt' (constructed st) = (Ok tt, st).
Proof.
  intros Ek Bk Hkf Hs Hcf (ND & Hkeys & Hdef) Hparse.
  unfold initialize, try_catch, bind.
  rewrite (loadOrCreate_load fp freshKey' salt' (constructed st) _ Hkf).
  rewrite unwrap_wrap by assumption.
  rewrite loadCredentials_unfold. cbn [credentialsFile masterKey set_masterKey constructed cache].
  rewrite Hcf.
  pose proof (decrypt_saved_document k (cache st)) as D. cbn [decrypt] in D.
  injection D as ->. unfold document_text. rewrite Hparse.
  rewrite credentials_object_plain by assumption.
  rewrite load_entries_fresh by assumption. cbn [app].
  unfold set_cache. cbn. destruct st as [c mk cf kf]. cbn in *. congruence.
Qed.
End Loading.

Lemma load_failure_keeps_state_witness :
  loadCredentials parse_kept fresh = (Ok tt, fresh).
Proof. apply (load_failure_keeps_state parse_kept fresh). left. reflexivity. Defined.

Lemma restart_restores_witness :
  initialize parse_kept fp_a [] [] (constructed kept) = (Ok tt, kept).
Proof.
  apply (restart_restores parse_kept kept fp_a wrapped_salt key32 [] []).
  - reflexivity.
  - apply bytes_upto. lia.
  - reflexivity.
  - reflexivity.
  - reflexivity.
  - split; [|split; reflexivity]. repeat constructor; simpl; intuition discriminate.
  - vm_compute. reflexivity.
Defined.

Lemma obj_get_insert_index {A} n k (v : A) s : forall o,
  array_index k = Some n ->
  obj_get s (insert_index n k v o) = if String.eqb s k then Some v else obj_get s o.
Proof.
  intros o Hk. induction o as [|[k' v'] o IH]; cbn [insert_index obj_get].
  - reflexivity.
  - destruct (array_index k') as [n'|] eqn:Ek'.
    + destruct (n' <? n) eqn:Hlt.
      * cbn [obj_get]. rewrite IH.
        destruct (String.eqb_spec s k') as [->|]; [|reflexivity].
        destruct (String.eqb_spec k' k) as [->|]; [|reflexivity].
        rewrite Hk in Ek'. injection Ek' as <-. rewrite Z.ltb_irrefl in Hlt. discriminate.
      * destruct (n' =? n) eqn:Heq; cbn [obj_get].
        -- destruct (String.eqb_spec s k) as [->|Hne]; [reflexivity|].
           destruct (String.eqb_spec s k') as [->|]; [|reflexivity].
           (* both keys are the canonical text of the same index *)
           exfalso. apply Z.eqb_eq in Heq. subst n'.
           unfold array_index in Hk, Ek'.
           destruct (parse_digits None k) as [m|]; [|discriminate].
           destruct (parse_digits None k') as [m'|]; [|discriminate].
           destruct (String.eqb_spec (string_of_Z m) k) as [E1|]; [|discriminate].
           destruct (String.eqb_spec (string_of_Z m') k') as [E2|]; [|discriminate].
           cbn [andb] in *. destruct (m <? 4294967295); [|discriminate].
           destruct (m' <? 4294967295); [|discriminate].
           injection Hk as ->. injection Ek' as ->. congruence.
        -- reflexivity.
    + cbn [obj_get]. reflexivity.
Qed.

Lemma obj_get_assign {A} k (v : A) s o :
  obj_get s (obj_assign k v o)
  = if String.eqb k "__proto__" then obj_get s o
    else if String.eqb s k then Some v else obj_get s o.
Proof.
  unfold obj_assign. destruct (String.eqb k "__proto__"); [reflexivity|].
  destruct (array_index k) as [n|] eqn:E; [now apply obj_get_insert_index|].
  destruct (String.eqb_spec s k) as [->|Hne]; [apply obj_get_set_eq|now apply obj_get_set_neq].
Qed.

Lemma export_services_from_cache c : forall l o s v,
  obj_get s (fold_left
               (fun o service =>
                  if obj_has service c then obj_assign service (cache_get service c) o else o)
               l o) = Some v ->
  obj_get s o = Some v \/ obj_get s c = Some v.
Proof.
  induction l as [|x l IH]; intros o s v H; cbn [fold_left] in H; [auto|].
  apply IH in H. destruct H as [H|H]; [|auto].
  destruct (obj_has x c) eqn:Hx; [|auto].
  rewrite obj_get_assign in H. destruct (String.eqb x "__proto__"); [auto|].
  destruct (String.eqb_spec s x) as [->|]; [|auto].
  right. injection H as <-. unfold cache_get, obj_has in *.
  now destruct (obj_get x c).
Qed.

Lemma decrypt_xor_text k s :
  decrypt (Some k) (xor_stream k (Buffer_from_utf8 s)) = Ok s.
Proof.
  unfold decrypt, xor_stream.
  now rewrite xor_from_involutive, Buffer_utf8_round_trip by apply Buffer_from_utf8_is_byte.
Qed.

Lemma exportCredentials_unfold exported_at services st :
  exportCredentials exported_at services st =
  match masterKey st with
  | Some k =>
      (Ok (xor_stream k (Buffer_from_utf8 (export_text exported_at services (cache st)))), st)
  | None => (Err ("Failed to export credentials: " ++ not_initialized), st)
  end.
Proof.
  unfold exportCredentials, try_catch, bind, gets, lift, ret, throw, encrypt.
  now destruct (masterKey st).
Qed.

(** X20.  When [exportCredentials] returns, the state is unchanged, the
    bytes it wrote decrypt under the master key to the text of the export,
    and every record of the export is the stored (sealed) record of the
    cache under the same name. *)
Theorem export_holds_stored_records (st st' : state) (exported_at : string)
    (services : option (list string)) (bytes : list Z) :
  exportCredentials exported_at services st = (Ok bytes, st') ->
  st' = st
  /\ (exists k, masterKey st = Some k
        /\ decrypt (Some k) bytes = Ok (export_text exported_at services (cache st)))
  /\ forall s v,
       obj_get s (export_services
                    (match services with Some l => l | None => keys (cache st) end)
                    (cache st)) = Some v ->
       obj_get s (cache st) = Some v.
Proof.
  rewrite exportCredentials_unfold.
  destruct (masterKey st) as [k|] eqn:Ek; [|discriminate].
  intros H. assert (Hb : bytes = xor_stream k (Buffer_from_utf8 (export_text exported_at services (cache st)))) by congruence.
  assert (Hs : st' = st) by congruence. subst bytes st'. clear H.
  split; [reflexivity|]. split.
  - exists k. split; [reflexivity|]. apply decrypt_xor_text.
  - intros s v H. unfold export_services in H.
    apply export_services_from_cache in H. destruct H as [H|H]; [discriminate|exact H].
Qed.

Lemma export_holds_stored_records_witness :
  with_github = with_github
  /\ (exists k, masterKey with_github = Some k
        /\ decrypt (Some k) exported_github
           = Ok (export_text stamp None (cache with_github)))
  /\ forall s v,
       obj_get s (export_services (keys (cache with_github)) (cache with_github)) = Some v ->
       obj_get s (cache with_github) = Some v.
Proof.
  apply (export_holds_stored_records with_github with_github stamp None exported_github).
  vm_compute. reflexivity.
Defined.

Lemma export_keeps_state (st : state) (exported_at : string)
    (services : option (list string)) :
  snd (exportCredentials exported_at services st) = st
  /\ (masterKey st = None ->
      fst (exportCredentials exported_at services st)
      = Err ("Failed to export credentials: " ++ not_initialized)).
Proof.
  rewrite exportCredentials_unfold.
  destruct (masterKey st) as [k|]; split; try reflexivity; discriminate.
Qed.

Section Importing.
Variable parse_export : string -> result (option (object record)).

Lemma importCredentials_unfold read overwrite st :
  importCredentials parse_export read overwrite st =
  match read with
  | Err m => (Err (import_message m), st)
  | Ok data =>
      match masterKey st with
      | None => (Err (import_message not_initialized), st)
      | Some k =>
          match parse_export (Buffer_toString_utf8 (xor_stream k data)) with
          | Err m => (Err (import_message m), st)
          | Ok None => (Err (import_message "Cannot convert undefined or null to object"), st)
          | Ok (Some services) =>
              let (c', n) := merged overwrite services (cache st) in
              if (0 <? n)%nat
              then (Ok tt, mkState c' (Some k) (Some (saved_document k c')) (keyFile st))
              else (Ok tt, set_cache c' st)
          end
      end
  end.
Proof.
  unfold importCredentials, try_catch, bind, gets, lift, modify, ret, throw, decrypt.
  destruct read as [data|m]; [|reflexivity].
  destruct (masterKey st) as [k|] eqn:Ek; [|reflexivity].
  destruct (parse_export _) as [[services|]|m]; try reflexivity.
  unfold merged. destruct (fold_left _ services (cache st, O)) as [c' n].
  destruct (0 <? n)%nat; [|reflexivity].
  rewrite saveCredentials_unfold. cbn [masterKey set_cache cache]. rewrite Ek.
  unfold set_credentialsFile, set_cache. cbn. now rewrite Ek.
Qed.

Lemma merged_spec overwrite : forall services c n,
  let (c', n') := fold_left (import_entry overwrite) services (c, n) in
  (n <= n')%nat
  /\ (n' = n -> c' = c)
  /\ (forall s, In s (keys c) -> In s (keys c'))
  /\ (overwrite = false -> forall s, obj_has s c = true -> obj_get s c' = obj_get s c)
  /\ (forall s, ~ In s (keys services) -> obj_get s c' = obj_get s c).
Proof.
  induction services as [|[s r] services IH]; intros c n; cbn [fold_left].
  - repeat split; auto.
  - unfold import_entry at 2. cbn [fst snd].
    destruct (negb overwrite && obj_has s c) eqn:Hskip.
    + specialize (IH c n). destruct (fold_left _ services (c, n)) as [c' n'].
      destruct IH as (I1 & I2 & I3 & I4 & I5). repeat split; auto.
      intros x Hx. apply I5. intros Hin. apply Hx. now right.
    + specialize (IH (obj_set s (Some r) c) (S n)).
      destruct (fold_left _ services (obj_set s (Some r) c, S n)) as [c' n'].
      destruct IH as (I1 & I2 & I3 & I4 & I5). repeat split.
      * lia.
      * intros ->. lia.
      * intros x Hx. apply I3. now apply keys_set_keeps.
      * intros -> x Hx. cbn [negb andb] in Hskip.
        assert (x <> s) by (intros ->; congruence).
        rewrite I4; [now apply obj_get_set_neq|reflexivity|].
        unfold obj_has in *. now rewrite obj_get_set_neq.
      * intros x Hx.
        rewrite I5 by (intros Hin; apply Hx; right; exact Hin).
        apply obj_get_set_neq. intros ->. apply Hx. now left.
Qed.

(** X21.  Without [overwrite], [importCredentials] leaves the entry of
    every service that the cache already has as it is, whatever the file
    holds and whether the import returns or throws. *)
Theorem import_keeps_existing (st : state) (read : result (list Z)) (s : string) :
  obj_has s (cache st) = true ->
  obj_get s (cache (snd (importCredentials parse_export read false st)))
  = obj_get s (cache st).
Proof.
  intros Hs. rewrite importCredentials_unfold.
  destruct read as [data|m]; [|reflexivity].
  destruct (masterKey st) as [k|]; [|reflexivity].
  destruct (parse_export _) as [[services|]|m]; try reflexivity.
  pose proof (merged_spec false services (cache st) O) as M. unfold merged.
  destruct (fold_left _ services (cache st, O)) as [c' n].
  destruct M as (_ & _ & _ & M & _).
  destruct (0 <? n)%nat; cbn [snd cache set_cache]; now apply M.
Qed.

(** X22.  [importCredentials] throws and leaves the state as it is when
    the file cannot be read, when there is no master key, when the
    decrypted text does not parse, and when the document has no
    [services]: each of these throws before the loop. *)
Theorem import_rejected_keeps_state (st : state) (read : result (list Z))
    (overwrite : bool) :
  (exists m, read = Err m)
  \/ masterKey st = None
  \/ (forall k data, masterKey st = Some k -> read = Ok data ->
        parse_export (Buffer_toString_utf8 (xor_stream k data)) = Ok None
        \/ exists m, parse_export (Buffer_toString_utf8 (xor_stream k data)) = Err m) ->
  exists m,
    importCredentials parse_export read overwrite st = (Err (import_message m), st).
Proof.
  intros H. rewrite importCredentials_unfold.
  destruct read as [data|m']; [|eauto].
  destruct (masterKey st) as [k|] eqn:Ek; [|eauto].
  destruct H as [(m & Hm)|[Hk|H]]; [discriminate|discriminate|].
  destruct (H k data eq_refl eq_refl) as [E|(m & E)]; rewrite E; eauto.
Qed.

Lemma merged_all_present : forall services c n,
  (forall s, In s (keys services) -> obj_has s c = true) ->
  fold_left (import_entry false) services (c, n) = (c, n).
Proof.
  induction services as [|[s r] services IH]; intros c n H; [reflexivity|].
  cbn [fold_left]. unfold import_entry at 2. cbn [fst snd negb andb].
  rewrite (H s) by now left. apply IH. intros x Hx. apply H. now right.
Qed.

(** X23.  An import without [overwrite] of services that the cache all has
    returns without an error, changes nothing and writes no file. *)
Theorem import_nothing_new (st : state) (k data : list Z) (services : object record) :
  masterKey st = Some k ->
  parse_export (Buffer_toString_utf8 (xor_stream k data)) = Ok (Some services) ->
  (forall s, In s (keys services) -> obj_has s (cache st) = true) ->
  importCredentials parse_export (Ok data) false st = (Ok tt, st).
Proof.
  intros Ek Hp Hall. rewrite importCredentials_unfold, Ek, Hp.
  unfold merged. rewrite merged_all_present by assumption.
  cbn. now destruct st.
Qed.

Lemma merged_takes overwrite s r : forall services c n,
  NoDup (keys services) -> In (s, r) services ->
  overwrite = true \/ obj_has s c = false ->
  let (c', n') := fold_left (import_entry overwrite) services (c, n) in
  obj_get s c' = Some (Some r) /\ (n < n')%nat.
Proof.
  induction services as [|[s0 r0] services IH]; intros c n ND Hin Hc; [destruct Hin|].
  cbn [keys map fst] in ND. inversion ND as [|? ? Hn ND']; subst.
  cbn [fold_left]. destruct Hin as [E|Hin].
  - injection E as -> ->. unfold import_entry at 2. cbn [fst snd].
    assert (Hskip : negb overwrite && obj_has s c = false).
    { destruct Hc as [->| ->]; [reflexivity|apply andb_false_r]. }
    rewrite Hskip.
    pose proof (merged_spec overwrite services (obj_set s (Some r) c) (S n)) as M.
    destruct (fold_left _ services (obj_set s (Some r) c, S n)) as [c' n'].
    destruct M as (M1 & _ & _ & _ & M5). split; [|lia].
    rewrite M5 by exact Hn. apply obj_get_set_eq.
  - assert (Hne : s <> s0).
    { intros ->. apply Hn. change (In (fst (s0, r)) (map fst services)). now apply in_map. }
    unfold import_entry at 2. cbn [fst snd].
    destruct (negb overwrite && obj_has s0 c).
    + now apply IH.
    + specialize (IH (obj_set s0 (Some r0) c) (S n) ND' Hin).
      destruct (fold_left _ services (obj_set s0 (Some r0) c, S n)) as [c' n'].
      destruct IH as [I1 I2].
      * destruct Hc as [->|Hc]; [now left|right].
        unfold obj_has in *. now rewrite obj_get_set_neq.
      * split; [exact I1|lia].
Qed.

End Importing.

Lemma import_keeps_existing_witness :
  obj_get "github"
    (cache (snd (importCredentials parse_exported (Ok exported_github) false rotated)))
  = obj_get "github" (cache rotated).
Proof. apply (import_keeps_existing parse_exported rotated). reflexivity. Defined.

Lemma import_rejected_keeps_state_witness :
  exists m,
    importCredentials parse_exported (Ok [1; 2; 3]) true with_stripe
    = (Err (import_message m), with_stripe).
Proof.
  apply (import_rejected_keeps_state parse_exported with_stripe (Ok [1; 2; 3]) true).
  right. right. intros k data Hk Hr. injection Hr as <-.
  vm_compute in Hk. injection Hk as <-.
  right. eexists. vm_compute. reflexivity.
Defined.

Lemma import_nothing_new_witness :
  importCredentials parse_exported (Ok exported_github) false rotated = (Ok tt, rotated).
Proof.
  apply (import_nothing_new parse_exported rotated key32 exported_github
           [("github", sealed_github)]).
  - reflexivity.
  - vm_compute. reflexivity.
  - intros s Hs. in_cases Hs. subst s. reflexivity.
Defined.


End PersistenceFacts.

(** ** The configuration command *)

Module ClientFacts.

Import JS Vault Persistence Notions Examples Predicates Samples.
Import CipherFacts Base64Facts ObjectFacts SealFacts VaultFacts RecordFacts StoreFacts BackupFacts PersistenceFacts.
Import Connection Client.

Lemma storable_assign {A} k (v : A) o :
  storable_key k = true -> obj_assign k v o = obj_set k v o.
Proof.
  unfold storable_key, obj_assign. intros H. apply andb_true_iff in H. destruct H as [Hp Hi].
  apply negb_true_iff in Hp. rewrite Hp. now destruct (array_index k).
Qed.

Lemma storable_define {A} k (v : A) o :
  storable_key k = true -> obj_define k v o = obj_set k v o.
Proof.
  unfold storable_key, obj_define. intros H. apply andb_true_iff in H. destruct H as [_ Hi].
  now destruct (array_index k).
Qed.

Lemma fold_define_plain {A} : forall (c o : object A),
  NoDup (keys o ++ keys c) -> forallb storable_key (keys c) = true ->
  fold_left (fun o e => obj_define (fst e) (snd e) o) c o = (o ++ c)%list.
Proof.
  induction c as [|[k v] c IH]; intros o ND Hk; [now rewrite app_nil_r|].
  cbn [fold_left fst snd]. cbn [keys map fst forallb] in *.
  apply andb_true_iff in Hk. destruct Hk as [Hk Hks].
  rewrite storable_define by assumption.
  assert (N : ~ In k (keys o)).
  { intros Hin. apply NoDup_remove_2 in ND. apply ND. apply in_or_app. now left. }
  rewrite obj_set_notin by assumption. rewrite IH.
  - now rewrite <- app_assoc.
  - unfold keys in *. rewrite map_app, <- app_assoc. exact ND.
  - exact Hks.
Qed.

Lemma obj_get_define {A} k (v : A) s o :
  obj_get s (obj_define k v o) = if String.eqb s k then Some v else obj_get s o.
Proof.
  unfold obj_define. destruct (array_index k) as [n|] eqn:E; [now apply obj_get_insert_index|].
  destruct (String.eqb_spec s k) as [E'|Hne]; [rewrite E'; apply obj_get_set_eq|now apply obj_get_set_neq].
Qed.

Lemma obj_get_fold_define {A} s : forall (l o : object A),
  NoDup (keys l) ->
  obj_get s (fold_left (fun o e => obj_define (fst e) (snd e) o) l o)
  = match obj_get s l with Some v => Some v | None => obj_get s o end.
Proof.
  induction l as [|[k v] l IH]; intros o ND; [reflexivity|].
  cbn [keys map fst] in ND. inversion ND as [|? ? Hn ND']; subst.
  cbn [fold_left fst snd obj_get]. rewrite IH by assumption.
  rewrite obj_get_define.
  destruct (String.eqb_spec s k) as [E|Hne]; [|reflexivity].
  rewrite E. now rewrite (proj2 (obj_get_None k l)).
Qed.

Lemma keys_filter_nodup {A} (p : string * A -> bool) : forall (l : object A),
  NoDup (keys l) -> NoDup (keys (filter p l)).
Proof.
  induction l as [|[k v] l IH]; intros ND; [constructor|].
  cbn [keys map fst] in ND. inversion ND as [|? ? Hn ND']; subst.
  cbn [filter]. destruct (p (k, v)); [|now apply IH].
  cbn [keys map fst]. constructor; [|now apply IH].
  intros Hin. apply Hn. unfold keys in *. apply in_map_iff in Hin.
  destruct Hin as (e & <- & He). apply filter_In in He. apply in_map. tauto.
Qed.

Lemma obj_get_filter {A} (p : string * A -> bool) s : forall (l : object A),
  NoDup (keys l) ->
  obj_get s (filter p l)
  = match obj_get s l with Some v => if p (s, v) then Some v else None | None => None end.
Proof.
  induction l as [|[k v] l IH]; intros ND; [reflexivity|].
  cbn [keys map fst] in ND. inversion ND as [|? ? Hn ND']; subst.
  cbn [filter obj_get]. destruct (String.eqb_spec s k) as [E|Hne].
  - subst s. destruct (p (k, v)).
    + cbn [obj_get]. now rewrite String.eqb_refl.
    + rewrite IH by assumption. now rewrite (proj2 (obj_get_None k l)).
  - destruct (p (k, v)); [|now apply IH].
    cbn [obj_get]. apply String.eqb_neq in Hne. rewrite Hne. now apply IH.
Qed.

Lemma drop_empty_get (r : record) s :
  NoDup (keys r) ->
  obj_get s (drop_empty r)
  = match obj_get s r with
    | Some v => if value_eqb v (VStr "") then None else Some v
    | None => None
    end.
Proof.
  intros ND. unfold drop_empty.
  rewrite obj_get_fold_define by now apply keys_filter_nodup.
  rewrite obj_get_filter by assumption. cbn [snd obj_get].
  destruct (obj_get s r) as [v|]; [|reflexivity].
  now destruct (value_eqb v (VStr "")).
Qed.

Section Environment.
Variable https_request : request -> option bool.
Variable env : string -> option string.
Variable answers : result record.

Lemma testConnection_unfold service st :
  testConnection https_request service st =
  match getCredentials service st with
  | (Ok credentials, _) =>
      let req :=
        if String.eqb service "stripe"
        then Some (mkRequest "api.stripe.com" "/v1/account"
                     ("Bearer " ++ template (obj_get "api_key" credentials)))
        else if String.eqb service "openai"
        then Some (mkRequest "api.openai.com" "/v1/models"
                     ("Bearer " ++ template (obj_get "api_key" credentials)))
        else if String.eqb service "github"
        then Some (mkRequest "api.github.com" "/user"
                     ("Bearer " ++ template (obj_get "token" credentials)))
        else None in
      match req with
      | Some r =>
          match https_request r with
          | Some b => (Ok b, st)
          | None => (Err "undefined", st)
          end
      | None =>
          (Err ("Connection test failed for " ++ service
                ++ ": Connection test not implemented for service: " ++ service), st)
      end
  | (Err m, _) => (Err ("Connection test failed for " ++ service ++ ": " ++ m), st)
  end.
Proof.
  unfold testConnection, try_catch, bind. rewrite getCredentials_unfold.
  destruct (obj_has service (cache st)); [|reflexivity].
  unfold testStripeConnection, testOpenAIConnection, testGitHubConnection, send, ret, throw.
  destruct (String.eqb service "stripe"); [now destruct (https_request _)|].
  destruct (String.eqb service "openai"); [now destruct (https_request _)|].
  destruct (String.eqb service "github"); [now destruct (https_request _)|].
  reflexivity.
Qed.

Lemma testConnection_keeps_state service st :
  snd (testConnection https_request service st) = st.
Proof.
  rewrite testConnection_unfold, getCredentials_unfold.
  destruct (obj_has service (cache st)); [|reflexivity]. cbv zeta.
  destruct (String.eqb service "stripe"); [now destruct (https_request _)|].
  destruct (String.eqb service "openai"); [now destruct (https_request _)|].
  destruct (String.eqb service "github"); [now destruct (https_request _)|].
  reflexivity.
Qed.

(** X25.  [testConnection] for a service other than stripe, openai and
    github throws, whatever the network answers, and leaves the state as it
    is. *)
Theorem connection_test_only_for_three (service : string) (st : state) :
  service <> "stripe" -> service <> "openai" -> service <> "github" ->
  snd (testConnection https_request service st) = st
  /\ exists m, fst (testConnection https_request service st) = Err m.
Proof.
  intros H1 H2 H3. split; [apply testConnection_keeps_state|].
  rewrite testConnection_unfold, getCredentials_unfold.
  apply String.eqb_neq in H1, H2, H3. rewrite H1, H2, H3.
  destruct (obj_has service (cache st)); cbn [fst]; eauto.
Qed.

(** *** The loop of the non-interactive branch *)

Lemma collect_spec service opts : forall config acc,
  NoDup (keys acc ++ names config) -> forallb storable_key (names config) = true ->
  collect env service opts config acc =
    match find (lacking env service opts) config with
    | Some g => Err ("Missing required field: " ++ name g)
    | None => Ok (acc ++ collected env service opts config)%list
    end.
Proof.
  induction config as [|f config IH]; intros acc ND Hk.
  - cbn. now rewrite app_nil_r.
  - cbn [names map forallb] in ND, Hk. apply andb_true_iff in Hk. destruct Hk as [Hf Hk].
    assert (N : ~ In (name f) (keys acc)).
    { intros Hin. apply NoDup_remove_2 in ND. apply ND. apply in_or_app. now left. }
    assert (ND0 : NoDup (keys acc ++ names config)) by (now apply NoDup_remove_1 in ND).
    cbn [collect find collected flat_map]. unfold lacking at 1, supplied.
    destruct (value_of env service opts f) as [s|] eqn:Ev.
    + destruct (nonempty (Some s)) eqn:Hs.
      * rewrite andb_false_r. rewrite storable_assign, obj_set_notin by assumption.
        rewrite IH; [|unfold keys in *; rewrite map_app, <- app_assoc; exact ND|exact Hk].
        fold (collected env service opts config).
        destruct (find _ config); [reflexivity|]. now rewrite <- app_assoc.
      * rewrite andb_true_r. destruct (optional f); cbn [negb]; [|reflexivity].
        rewrite IH by assumption.
        fold (collected env service opts config). reflexivity.
    + cbn [nonempty negb]. rewrite andb_true_r. destruct (optional f); cbn [negb]; [|reflexivity].
      rewrite IH by assumption. reflexivity.
Qed.

Lemma keys_collected_eq service opts : forall config,
  keys (collected env service opts config) = names (filter (supplied env service opts) config).
Proof.
  induction config as [|f config IH]; [reflexivity|].
  cbn [collected flat_map filter]. unfold supplied at 1.
  fold (collected env service opts config).
  destruct (value_of env service opts f) as [s|]; [|exact IH].
  destruct (nonempty (Some s)); [|exact IH].
  cbn [app keys map fst names]. f_equal. exact IH.
Qed.

Lemma names_filter_incl (p : field -> bool) config : incl (names (filter p config)) (names config).
Proof.
  intros x Hx. unfold names in *. apply in_map_iff in Hx. destruct Hx as (f & <- & Hf).
  apply filter_In in Hf. apply in_map. tauto.
Qed.

Lemma names_filter_nodup (p : field -> bool) : forall config,
  NoDup (names config) -> NoDup (names (filter p config)).
Proof.
  induction config as [|f config IH]; intros ND; [constructor|].
  cbn [names map] in ND. inversion ND as [|? ? Hn ND']; subst.
  cbn [filter]. destruct (p f); [|now apply IH].
  cbn [names map]. constructor; [|now apply IH].
  intros Hin. apply Hn. now apply (names_filter_incl p).
Qed.

Lemma forallb_incl {A} (p : A -> bool) (l l' : list A) :
  incl l l' -> forallb p l' = true -> forallb p l = true.
Proof.
  intros Hi H. rewrite forallb_forall in *. auto.
Qed.

Lemma collected_nonempty service opts : forall config,
  forallb (fun e => negb (value_eqb (snd e) (VStr ""))) (collected env service opts config) = true
  /\ plain (collected env service opts config) = true.
Proof.
  unfold plain.
  induction config as [|f config IH]; [split; reflexivity|].
  cbn [collected flat_map]. fold (collected env service opts config).
  destruct (value_of env service opts f) as [s|]; [|exact IH].
  destruct (nonempty (Some s)) eqn:Hs; [|exact IH].
  cbn [app forallb snd value_eqb]. cbn [nonempty] in Hs. rewrite Hs. exact IH.
Qed.

Lemma filter_all {A} (p : A -> bool) : forall l, forallb p l = true -> filter p l = l.
Proof.
  induction l as [|a l IH]; [reflexivity|]. cbn. intros H.
  apply andb_true_iff in H. destruct H as [-> H]. now rewrite IH.
Qed.

Lemma drop_empty_collected service opts config :
  NoDup (names config) -> forallb storable_key (names config) = true ->
  drop_empty (collected env service opts config) = collected env service opts config.
Proof.
  intros ND Hk. unfold drop_empty.
  rewrite filter_all by apply collected_nonempty.
  rewrite fold_define_plain; [reflexivity| |].
  - cbn [keys map app]. rewrite keys_collected_eq. now apply names_filter_nodup.
  - rewrite keys_collected_eq. eapply forallb_incl; [apply names_filter_incl|exact Hk].
Qed.

Lemma obj_get_collected service opts : forall config f,
  NoDup (names config) -> In f config -> supplied env service opts f = true ->
  exists s, value_of env service opts f = Some s
            /\ obj_get (name f) (collected env service opts config) = Some (VStr s)
            /\ truthy (Some (VStr s)) = true.
Proof.
  induction config as [|g config IH]; intros f ND Hin Hs; [destruct Hin|].
  destruct Hin as [<-|Hin].
  - unfold supplied in Hs. cbn [collected flat_map].
    destruct (value_of env service opts g) as [s|] eqn:Ev; [|discriminate].
    rewrite Hs. exists s. cbn [app obj_get]. rewrite String.eqb_refl. auto.
  - cbn [names map] in ND. inversion ND as [|? ? Hn ND']; subst.
    destruct (IH f ND' Hin Hs) as (s & Ev & Hg & Ht). exists s. split; [exact Ev|].
    split; [|exact Ht].
    cbn [collected flat_map]. fold (collected env service opts config).
    assert (Hne : name f <> name g).
    { intros E. apply Hn. rewrite <- E. now apply in_map. }
    destruct (value_of env service opts g) as [s'|]; [|exact Hg].
    destruct (nonempty (Some s')); [|exact Hg].
    cbn [app obj_get]. apply String.eqb_neq in Hne. now rewrite Hne.
Qed.

(** *** The two tables *)

Lemma serviceConfigs_all : Forall (fun e => config_ok (fst e) (snd e)) serviceConfigs.
Proof.
  unfold serviceConfigs.
  repeat constructor; cbn [fst snd]; eexists; (split; [reflexivity|]);
    (split; [intros x Hx; cbn in Hx; in_cases Hx; subst x; cbn; tauto|]);
    (split; [intros x Hx; cbn in Hx; in_cases Hx; subst x; cbn; tauto|]);
    (split; [|reflexivity]);
    cbn; repeat constructor; cbn; intuition discriminate.
Qed.

Lemma serviceConfigs_ok service config :
  table_get service serviceConfigs = Own config -> config_ok service config.
Proof.
  unfold table_get. destruct (obj_get service serviceConfigs) as [c|] eqn:E.
  - injection 1 as ->. apply obj_get_In_pair in E.
    pose proof serviceConfigs_all as H. rewrite Forall_forall in H. exact (H _ E).
  - destruct (inherited service); discriminate.
Qed.

Lemma configure_noninteractive_unfold service opts config st :
  table_get service serviceConfigs = Own config -> interactive opts = false ->
  configureCredentials https_request env answers service opts st =
  match find (lacking env service opts) config with
  | Some g => (Err (configure_message service ("Missing required field: " ++ name g)), st)
  | None =>
      match setCredentials service (collected env service opts config) st with
      | (Ok _, st') => (Ok tt, st')
      | (Err m, st') => (Err (configure_message service m), st')
      end
  end.
Proof.
  intros Hc Hi. destruct (serviceConfigs_ok _ _ Hc) as (rs & _ & _ & _ & ND & Hk).
  unfold configureCredentials, try_catch, bind. rewrite Hc, Hi. unfold ret at 1, lift.
  rewrite collect_spec by assumption. cbn [app].
  destruct (find _ config); [reflexivity|].
  rewrite drop_empty_collected by assumption.
  destruct (setCredentials service _ st) as [[[]|m] st']; [|reflexivity].
  destruct (test opts); [|reflexivity].
  pose proof (testConnection_keeps_state service st') as K.
  destruct (testConnection https_request service st') as [[b|m] st'']; cbn [snd] in K; subst st'';
    reflexivity.
Qed.


(** X27.  In non-interactive mode, when a field that is not optional has no
    value, [configureCredentials] fails with [Missing required field]
    naming such a field, and the state is unchanged; the [default] of the
    field is not consulted. *)
Theorem configure_missing_field (st : state) (service : string) (config : list field)
    (opts : options) (f : field) :
  table_get service serviceConfigs = Own config ->
  interactive opts = false ->
  In f config -> optional f = false -> supplied env service opts f = false ->
  exists g,
    In g config /\ optional g = false /\ supplied env service opts g = false
    /\ configureCredentials https_request env answers service opts st
       = (Err (configure_message service ("Missing required field: " ++ name g)), st).
Proof.
  intros Hc Hi Hf Ho Hs.
  rewrite (configure_noninteractive_unfold _ _ _ _ Hc Hi).
  destruct (find (lacking env service opts) config) as [g|] eqn:Ef.
  - apply find_some in Ef. destruct Ef as [Hg Hl]. unfold lacking in Hl.
    apply andb_true_iff in Hl. destruct Hl as [Ho' Hs'].
    apply negb_true_iff in Ho', Hs'. exists g. auto.
  - exfalso. apply (find_none _ _ Ef) in Hf. unfold lacking in Hf.
    rewrite Ho, Hs in Hf. discriminate.
Qed.

(** X28.  For a service name that is no key of [serviceConfigs],
    [configureCredentials] fails in either mode and leaves the state
    unchanged. *)
Theorem configure_other_service (st : state) (service : string) (opts : options) :
  obj_get service serviceConfigs = None ->
  exists m, configureCredentials https_request env answers service opts st = (Err m, st).
Proof.
  intros H. unfold configureCredentials, try_catch, bind, table_get. rewrite H.
  destruct (inherited service).
  - unfold ret at 1. destruct (interactive opts); unfold throw; eauto.
  - unfold throw. eauto.
Qed.

(** X29.  In interactive mode, when the answers leave a field that the
    validation rules require empty or out, [configureCredentials] fails
    with the message of [validateCredentials] for a required field, and
    the state is unchanged. *)
Theorem configure_empty_answer (st : state) (service : string) (config : list field)
    (rs : rules) (opts : options) (r : record) (f : string) :
  table_get service serviceConfigs = Own config ->
  table_get service validationRules = Own rs ->
  interactive opts = true ->
  answers = Ok r -> NoDup (keys r) ->
  In f (required rs) ->
  obj_get f r = None \/ obj_get f r = Some (VStr "") ->
  exists g,
    In g (required rs)
    /\ configureCredentials https_request env answers service opts st
       = (Err (configure_message service (set_message service (missing_field g service))), st).
Proof.
  intros Hc Hrs Hi Ha ND Hf He.
  unfold configureCredentials, try_catch, bind. rewrite Hc, Hi, Ha. unfold ret at 1, lift.
  rewrite setCredentials_unfold.
  assert (Hne : String.eqb service "" = false).
  { apply String.eqb_neq. intros ->. discriminate. }
  rewrite Hne.
  assert (Ht : truthy (obj_get f (drop_empty r)) = false).
  { rewrite drop_empty_get by assumption. destruct He as [->| ->]; reflexivity. }
  destruct (snd (validateCredentials service (drop_empty r))) as [[]|m] eqn:Hv.
  - pose proof (proj1 (proj1 (validate_known service rs _ Hrs)) Hv f Hf). congruence.
  - destruct (proj2 (validate_known service rs _ Hrs) m Hv) as (g & Hg & _ & ->).
    exists g. split; [exact Hg|reflexivity].
Qed.

End Environment.

Lemma connection_test_only_for_three_witness :
  snd (testConnection offline "aws" fresh) = fresh
  /\ exists m, fst (testConnection offline "aws" fresh) = Err m.
Proof. apply (connection_test_only_for_three offline "aws" fresh); discriminate. Defined.


Lemma configure_missing_field_witness :
  exists g,
    In g stripe_config /\ optional g = false /\ supplied stripe_env "stripe" no_option g = false
    /\ configureCredentials offline stripe_env no_answers "stripe" no_option fresh
       = (Err (configure_message "stripe" ("Missing required field: " ++ name g)), fresh).
Proof.
  apply (configure_missing_field offline stripe_env no_answers fresh "stripe" stripe_config
           no_option (mkField "environment" false (Some "test"))); try reflexivity.
  simpl. tauto.
Defined.

Lemma configure_other_service_witness :
  exists m,
    configureCredentials offline no_env no_answers "digitalocean" token_option fresh
    = (Err m, fresh).
Proof.
  apply (configure_other_service offline no_env no_answers fresh "digitalocean" token_option).
  reflexivity.
Defined.

Lemma configure_empty_answer_witness :
  exists g,
    In g (required stripe_rules)
    /\ configureCredentials offline no_env
         (Ok [("api_key", VStr ""); ("environment", VStr "test")]) "stripe" prompted fresh
       = (Err (configure_message "stripe"
                 (set_message "stripe" (missing_field g "stripe"))), fresh).
Proof.
  apply (configure_empty_answer offline no_env
           (Ok [("api_key", VStr ""); ("environment", VStr "test")]) fresh "stripe"
           stripe_config stripe_rules prompted
           [("api_key", VStr ""); ("environment", VStr "test")] "api_key");
    try reflexivity.
  - repeat constructor; simpl; intuition discriminate.
  - simpl. tauto.
  - right. reflexivity.
Defined.

End ClientFacts.
